(** * djquickstart: the settings patcher and the project command

    A shallow embedding of [src/djquickstart/cli.py].

    Python [str] values are sequences of Unicode code points; they are
    modelled as [list N].  A text file holds such a sequence too (the
    encoding is taken to be a bijection and is left out); what
    [Path.read_text] and [Path.write_text] do to line endings is kept. *)

From Stdlib Require Import NArith Ascii String List Bool Lia.
From stdpp Require Import base option list gmap.
Import ListNotations.

Local Open Scope N_scope.

(** ** Python text *)

Abbreviation text := (list N).

(** A literal of the source, as code points. *)
Definition cp (s : string) : text :=
  List.map N_of_ascii (list_ascii_of_string s).
Arguments cp : simpl never.

Definition LF : N := 10.
Definition CR : N := 13.

(** [str.splitlines] boundaries: LF, VT, FF, CR, FS, GS, RS, NEL, LS, PS
    (CR LF counts as one boundary). *)
Definition is_linebreak (c : N) : bool :=
  ((10 <=? c) && (c <=? 13)) || ((28 <=? c) && (c <=? 30))
  || (c =? 133) || (c =? 8232) || (c =? 8233).

(** [str.isspace] on one character; also what [\s] matches in a [str]
    pattern. *)
Definition is_space (c : N) : bool :=
  ((9 <=? c) && (c <=? 13)) || ((28 <=? c) && (c <=? 32))
  || (c =? 133) || (c =? 160) || (c =? 5760)
  || ((8192 <=? c) && (c <=? 8202))
  || (c =? 8232) || (c =? 8233) || (c =? 8239) || (c =? 8287)
  || (c =? 12288).

(** [s.startswith(p)] *)
Fixpoint startswith (p s : text) : bool :=
  match p, s with
  | [], _ => true
  | _ :: _, [] => false
  | a :: p', b :: s' => (a =? b) && startswith p' s'
  end.

(** [p in s] *)
Fixpoint contains (p s : text) : bool :=
  startswith p s ||
  match s with
  | [] => false
  | _ :: s' => contains p s'
  end.

Fixpoint lstrip (s : text) : text :=
  match s with
  | [] => []
  | c :: s' => if is_space c then lstrip s' else s
  end.

Definition rstrip (s : text) : text := rev (lstrip (rev s)).

(** [s.strip()] *)
Definition strip (s : text) : text := rstrip (lstrip s).

(** [s.splitlines()]; [after_cr] tells that the previous character was a
    CR, so that a LF right after it belongs to the same boundary. *)
Fixpoint splitlines_from (after_cr : bool) (s : text) : list text :=
  match s with
  | [] => []
  | c :: r =>
      if after_cr && (c =? LF) then splitlines_from false r
      else if is_linebreak c then [] :: splitlines_from (c =? CR) r
      else match splitlines_from false r with
           | [] => [[c]]
           | l :: ls => (c :: l) :: ls
           end
  end.

Definition splitlines (s : text) : list text := splitlines_from false s.

(** ** Text files

    [open(..., "r")] with the default [newline=None] turns CR LF and a
    lone CR into LF; [open(..., "w")] writes every LF as [os.linesep]. *)
Fixpoint universal_newlines_from (after_cr : bool) (s : text) : text :=
  match s with
  | [] => []
  | c :: r =>
      if after_cr && (c =? LF) then universal_newlines_from false r
      else if c =? CR then LF :: universal_newlines_from true r
      else c :: universal_newlines_from false r
  end.

Definition universal_newlines (s : text) : text :=
  universal_newlines_from false s.

Fixpoint write_newlines (linesep : text) (s : text) : text :=
  match s with
  | [] => []
  | c :: r =>
      if c =? LF then linesep ++ write_newlines linesep r
      else c :: write_newlines linesep r
  end.

(** ** add_app_to_settings: the text transformation *)

Definition MARKER : text := cp "INSTALLED_APPS".
Definition CLOSER : text := cp "]".

(** f"    '{app_name}',\n" *)
Definition app_entry (app_name : text) : text :=
  cp "    '" ++ app_name ++ cp "'," ++ [LF].
Arguments app_entry : simpl never.

(** One iteration of the [for line in content.splitlines()] loop; the
    state is [(new_content, in_installed)]. *)
Definition add_app_step (app_name : text) (st : text * bool) (line : text)
  : text * bool :=
  let '(new_content, in_installed) := st in
  let in_installed :=
    if contains MARKER line then true else in_installed in
  let '(new_content, in_installed) :=
    if in_installed && startswith CLOSER (strip line)
    then (new_content ++ app_entry app_name, false)
    else (new_content, in_installed) in
  (new_content ++ line ++ [LF], in_installed).

Definition add_app_loop (app_name : text) (lines : list text)
  (st : text * bool) : text * bool :=
  fold_left (add_app_step app_name) lines st.

(** What [add_app_to_settings] does with the text it has read: [None]
    is the early [return] (nothing is written), [Some new_content] is
    the text handed to [write_text]. *)
Definition add_app_text (content app_name : text) : option text :=
  if contains app_name content then None
  else Some (fst (add_app_loop app_name (splitlines content) ([], false))).

(** ** Regular expressions

    The two patterns of [fix_project_references] are sequences of
    literals, character sets and starred character sets.  [match_here]
    is the backtracking matcher of [re]: a greedy star tries the longest
    run first, a lazy one the shortest; the result is the text left
    after the first match found in that order. *)

Inductive item : Type :=
| Lit (s : text)
| OneOf (cls : N -> bool)
| StarGreedy (cls : N -> bool)
| StarLazy (cls : N -> bool).

Fixpoint match_here (p : list item) (s : text) {struct p} : option text :=
  match p with
  | [] => Some s
  | Lit l :: p' =>
      if startswith l s then match_here p' (drop (length l) s) else None
  | OneOf cls :: p' =>
      match s with
      | x :: r => if cls x then match_here p' r else None
      | [] => None
      end
  | StarGreedy cls :: p' =>
      (fix go (s : text) : option text :=
         match s with
         | x :: r =>
             if cls x
             then match go r with
                  | Some e => Some e
                  | None => match_here p' s
                  end
             else match_here p' s
         | [] => match_here p' s
         end) s
  | StarLazy cls :: p' =>
      (fix go (s : text) : option text :=
         match match_here p' s with
         | Some e => Some e
         | None =>
             match s with
             | x :: r => if cls x then go r else None
             | [] => None
             end
         end) s
  end.

(** The scan of [re.sub(pattern, repl, s)] with [count=0]: every
    non-overlapping match, leftmost first, is replaced.  After an empty
    match one character is copied.  [fuel] bounds the number of scan
    positions. *)
Fixpoint sub_from (fuel : nat) (p : list item) (repl s : text) : text :=
  match fuel with
  | O => s
  | S fuel' =>
      let copy_one :=
        match s with
        | [] => []
        | c :: s' => c :: sub_from fuel' p repl s'
        end in
      match match_here p s with
      | Some rest =>
          if (length rest <? length s)%nat
          then repl ++ sub_from fuel' p repl rest
          else repl ++ copy_one
      | None => copy_one
      end
  end.

Definition BACKSLASH : N := 92.

(** [re.sub] with a [str] replacement.  A replacement without a
    backslash is used as it is.  One with a backslash goes through the
    escape processing of [re] (group references, or [re.error]), which
    is not modelled: [None]. *)
Definition sub_all (p : list item) (repl s : text) : text :=
  sub_from (S (length s)) p repl s.

Definition re_sub (p : list item) (repl s : text) : option text :=
  if existsb (N.eqb BACKSLASH) repl then None
  else Some (sub_all p repl s).

Definition is_quote (c : N) : bool := (c =? 34) || (c =? 39).

(** [.] without DOTALL *)
Definition dot (c : N) : bool := negb (c =? LF).

(** r'NAME\s*=\s*["\'].*?["\']' *)
Definition assignment_pattern (name : text) : list item :=
  [Lit name; StarGreedy is_space; Lit (cp "="); StarGreedy is_space;
   OneOf is_quote; StarLazy dot; OneOf is_quote].

Definition ROOT_URLCONF : text := cp "ROOT_URLCONF".
Definition WSGI_APPLICATION : text := cp "WSGI_APPLICATION".

(** f'ROOT_URLCONF = "{safe_project_name}.urls"' *)
Definition urlconf_repl (safe_project_name : text) : text :=
  ROOT_URLCONF ++ cp " = " ++ [34] ++ safe_project_name ++ cp ".urls" ++ [34].

(** f'WSGI_APPLICATION = "{safe_project_name}.wsgi.application"' *)
Definition wsgi_repl (safe_project_name : text) : text :=
  WSGI_APPLICATION ++ cp " = " ++ [34] ++ safe_project_name
  ++ cp ".wsgi.application" ++ [34].

(** The two substitutions of [fix_project_references], on the text
    read. *)
Definition fix_references_text (safe_project_name text0 : text)
  : option text :=
  text1 ← re_sub (assignment_pattern ROOT_URLCONF)
                 (urlconf_repl safe_project_name) text0;
  re_sub (assignment_pattern WSGI_APPLICATION)
         (wsgi_repl safe_project_name) text1.

(** [name.replace("-", "_")] *)
Definition safe_name (name : text) : text :=
  List.map (fun c => if c =? 45 then 95 else c) name.

(** ** The file system and the process

    A place in the file system is the list of the names that lead to
    it from the root; the operations below work on places.  What
    [pathlib] makes of a name given on the command line, and how a path
    is walked to a place, comes after them.  A run of the command
    starts from a [world] and ends in an [outcome]: a normal return, a
    [SystemExit] or an uncaught exception (which also ends the process
    with a non-zero status). *)

Abbreviation path := (list text).

Inductive node : Type :=
| File (content : text)
| Dir.

Record world : Type := World {
  fs : gmap path node;
  stdout : list text
}.

Inductive exn : Type :=
| FileNotFoundError
| NotADirectoryError
| IsADirectoryError
| FileExistsError
| CalledProcessError
| re_error.

Inductive outcome (A : Type) : Type :=
| Ok (a : A) (w : world)
| SystemExit (code : Z) (w : world)
| Raised (e : exn) (w : world).
Arguments Ok {A} a w.
Arguments SystemExit {A} code w.
Arguments Raised {A} e w.

Definition M (A : Type) : Type := world -> outcome A.

#[global] Instance M_ret : MRet M := fun A a w => Ok a w.
#[global] Instance M_bind : MBind M := fun A B k m w =>
  match m w with
  | Ok a w' => k a w'
  | SystemExit c w' => SystemExit c w'
  | Raised e w' => Raised e w'
  end.

Definition final_world {A : Type} (o : outcome A) : world :=
  match o with
  | Ok _ w | SystemExit _ w | Raised _ w => w
  end.

(** The exit status of the process. *)
Definition exit_status {A : Type} (o : outcome A) : Z :=
  match o with
  | Ok _ _ => 0
  | SystemExit c _ => c
  | Raised _ _ => 1
  end.

Definition raise {A : Type} (e : exn) : M A := fun w => Raised e w.
Definition sys_exit {A : Type} (code : Z) : M A := fun w => SystemExit code w.

Definition echo (msg : text) : M unit :=
  fun w => Ok tt (World (fs w) (stdout w ++ [msg])).

Definition parent (p : path) : path := take (length p - 1) p.

Definition is_child (d p : path) : bool :=
  bool_decide (p ≠ [] ∧ parent p = d).

Definition children (d : path) (m : gmap path node) : list path :=
  List.filter (is_child d) (List.map fst (map_to_list m)).

(** [p.exists()] *)
Definition path_exists (p : path) : M bool :=
  fun w => Ok (bool_decide (is_Some (fs w !! p))) w.

(** [list(p.iterdir())] *)
Definition iterdir (p : path) : M (list path) :=
  fun w =>
    match fs w !! p with
    | Some Dir => Ok (children p (fs w)) w
    | Some (File _) => Raised NotADirectoryError w
    | None => Raised FileNotFoundError w
    end.

(** [p.mkdir(exist_ok=True)] *)
Definition mkdir_exist_ok (p : path) : M unit :=
  fun w =>
    match fs w !! p with
    | Some Dir => Ok tt w
    | Some (File _) => Raised FileExistsError w
    | None =>
        match fs w !! parent p with
        | Some Dir => Ok tt (World (<[p := Dir]> (fs w)) (stdout w))
        | Some (File _) => Raised NotADirectoryError w
        | None => Raised FileNotFoundError w
        end
    end.

(** Creating or truncating the regular file [p] with content [c]. *)
Definition store_file (p : path) (c : text) : M unit :=
  fun w =>
    match fs w !! p with
    | Some Dir => Raised IsADirectoryError w
    | _ =>
        match fs w !! parent p with
        | Some Dir => Ok tt (World (<[p := File c]> (fs w)) (stdout w))
        | Some (File _) => Raised NotADirectoryError w
        | None => Raised FileNotFoundError w
        end
    end.

(** [p.read_text()] *)
Definition read_text (p : path) : M text :=
  fun w =>
    match fs w !! p with
    | Some (File c) => Ok (universal_newlines c) w
    | Some Dir => Raised IsADirectoryError w
    | None => Raised FileNotFoundError w
    end.

(** [shutil.copy(src, dst)] *)
Definition shutil_copy (src dst : path) : M unit :=
  fun w =>
    match fs w !! src with
    | Some (File c) =>
        let dst' :=
          match fs w !! dst with
          | Some Dir => dst ++ drop (length src - 1) src
          | _ => dst
          end in
        store_file dst' c w
    | Some Dir => Raised IsADirectoryError w
    | None => Raised FileNotFoundError w
    end.

(** ** Paths

    [PRESETS_DIR / preset] and [Path.cwd() / project_name] join a
    string to a path.  [pathlib], in its POSIX flavour, cuts the string
    at every [/], drops the empty components and the components [.],
    keeps the components [..], and lets a string that starts with [/]
    replace the path it is joined to.  A path is a list of components
    read from the root. *)

Definition SLASH : N := 47.

(** [s.split("/")]; [cur] is the component being read. *)
Fixpoint split_slash_from (cur s : text) : list text :=
  match s with
  | [] => [cur]
  | c :: r =>
      if c =? SLASH then cur :: split_slash_from [] r
      else split_slash_from (cur ++ [c]) r
  end.

(** The components that [pathlib] keeps of a string. *)
Definition parts (s : text) : list text :=
  List.filter
    (fun x => negb (bool_decide (x = [])) && negb (bool_decide (x = cp ".")))
    (split_slash_from [] s).

(** [p / s] *)
Definition joinpath (p : path) (s : text) : path :=
  if startswith [SLASH] s then parts s else p ++ parts s.

(** Where the operating system gets when it walks a path: to a place
    (whether or not something is there), or nowhere, because a
    directory it has to go through is missing ([ENOENT]) or is a file
    ([ENOTDIR]). *)
Inductive walk : Type :=
| Found (q : path)
| Missing
| Blocked.

(** The walk from the place [cur] along the components [p].  Every
    step starts in a directory (the root is one): a name leads to the
    entry of that name, [..] to the parent, which for the root is the
    root. *)
Fixpoint resolve_from (m : gmap path node) (cur p : path) : walk :=
  match p with
  | [] => Found cur
  | c :: p' =>
      match (if bool_decide (cur = []) then Some Dir else m !! cur) with
      | Some Dir =>
          resolve_from m
            (if bool_decide (c = cp "..") then parent cur else cur ++ [c]) p'
      | Some (File _) => Blocked
      | None => Missing
      end
  end.

Definition resolve (m : gmap path node) (p : path) : walk :=
  resolve_from m [] p.

(** What is found at the end of the walk. *)
Definition lookup_path (m : gmap path node) (p : path) : option node :=
  match resolve m p with
  | Found q => m !! q
  | Missing | Blocked => None
  end.

(** An operation on a path: the path is walked in the file system as
    it is now, and the operation works on the place reached; a walk
    that fails is the operation's [FileNotFoundError] or
    [NotADirectoryError]. *)
Definition on_path {A : Type} (p : path) (op : path -> M A) : M A :=
  fun w =>
    match resolve (fs w) p with
    | Found q => op q w
    | Missing => Raised FileNotFoundError w
    | Blocked => Raised NotADirectoryError w
    end.

(** [p.exists()]: false also when the walk fails. *)
Definition exists_path (p : path) : M bool :=
  fun w => Ok (bool_decide (is_Some (lookup_path (fs w) p))) w.

(** [shutil.copy(src, dst)] for a source that has been reached and a
    destination still to be walked: the source is opened first, so
    that with a destination that cannot be reached the error is that
    of the source when the source is no regular file. *)
Definition copy_to (src dst : path) : M unit :=
  fun w =>
    match fs w !! src, resolve (fs w) dst with
    | Some (File _), Found d => shutil_copy src d w
    | Some (File _), Missing => Raised FileNotFoundError w
    | Some (File _), Blocked => Raised NotADirectoryError w
    | Some Dir, _ => Raised IsADirectoryError w
    | None, _ => Raised FileNotFoundError w
    end.

(** What the command gets from outside: the line separator of the
    platform, where the package and the process live, what the external
    programs do to the file system (with their return code; [None] when
    the program cannot be started), and the value that
    [get_random_secret_key()] returns in this run. *)
Class Environment : Type := {
  os_linesep : text;
  PRESETS_DIR : path;
  cwd : path;
  run_process : list text -> path -> gmap path node
                -> option (Z * gmap path node);
  get_random_secret_key : text
}.

(** [s.replace(old, new)] for a non-empty [old]: the scan, bounded by
    [fuel] positions. *)
Fixpoint replace_from (fuel : nat) (old new s : text) : text :=
  match fuel with
  | O => s
  | S fuel' =>
      if startswith old s
      then new ++ replace_from fuel' old new (drop (length old) s)
      else match s with
           | [] => []
           | c :: s' => c :: replace_from fuel' old new s'
           end
  end.

(** [s.replace(old, new)]; an empty [old] matches before every character
    and at the end. *)
Definition str_replace (old new s : text) : text :=
  match old with
  | [] => new ++ flat_map (fun c => c :: new) s
  | _ :: _ => replace_from (length s) old new s
  end.

Definition PLACEHOLDER : text := cp "{{SECRET_KEY}}".

Section Program.
Context `{Environment}.

(** [p.write_text(s)] *)
Definition write_text (p : path) (s : text) : M unit :=
  store_file p (write_newlines os_linesep s).

(** [subprocess.run(argv, check=check, cwd=dir)] *)
Definition subprocess_run (argv : list text) (check : bool) (dir : path)
  : M unit :=
  fun w =>
    match run_process argv dir (fs w) with
    | None => Raised FileNotFoundError w
    | Some (rc, m) =>
        if check && negb (rc =? 0)%Z
        then Raised CalledProcessError (World m (stdout w))
        else Ok tt (World m (stdout w))
    end.

Definition add_app_to_settings (settings_path : path) (app_name : text)
  : M unit :=
  content ← read_text settings_path;
  match add_app_text content app_name with
  | None => mret tt
  | Some new_content => write_text settings_path new_content
  end.

(** A replacement with a backslash (see [re_sub]) ends the run here, as
    [re.error] does for a bad escape. *)
Definition fix_project_references (settings_path : path)
  (safe_project_name : text) : M unit :=
  text0 ← read_text settings_path;
  match fix_references_text safe_project_name text0 with
  | Some text2 => write_text settings_path text2
  | None => raise re_error
  end.

Definition ALLOWED_PRESET_FILES : list text := [cp "requirements.txt"].

Definition name_of (p : path) : text := concat (drop (length p - 1) p).

(** The body of [for file in preset_path.iterdir()], on places: the
    project root has been reached. *)
Definition copy_preset_file (project_root file : path) : M unit :=
  if bool_decide (name_of file ∈ ALLOWED_PRESET_FILES)
  then shutil_copy file (project_root ++ [name_of file])
  else mret tt.

Fixpoint for_each {A : Type} (body : A -> M unit) (l : list A) : M unit :=
  match l with
  | [] => mret tt
  | x :: l' => body x ;; for_each body l'
  end.

(** The body of the loop with the paths of [project]: the file is a
    place that [iterdir] has given, the project root is walked again
    at every copy. *)
Definition copy_preset_path (project_root file : path) : M unit :=
  if bool_decide (name_of file ∈ ALLOWED_PRESET_FILES)
  then copy_to file (joinpath project_root (name_of file))
  else mret tt.

(** Step 7 of [project]: [.env.template] to [.env], with SECRET_KEY;
    on places: the preset and the project root have been reached. *)
Definition handle_env_template (preset_path project_root : path) : M unit :=
  let template_env := preset_path ++ [cp ".env.template"] in
  let env_path := project_root ++ [cp ".env"] in
  has_template ← path_exists template_env;
  if (has_template : bool)
  then template ← read_text template_env;
       write_text env_path
         (str_replace PLACEHOLDER get_random_secret_key template)
  else mret tt.

(** Step 7 with the paths of [project]. *)
Definition env_step (preset_path project_root : path) : M unit :=
  let template_env := joinpath preset_path (cp ".env.template") in
  let env_path := joinpath project_root (cp ".env") in
  has_template ← exists_path template_env;
  if (has_template : bool)
  then template ← on_path template_env read_text;
       on_path env_path
         (fun p => write_text p
                     (str_replace PLACEHOLDER get_random_secret_key template))
  else mret tt.

(** The command.  Every path is walked anew by the operation that uses
    it.  The two patchers read and write one path with nothing in
    between, so they are run on the place the path leads to. *)
Definition project (project_name app_name preset : text) (install : bool)
  : M unit :=
  echo (cp "Starting Django project '" ++ project_name
        ++ cp "' with preset '" ++ preset ++ cp "'") ;;
  let preset_path := joinpath PRESETS_DIR preset in
  found ← exists_path preset_path;
  if negb (found : bool)
  then echo (cp "Preset '" ++ preset ++ cp "' not found.") ;; sys_exit 1
  else
  let safe_project_name := safe_name project_name in
  let safe_app_name := safe_name app_name in
  let project_root := joinpath cwd project_name in
  there ← exists_path project_root;
  occupied ← (if (there : bool)
              then entries ← on_path project_root iterdir;
                   mret (negb (bool_decide (entries = [])))
              else mret false);
  if (occupied : bool)
  then echo (cp "Directory '" ++ project_name
             ++ cp "' already exists and is not empty.") ;; sys_exit 1
  else
  on_path project_root mkdir_exist_ok ;;
  on_path project_root
    (subprocess_run [cp "django-admin"; cp "startproject";
                     safe_project_name; cp "."] true) ;;
  let inner_project_path := joinpath project_root safe_project_name in
  let src_settings := joinpath preset_path (cp "settings.py") in
  let target_settings := joinpath inner_project_path (cp "settings.py") in
  has_settings ← exists_path src_settings;
  (if (has_settings : bool)
   then on_path src_settings (fun src => copy_to src target_settings) ;;
        on_path target_settings
          (fun p => fix_project_references p safe_project_name)
   else mret tt) ;;
  on_path project_root
    (subprocess_run [cp "python"; cp "manage.py"; cp "startapp";
                     safe_app_name] true) ;;
  on_path target_settings (fun p => add_app_to_settings p safe_app_name) ;;
  files ← on_path preset_path iterdir;
  for_each (copy_preset_path project_root) files ;;
  env_step preset_path project_root ;;
  (if install
   then on_path project_root
          (subprocess_run [cp "pip"; cp "install"; cp "-r";
                           cp "requirements.txt"] false)
   else mret tt) ;;
  echo (cp "Project '" ++ project_name ++ cp "' with app '" ++ app_name
        ++ cp "' is ready.").

End Program.

(** ** Notions used in the statements *)

(** A name that is one path component, and neither [.] nor [..]. *)
Definition plain_name (s : text) : bool :=
  negb (bool_decide (s = [])) && negb (bool_decide (s = cp "."))
  && negb (bool_decide (s = cp "..")) && negb (existsb (N.eqb SLASH) s).


(** The lines of a text, each followed by a single LF. *)
Definition render (lines : list text) : text :=
  concat (List.map (fun l => l ++ [LF]) lines).

Definition is_marker (line : text) : bool := contains MARKER line.
Definition is_closer (line : text) : bool := startswith CLOSER (strip line).

(** Number of positions of [s] at which [p] occurs. *)
Fixpoint occurrences (p s : text) : nat :=
  (if startswith p s then 1 else 0)%nat +
  match s with
  | [] => 0%nat
  | _ :: s' => occurrences p s'
  end.

(** The two line separators in use. *)
Definition valid_linesep (sep : text) : Prop := sep = [LF] \/ sep = [CR; LF].

Definition EQUALS : N := 61.

(** The lazy [.*?] and the closing quote: up to the first quote, with
    no LF before it. *)
Fixpoint lazy_body (s : text) : option text :=
  match s with
  | [] => None
  | c :: r =>
      if is_quote c then Some r
      else if dot c then lazy_body r else None
  end.

(** After the equals sign: white space, the opening quote, the rest. *)
Definition after_equals (s : text) : option text :=
  match lstrip s with
  | c :: r => if is_quote c then lazy_body r else None
  | [] => None
  end.

(** After the name: white space, the equals sign, the rest. *)
Definition after_name (s : text) : option text :=
  match lstrip s with
  | c :: r => if c =? EQUALS then after_equals r else None
  | [] => None
  end.

(** The assignment pattern read from left to right, without
    backtracking. *)
Definition parse_assignment (name s : text) : option text :=
  if startswith name s then after_name (drop (length name) s) else None.

(** No quote and no LF: what the lazy [.*?] runs over. *)
Definition clean (v : text) : bool :=
  forallb (fun c => negb (is_quote c) && dot c) v.

(** What a safe project name must not hold for the replacement to be
    read back as one assignment: quotes, LF, backslash. *)
Definition name_ok (name : text) : bool :=
  forallb (fun c => negb (is_quote c) && dot c && negb (c =? BACKSLASH))
    name.

(** The part of [s] in front of [rest]. *)
Definition matched (s rest : text) : text :=
  take (length s - length rest) s.

(** The match found at the head of [s], if any, holds no LF. *)
Definition single_line (name s : text) : bool :=
  match parse_assignment name s with
  | Some rest => forallb dot (matched s rest)
  | None => true
  end.

(** [f] holds of the text and of every text left after dropping
    characters from its front. *)
Fixpoint for_all_tails (f : text -> bool) (s : text) : bool :=
  f s && match s with
         | [] => true
         | _ :: s' => for_all_tails f s'
         end.

(** No match of the assignment pattern, wherever it starts in the text,
    runs over a line break. *)
Definition single_line_matches (name s : text) : bool :=
  for_all_tails (single_line name) s.

(** The same, said with the matcher: whatever part [s] of the text the
    pattern is tried on, the match it finds there holds no LF. *)
Definition matches_on_one_line (name t : text) : Prop :=
  forall pre s rest,
    t = pre ++ s ->
    match_here (assignment_pattern name) s = Some rest ->
    forallb dot (matched s rest) = true.

Definition open_after_equals (s : text) : bool :=
  match lstrip s with
  | c :: r => is_quote c && clean r
  | [] => false
  end.

Definition open_after_name (s : text) : bool :=
  match lstrip s with
  | c :: r => (c =? EQUALS) && open_after_equals r
  | [] => false
  end.

(** [g] is the beginning of an assignment, cut inside the quoted
    value. *)
Definition parse_open (name g : text) : bool :=
  startswith name g && open_after_name (drop (length name) g).

Definition inert (c : N) : bool :=
  negb (is_space c) && negb (is_quote c) && negb (c =? EQUALS).

Definition continue_with (z : text) (decided : option text) (open : bool)
  : option text :=
  match decided with
  | Some r => Some (r ++ z)
  | None => if open then lazy_body z else None
  end.

Definition keyword (kw : text) : Prop :=
  kw = ROOT_URLCONF \/ kw = WSGI_APPLICATION.

(** No match attempt that starts inside [h], followed by [x],
    succeeds. *)
Fixpoint no_match_inside (kw h x : text) : Prop :=
  match h with
  | [] => True
  | _ :: h' => parse_assignment kw (h ++ x) = None /\ no_match_inside kw h' x
  end.

(** [name] and [s] differ at a position both have. *)
Fixpoint mismatch (name s : text) : bool :=
  match name, s with
  | a :: name', b :: s' => negb (a =? b) || mismatch name' s'
  | _, _ => false
  end.

Fixpoint all_tails_mismatch (name h : text) : bool :=
  match h with
  | [] => true
  | _ :: h' => mismatch name h && all_tails_mismatch name h'
  end.

Definition quote_free (s : text) : bool :=
  forallb (fun c => negb (is_quote c)) s.

Definition DOT : N := 46.

(** The match found at the head of [u], if any, is the replacement
    itself. *)
Definition canonical (kw repl u : text) : Prop :=
  forall rest, parse_assignment kw u = Some rest -> u = repl ++ rest.

(** Every match in [u], wherever it starts, is the replacement. *)
Fixpoint all_canonical (kw repl u : text) : Prop :=
  canonical kw repl u /\
  match u with
  | [] => True
  | _ :: u' => all_canonical kw repl u'
  end.

(** [pre] is empty or ends with LF: what follows it starts a line. *)
Definition ends_line (pre : text) : Prop := pre = [] \/ last pre = Some LF.

(** The text [ROOT_URLCONF = "<value>"]. *)
Definition urlconf_assignment (value : text) : text :=
  ROOT_URLCONF ++ cp " = " ++ [34] ++ value ++ [34].

(** Assignments of [ROOT_URLCONF], one per line. *)
Definition urlconf_lines (values : list text) : text :=
  concat (List.map (fun v => urlconf_assignment v ++ [LF]) values).




(** ** Concrete inputs *)

(** An environment for concrete runs: a POSIX platform on which every
    external program returns 0 and touches nothing. *)
Definition example_env : Environment := {|
  os_linesep := [LF];
  PRESETS_DIR := [cp "presets"];
  cwd := [cp "home"];
  run_process := fun _ _ m => Some (0%Z, m);
  get_random_secret_key :=
    cp "abcdefghijklmnopqrstuvwxyz0123456789!@#$%^&*(-_=+)"
|}.

(** A world whose target directory [home/blog] already holds a file. *)
Definition occupied_world : world :=
  World (<[ [cp "home"; cp "blog"; cp "notes.txt"] := File (cp "x") ]>
         (<[ [cp "home"; cp "blog"] := Dir ]>
          (<[ [cp "home"] := Dir ]> ∅))) [].

(** A settings text with two registration blocks. *)
Definition two_blocks : text :=
  cp "INSTALLED_APPS = [" ++ [LF] ++ cp "]" ++ [LF]
  ++ cp "INSTALLED_APPS += [" ++ [LF] ++ cp "]" ++ [LF].

Definition sample_settings : text :=
  cp "DEBUG = True" ++ [LF] ++ cp "INSTALLED_APPS = [" ++ [LF]
  ++ cp "    'django.contrib.admin'," ++ [LF] ++ cp "]" ++ [LF]
  ++ cp "USE_TZ = True".

(** A world with a settings file in which the name [blog] occurs only
    inside another identifier, outside the registration block. *)
Definition blogger_world : world :=
  World (<[ [cp "settings.py"] :=
              File (cp "AUTHOR = 'blogger'" ++ [CR; LF]
                    ++ cp "INSTALLED_APPS = [" ++ [CR; LF] ++ cp "]") ]>
         (<[ [] := Dir ]> ∅)) [].

(** A settings file without the marker, with CR LF line endings and no
    line ending after the last line. *)
Definition plain_raw : text :=
  cp "DEBUG = True" ++ [CR; LF] ++ cp "USE_TZ = True".

Definition plain_world : world :=
  World (<[ [cp "settings.py"] := File plain_raw ]> (<[ [] := Dir ]> ∅)) [].

(** A settings file with CR LF line endings, a form feed inside its
    second line, and a final line ending. *)
Definition paged_raw : text :=
  cp "DEBUG = True" ++ [CR; LF] ++ cp "# next" ++ [12] ++ cp "page"
  ++ [CR; LF] ++ cp "USE_TZ = True" ++ [CR; LF].

Definition paged_world : world :=
  World (<[ [cp "settings.py"] := File paged_raw ]> (<[ [] := Dir ]> ∅)) [].

(** A platform whose line separator is CR LF. *)
Definition crlf_env : Environment := {|
  os_linesep := [CR; LF];
  PRESETS_DIR := [cp "presets"];
  cwd := [cp "home"];
  run_process := fun _ _ m => Some (0%Z, m);
  get_random_secret_key :=
    cp "abcdefghijklmnopqrstuvwxyz0123456789!@#$%^&*(-_=+)"
|}.

(** A settings file with CR LF line endings throughout. *)
Definition crlf_raw : text :=
  cp "DEBUG = True" ++ [CR; LF] ++ cp "USE_TZ = True" ++ [CR; LF].

Definition crlf_world : world :=
  World (<[ [cp "settings.py"] := File crlf_raw ]> (<[ [] := Dir ]> ∅)) [].

(** An empty settings file. *)
Definition empty_file_world : world :=
  World (<[ [cp "settings.py"] := File [] ]> (<[ [] := Dir ]> ∅)) [].

Definition settings_world : world :=
  World (<[ [cp "settings.py"] := File sample_settings ]>
         (<[ [] := Dir ]> ∅)) [].

(** An assignment whose quoted value is not closed on its line and
    holds the name again, the equals sign following on the next
    line. *)
Definition broken_assignment : text :=
  cp "ROOT_URLCONF = " ++ [34] ++ cp "abcROOT_URLCONF" ++ [LF]
  ++ cp "= " ++ [34] ++ cp "x" ++ [34].

Definition old_settings : text :=
  cp "ROOT_URLCONF = 'old.urls'" ++ [LF]
  ++ cp "WSGI_APPLICATION = 'old.wsgi.application'" ++ [LF].

(** A line of a settings module in which the routing-config assignment
    comes after a string that ends in the other name and an equals
    sign. *)
Definition swallowed_assignment : text :=
  cp "X = [" ++ [34] ++ cp "WSGI_APPLICATION = " ++ [34] ++ cp ", 1]; "
  ++ urlconf_assignment (cp "old.urls").

(** Two assignments of the same name. *)
Definition two_urlconfs : text :=
  urlconf_lines [cp "a.urls"; cp "b.urls"].


(** ** Further notions and inputs *)

Definition HYPHEN : N := 45.

(** A settings text whose registration list is opened and closed on
    one line. *)
Definition one_line_list : text :=
  cp "DEBUG = True" ++ [LF] ++ cp "INSTALLED_APPS = ['django.contrib.admin']"
  ++ [LF].


(** The lines, each followed by LF, with [entry] in front of the
    lines that are flagged. *)
Definition with_entries (entry : text) (flags : list bool)
  (lines : list text) : text :=
  concat (zip_with (fun (b : bool) (l : text) =>
                      (if b then entry else []) ++ l ++ [LF])
                   flags lines).

(** [m] never ends in [SystemExit]. *)
Definition never_exits {A : Type} (m : M A) : Prop :=
  forall w c w', m w <> SystemExit c w'.

(** An environment in which every external program returns 2 and
    touches nothing. *)
Definition failing_env : Environment := {|
  os_linesep := [LF];
  PRESETS_DIR := [cp "presets"];
  cwd := [cp "home"];
  run_process := fun _ _ m => Some (2%Z, m);
  get_random_secret_key :=
    cp "abcdefghijklmnopqrstuvwxyz0123456789!@#$%^&*(-_=+)"
|}.

(** A world with the preset [base] and nothing yet under [home]. *)
Definition fresh_world : world :=
  World (<[ [cp "presets"; cp "base"] := Dir ]>
         (<[ [cp "presets"] := Dir ]>
          (<[ [cp "home"] := Dir ]> (<[ [] := Dir ]> ∅)))) [].

(** A world with the preset [base] in which the target directory
    [home/blog] already holds a file. *)
Definition crowded_world : world :=
  World (<[ [cp "home"; cp "blog"; cp "notes.txt"] := File (cp "x") ]>
         (<[ [cp "home"; cp "blog"] := Dir ]>
          (fs fresh_world))) [].

(** [m] echoes nothing when it returns. *)
Definition quiet {A : Type} (m : M A) : Prop :=
  forall w a w', m w = Ok a w' -> stdout w' = stdout w.

(** When [m] returns, the last thing echoed is [msg], and nothing else
    has been echoed. *)
Definition echoes_last {A : Type} (msg : text) (m : M A) : Prop :=
  forall w a w', m w = Ok a w' -> stdout w' = stdout w ++ [msg].

(** An environment whose project generator writes a settings module
    into the package directory, whose installer returns 1 and whose
    other programs return 0, none touching anything else. *)
Definition generator_env : Environment := {|
  os_linesep := [LF];
  PRESETS_DIR := [cp "presets"];
  cwd := [cp "home"];
  run_process := fun argv dir m =>
    match argv with
    | prog :: _ :: name :: _ =>
        if bool_decide (prog = cp "django-admin")
        then Some (0%Z,
                   <[ dir ++ [name; cp "settings.py"] := File sample_settings ]>
                     (<[ dir ++ [name] := Dir ]> m))
        else if bool_decide (prog = cp "pip") then Some (1%Z, m)
        else Some (0%Z, m)
    | _ => None
    end;
  get_random_secret_key :=
    cp "abcdefghijklmnopqrstuvwxyz0123456789!@#$%^&*(-_=+)"
|}.

(** An assignment of [kw], however spaced and quoted:
    [kw ws1 = ws2 q1 value q2]. *)
Definition assignment (kw ws1 ws2 : text) (q1 : N) (value : text) (q2 : N)
  : text :=
  kw ++ ws1 ++ EQUALS :: ws2 ++ q1 :: value ++ [q2].

(** A preset with a settings module, and a generated package that has
    a settings module of its own. *)
Definition overlay_world : world :=
  World (<[ [cp "presets"; cp "base"; cp "settings.py"]
              := File old_settings ]>
         (<[ [cp "home"; cp "blog"; cp "blog"; cp "settings.py"]
               := File sample_settings ]>
          (<[ [cp "home"; cp "blog"; cp "blog"] := Dir ]> ∅))) [].

(** * Properties *)

(** ** Paths *)

Lemma resolve_from_app (m : gmap path node) (p1 p2 cur : path) :
  resolve_from m cur (p1 ++ p2)
  = match resolve_from m cur p1 with
    | Found q => resolve_from m q p2
    | Missing => Missing
    | Blocked => Blocked
    end.
Proof.
  revert cur. induction p1 as [|c p1 IH]; intros cur; [reflexivity|].
  cbn [app resolve_from].
  destruct (if bool_decide (cur = []) then Some Dir else m !! cur)
    as [[x|]|]; [reflexivity | apply IH | reflexivity].
Qed.

(** A walk that got somewhere gets there again when an entry is put
    where no directory was. *)
Lemma resolve_from_insert (m : gmap path node) (r : path) (x : node)
  (p cur q : path) :
  m !! r <> Some Dir ->
  resolve_from m cur p = Found q ->
  resolve_from (<[r := x]> m) cur p = Found q.
Proof.
  intros Hr. revert cur. induction p as [|c p IH]; intros cur Hq;
    [exact Hq|].
  cbn [resolve_from] in *.
  destruct (bool_decide (cur = [])) eqn:Hroot; [apply IH, Hq|].
  destruct (m !! cur) as [[y|]|] eqn:Hcur; try discriminate.
  rewrite lookup_insert_ne by congruence. rewrite Hcur. apply IH, Hq.
Qed.

(** One more name at the end of a path that leads to a directory. *)
Lemma resolve_child (m : gmap path node) (p q : path) (name : text) :
  resolve m p = Found q -> m !! q = Some Dir -> name <> cp ".." ->
  resolve m (p ++ [name]) = Found (q ++ [name]).
Proof.
  intros Hq Hdir Hname. unfold resolve in *.
  rewrite resolve_from_app, Hq. cbn [resolve_from].
  rewrite Hdir, (bool_decide_eq_false_2 _ Hname).
  destruct (bool_decide (q = [])); reflexivity.
Qed.

(** Without [..] a walk ends, if it ends, at the place that the
    components spell. *)
Lemma resolve_from_plain (m : gmap path node) (p cur q : path) :
  ~ In (cp "..") p ->
  resolve_from m cur p = Found q -> q = cur ++ p.
Proof.
  revert cur. induction p as [|c p IH]; intros cur Hp Hq.
  - injection Hq as <-. rewrite app_nil_r. reflexivity.
  - cbn [resolve_from] in Hq.
    destruct (if bool_decide (cur = []) then Some Dir else m !! cur)
      as [[x|]|]; try discriminate.
    rewrite bool_decide_eq_false_2 in Hq
      by (intros ->; apply Hp; left; reflexivity).
    rewrite (IH _ (fun Hin => Hp (or_intror Hin)) Hq), <- app_assoc.
    reflexivity.
Qed.

Lemma split_slash_plain (s : text) :
  existsb (N.eqb SLASH) s = false ->
  forall cur, split_slash_from cur s = [cur ++ s].
Proof.
  induction s as [|c s IH]; intros Hs cur.
  - simpl. rewrite app_nil_r. reflexivity.
  - cbn [existsb] in Hs. apply orb_false_iff in Hs. destruct Hs as [Hc Hs].
    cbn [split_slash_from]. rewrite (N.eqb_sym c SLASH), Hc.
    rewrite (IH Hs), <- app_assoc. reflexivity.
Qed.

(** A name that is one component: joining it appends it. *)
Lemma joinpath_plain (base : path) (name : text) :
  plain_name name = true -> joinpath base name = base ++ [name].
Proof.
  unfold plain_name. intros Hn.
  apply andb_true_iff in Hn. destruct Hn as [Hn Hslash].
  apply andb_true_iff in Hn. destruct Hn as [Hn _].
  apply andb_true_iff in Hn. destruct Hn as [Hne Hdot].
  apply negb_true_iff in Hslash.
  unfold joinpath, parts. rewrite (split_slash_plain _ Hslash). cbn [app].
  assert (Hs : startswith [SLASH] name = false).
  { destruct name as [|c r]; [reflexivity|].
    cbn [existsb] in Hslash. apply orb_false_iff in Hslash.
    cbn [startswith]. rewrite (proj1 Hslash). reflexivity. }
  rewrite Hs. cbn [List.filter]. rewrite Hne, Hdot. reflexivity.
Qed.

(** Joined to a directory that is reached, such a name leads to the
    entry of that name. *)
Lemma resolve_joinpath_plain (m : gmap path node) (base q : path)
  (name : text) :
  plain_name name = true ->
  resolve m base = Found q -> m !! q = Some Dir ->
  resolve m (joinpath base name) = Found (q ++ [name]).
Proof.
  intros Hn Hq Hdir. rewrite (joinpath_plain _ _ Hn).
  apply resolve_child; [exact Hq | exact Hdir|].
  intros ->. discriminate Hn.
Qed.

(** For such a name, nothing under [base] by that name means nothing
    at the end of the walk. *)
Lemma lookup_path_plain (m : gmap path node) (base : path) (name : text) :
  plain_name name = true -> ~ In (cp "..") base ->
  m !! (base ++ [name]) = None ->
  lookup_path m (joinpath base name) = None.
Proof.
  intros Hn Hbase Hnone. rewrite (joinpath_plain _ _ Hn).
  unfold lookup_path, resolve.
  destruct (resolve_from m [] (base ++ [name])) as [q| |] eqn:Hq;
    [|reflexivity..].
  apply resolve_from_plain in Hq; [subst q; exact Hnone|].
  intros Hin. apply in_app_or in Hin. destruct Hin as [Hin | [Hin | []]];
    [exact (Hbase Hin)|].
  subst name. discriminate.
Qed.

(** ** The project command: failures before anything is touched *)

Section ProjectFailures.
Context `{Environment}.

Lemma children_nonempty (d : path) (name : text) (m : gmap path node) :
  is_Some (m !! (d ++ [name])) -> children d m <> [].
Proof.
  intros [x Hx] Hnil.
  assert (Hin : In (d ++ [name]) (children d m)).
  { unfold children. apply filter_In. split.
    - apply in_map_iff. exists (d ++ [name], x). split; [reflexivity|].
      apply list_elem_of_In, elem_of_map_to_list. exact Hx.
    - unfold is_child, parent. apply bool_decide_eq_true. split.
      + destruct d; discriminate.
      + rewrite length_app. simpl.
        replace (length d + 1 - 1)%nat with (length d) by lia.
        apply take_app_length. }
  rewrite Hnil in Hin. destruct Hin.
Qed.

Lemma project_without_preset
  (project_name app_name preset : text) (install : bool) (w : world) :
  lookup_path (fs w) (joinpath PRESETS_DIR preset) = None ->
  project project_name app_name preset install w
  = SystemExit 1
      (World (fs w)
         (stdout w
          ++ [cp "Starting Django project '" ++ project_name
              ++ cp "' with preset '" ++ preset ++ cp "'";
              cp "Preset '" ++ preset ++ cp "' not found."])).
Proof.
  intros Hnone.
  unfold project, mbind, M_bind, echo, exists_path, sys_exit.
  cbn [fs stdout]. rewrite Hnone.
  rewrite bool_decide_eq_false_2 by (intros [x Hx]; discriminate).
  cbn [negb fs stdout]. rewrite <- app_assoc. reflexivity.
Qed.

(** C7, as stated, fails: the name is joined to the presets root as
    [pathlib] joins it, so that [.] names the presets root itself.  No
    entry of that name exists under the presets root, and the command
    finds the path, creates the target directory and returns. *)
Lemma project_preset_dot_runs :
  fs fresh_world !! (@PRESETS_DIR generator_env ++ [cp "."]) = None
  /\ ~ In (@PRESETS_DIR generator_env ++ [cp "."])
         (children (@PRESETS_DIR generator_env) (fs fresh_world))
  /\ exit_status (@project generator_env (cp "site") (cp "blog") (cp ".")
                    false fresh_world) = 0%Z
  /\ fs fresh_world !! [cp "home"; cp "site"] = None
  /\ fs (final_world (@project generator_env (cp "site") (cp "blog")
                        (cp ".") false fresh_world))
       !! [cp "home"; cp "site"] = Some Dir.
Proof.
  split; [vm_compute; reflexivity|].
  split; [vm_compute; intros [E | []]; discriminate|].
  repeat split; vm_compute; reflexivity.
Qed.

(** C7, amended.  When nothing is found at the path that joining the
    preset name to the presets root gives, the command exits with
    status 1 after its two messages, and the file system is the one it
    started from: in particular no target directory has been created.
    For a name that is one path component other than [.] and [..]
    (the presets root being written without [..]) this is the case
    when no entry of that name exists under the presets root. *)
Theorem project_preset_not_found
  (project_name app_name preset : text) (install : bool) (w : world) :
  lookup_path (fs w) (joinpath PRESETS_DIR preset) = None
  \/ (plain_name preset = true /\ ~ In (cp "..") PRESETS_DIR
      /\ fs w !! (PRESETS_DIR ++ [preset]) = None) ->
  let o := project project_name app_name preset install w in
  o = SystemExit 1
        (World (fs w)
           (stdout w
            ++ [cp "Starting Django project '" ++ project_name
                ++ cp "' with preset '" ++ preset ++ cp "'";
                cp "Preset '" ++ preset ++ cp "' not found."]))
  /\ exit_status o = 1%Z /\ exit_status o <> 0%Z
  /\ fs (final_world o) = fs w
  /\ lookup_path (fs (final_world o)) (joinpath cwd project_name)
     = lookup_path (fs w) (joinpath cwd project_name).
Proof.
  intros Hpreset o.
  assert (Hnone : lookup_path (fs w) (joinpath PRESETS_DIR preset) = None).
  { destruct Hpreset as [Hnone | (Hn & Hbase & Hnone)]; [exact Hnone|].
    apply lookup_path_plain; assumption. }
  subst o. rewrite (project_without_preset _ _ _ _ _ Hnone).
  repeat split; discriminate.
Qed.

(** C6.  When the target directory exists and has at least one entry,
    the command exits with a non-zero status, and the file system is
    the one it started from: the directory is unchanged and nothing
    else has been created.  [root]: the place that the path of the
    target directory leads to. *)
Theorem project_target_not_empty
  (project_name app_name preset entry : text) (install : bool)
  (w : world) (root : path) :
  resolve (fs w) (joinpath cwd project_name) = Found root ->
  fs w !! root = Some Dir ->
  is_Some (fs w !! (root ++ [entry])) ->
  let o := project project_name app_name preset install w in
  exit_status o = 1%Z /\ exit_status o <> 0%Z
  /\ fs (final_world o) = fs w.
Proof.
  intros Hroot Hdir Hentry o. subst o.
  assert (Hch : children root (fs w) <> [])
    by (apply (children_nonempty _ entry), Hentry).
  unfold project, mbind, M_bind, echo, exists_path, sys_exit, on_path,
    iterdir, mret, M_ret, lookup_path.
  cbn [fs stdout].
  destruct (bool_decide (is_Some _)); cbn [negb fs stdout].
  - rewrite Hroot, Hdir.
    rewrite bool_decide_eq_true_2 by eauto. cbn [fs].
    rewrite Hroot, Hdir.
    rewrite (bool_decide_eq_false_2 _ Hch). cbn [negb].
    repeat split; discriminate.
  - repeat split; discriminate.
Qed.

End ProjectFailures.

Lemma project_preset_not_found_witness :
  fs fresh_world !! (@PRESETS_DIR example_env ++ [cp "fancy"]) = None
  /\ @project example_env (cp "site") (cp "app") (cp "fancy") false
       fresh_world
     = SystemExit 1
         (World (fs fresh_world)
            (stdout fresh_world
             ++ [cp "Starting Django project '" ++ cp "site"
                 ++ cp "' with preset '" ++ cp "fancy" ++ cp "'";
                 cp "Preset '" ++ cp "fancy" ++ cp "' not found."])).
Proof.
  split; [vm_compute; reflexivity|].
  apply (@project_preset_not_found example_env
           (cp "site") (cp "app") (cp "fancy") false fresh_world).
  right. split; [reflexivity|].
  split; [intros [E | []]; discriminate | vm_compute; reflexivity].
Defined.

(** The preset is there, the target directory holds a file: the run
    gets to the directory check and ends there. *)
Lemma project_target_not_empty_witness :
  @project example_env (cp "blog") (cp "app") (cp "base") true crowded_world
  = SystemExit 1
      (World (fs crowded_world)
         [cp "Starting Django project 'blog' with preset 'base'";
          cp "Directory 'blog' already exists and is not empty."])
  /\ fs (final_world
           (@project example_env (cp "blog") (cp "app") (cp "base") true
              crowded_world)) = fs crowded_world.
Proof.
  split; [vm_compute; reflexivity|].
  apply (@project_target_not_empty example_env
           (cp "blog") (cp "app") (cp "base") (cp "notes.txt") true
           crowded_world [cp "home"; cp "blog"]).
  - vm_compute; reflexivity.
  - vm_compute; reflexivity.
  - exists (File (cp "x")). vm_compute; reflexivity.
Defined.

(** ** The app registrar *)

Lemma startswith_app (p s : text) : startswith p (p ++ s) = true.
Proof.
  induction p as [|a p IH]; simpl; [reflexivity|].
  rewrite N.eqb_refl. exact IH.
Qed.

Lemma contains_app_r (p a b : text) :
  contains p b = true -> contains p (a ++ b) = true.
Proof.
  intros Hb. induction a as [|x a IH]; simpl; [exact Hb|].
  rewrite IH. apply orb_true_r.
Qed.

Lemma contains_middle (p a b : text) : contains p (a ++ p ++ b) = true.
Proof.
  apply contains_app_r. destruct p; simpl; [destruct b; reflexivity|].
  rewrite N.eqb_refl, startswith_app. reflexivity.
Qed.

Lemma contains_app_l (p a b : text) :
  contains p a = true -> contains p (a ++ b) = true.
Proof.
  induction a as [|x a IH]; simpl.
  - destruct p; [destruct b; reflexivity | discriminate].
  - intros Hc. apply orb_true_iff in Hc. apply orb_true_iff.
    destruct Hc as [Hs|Hc]; [left | right; auto].
    clear IH. revert x a Hs.
    induction p as [|y p IHp]; intros x a Hs; [reflexivity|].
    simpl in *. apply andb_true_iff in Hs. destruct Hs as [-> Hs].
    simpl. destruct p; [reflexivity|].
    destruct a as [|z a]; [discriminate|]. apply IHp. exact Hs.
Qed.

Lemma render_app (l1 l2 : list text) :
  render (l1 ++ l2) = render l1 ++ render l2.
Proof. unfold render. rewrite List.map_app. apply concat_app. Qed.

Lemma render_cons (l : text) (ls : list text) :
  render (l :: ls) = l ++ LF :: render ls.
Proof. unfold render. simpl. rewrite <- app_assoc. reflexivity. Qed.

Lemma add_app_step_eq (app_name : text) (acc : text) (b : bool) (l : text) :
  add_app_step app_name (acc, b) l
  = (acc ++ (if (is_marker l || b) && is_closer l
             then app_entry app_name else []) ++ l ++ [LF],
     (is_marker l || b) && negb (is_closer l)).
Proof.
  unfold add_app_step, is_marker, is_closer.
  destruct (contains MARKER l), b, (startswith CLOSER (strip l));
    cbn [orb andb negb]; rewrite <- ?app_assoc; reflexivity.
Qed.

(** The loop only appends to what has been collected. *)
Lemma add_app_loop_acc (app_name : text) (lines : list text) :
  forall (acc : text) (b : bool),
    add_app_loop app_name lines (acc, b)
    = (acc ++ fst (add_app_loop app_name lines ([], b)),
       snd (add_app_loop app_name lines ([], b))).
Proof.
  unfold add_app_loop.
  induction lines as [|l ls IH]; intros acc b.
  - simpl. rewrite app_nil_r. reflexivity.
  - cbn [fold_left]. rewrite !add_app_step_eq.
    rewrite IH. symmetry. rewrite IH. simpl.
    rewrite <- !app_assoc. reflexivity.
Qed.

Lemma add_app_loop_cons (app_name l : text) (ls : list text) (b : bool) :
  add_app_loop app_name (l :: ls) ([], b)
  = ((if (is_marker l || b) && is_closer l then app_entry app_name else [])
     ++ l ++ LF :: fst (add_app_loop app_name ls
                          ([], (is_marker l || b) && negb (is_closer l))),
     snd (add_app_loop app_name ls
            ([], (is_marker l || b) && negb (is_closer l)))).
Proof.
  unfold add_app_loop at 1. cbn [fold_left]. rewrite add_app_step_eq.
  etransitivity; [apply (add_app_loop_acc app_name ls)|].
  cbn [app]. rewrite <- !app_assoc. reflexivity.
Qed.

(** Outside the block and with no marker line ahead, the lines are
    copied. *)
Lemma add_app_loop_no_marker (app_name : text) (lines : list text) :
  existsb is_marker lines = false ->
  fst (add_app_loop app_name lines ([], false)) = render lines.
Proof.
  induction lines as [|l ls IH]; intros Hm; [reflexivity|].
  simpl in Hm. apply orb_false_iff in Hm. destruct Hm as [Hl Hls].
  rewrite add_app_loop_cons, Hl. simpl. rewrite IH by exact Hls.
  rewrite render_cons. reflexivity.
Qed.

(** With no closer line ahead, the lines are copied. *)
Lemma add_app_loop_no_closer (app_name : text) (lines : list text) :
  forall b : bool,
    existsb is_closer lines = false ->
    add_app_loop app_name lines ([], b)
    = (render lines, b || existsb is_marker lines).
Proof.
  induction lines as [|l ls IH]; intros b Hc.
  - simpl. rewrite orb_false_r. reflexivity.
  - simpl in Hc. apply orb_false_iff in Hc. destruct Hc as [Hl Hls].
    rewrite add_app_loop_cons, Hl, IH by exact Hls. simpl.
    rewrite render_cons, andb_false_r, andb_true_r. simpl. f_equal.
    destruct (is_marker l), b; reflexivity.
Qed.

Lemma add_app_loop_app (app_name : text) (x y : list text) (b : bool) :
  add_app_loop app_name (x ++ y) ([], b)
  = (fst (add_app_loop app_name x ([], b))
     ++ fst (add_app_loop app_name y
               ([], snd (add_app_loop app_name x ([], b)))),
     snd (add_app_loop app_name y
            ([], snd (add_app_loop app_name x ([], b))))).
Proof.
  unfold add_app_loop at 1. rewrite fold_left_app.
  fold (add_app_loop app_name x ([], b)).
  rewrite (surjective_pairing (add_app_loop app_name x ([], b))) at 1.
  apply (add_app_loop_acc app_name y).
Qed.

(** C1.  The failing input: a text in which a second line contains the
    marker after the first closer line.  The flag that the insertion
    has reset is set again by that line, and one run writes the entry
    twice: once before each of the two closer lines. *)
Lemma add_app_inserts_twice :
  contains (cp "blog") two_blocks = false
  /\ exists out : text,
       add_app_text two_blocks (cp "blog") = Some out
       /\ out = cp "INSTALLED_APPS = [" ++ [LF]
                ++ app_entry (cp "blog") ++ cp "]" ++ [LF]
                ++ cp "INSTALLED_APPS += [" ++ [LF]
                ++ app_entry (cp "blog") ++ cp "]" ++ [LF]
       /\ occurrences (app_entry (cp "blog")) out = 2%nat.
Proof.
  split; [vm_compute; reflexivity|].
  eexists. split; [vm_compute; reflexivity|].
  split; vm_compute; reflexivity.
Qed.

(** Up to the first insertion.  When the app name does not occur in
    the text, the lines are written back each followed by one LF, with
    the quoted app name immediately before the first closer line that
    is at or after the first marker line ([a]: the lines before the
    first marker line; [b]: the lines from it up to that closer line
    [c]).  Nothing is inserted before that point; after it the loop
    goes on from the outside-block state, and with no marker line left
    it only copies. *)
Theorem add_app_first_insertion
  (content app_name : text) (a b : list text) (c : text)
  (post : list text) :
  contains app_name content = false ->
  splitlines content = a ++ b ++ c :: post ->
  existsb is_marker a = false ->
  existsb is_closer b = false ->
  is_marker (hd c b) = true ->
  is_closer c = true ->
  add_app_text content app_name
  = Some (render (a ++ b) ++ app_entry app_name ++ c ++ LF
          :: fst (add_app_loop app_name post ([], false)))
  /\ (existsb is_marker post = false ->
      add_app_text content app_name
      = Some (render (a ++ b) ++ app_entry app_name ++ render (c :: post))).
Proof.
  intros Happ Hlines Ha Hb Hm Hc.
  assert (Hmain : add_app_text content app_name
    = Some (render (a ++ b) ++ app_entry app_name ++ c ++ LF
            :: fst (add_app_loop app_name post ([], false)))).
  { unfold add_app_text. rewrite Happ, Hlines. f_equal.
    rewrite add_app_loop_app. cbn [fst snd].
    rewrite add_app_loop_no_marker by exact Ha.
    assert (Hsa : snd (add_app_loop app_name a ([], false)) = false).
    { clear -Ha. induction a as [|l ls IH]; [reflexivity|].
      simpl in Ha. apply orb_false_iff in Ha. destruct Ha as [Hl Hls].
      rewrite add_app_loop_cons. cbn [snd]. rewrite Hl. simpl.
      apply IH. exact Hls. }
    rewrite Hsa, add_app_loop_app. cbn [fst snd].
    rewrite (add_app_loop_no_closer app_name b false Hb). cbn [fst snd].
    rewrite add_app_loop_cons. cbn [fst].
    assert (Hin : (is_marker c || (false || existsb is_marker b)) = true).
    { destruct b as [|m b']; simpl in *.
      - rewrite Hm. reflexivity.
      - rewrite Hm. apply orb_true_r. }
    rewrite Hin, Hc. simpl.
    rewrite render_app, <- !app_assoc. reflexivity. }
  split; [exact Hmain|].
  intros Hpost. rewrite Hmain.
  rewrite add_app_loop_no_marker by exact Hpost.
  rewrite render_cons, <- ?app_assoc. reflexivity.
Qed.

Lemma add_app_first_insertion_witness :
  add_app_text sample_settings (cp "blog")
  = Some (render ([cp "DEBUG = True"]
                  ++ [cp "INSTALLED_APPS = [";
                      cp "    'django.contrib.admin',"])
          ++ app_entry (cp "blog")
          ++ render (cp "]" :: [cp "USE_TZ = True"])).
Proof.
  apply (add_app_first_insertion sample_settings (cp "blog")
           [cp "DEBUG = True"]
           [cp "INSTALLED_APPS = ["; cp "    'django.contrib.admin',"]
           (cp "]") [cp "USE_TZ = True"]);
    vm_compute; reflexivity.
Defined.

Section Registrar.
Context `{Environment}.

(** C8.  When the app name occurs anywhere in the settings text, the
    registrar returns without writing: the world, and with it the
    settings file, is the one it started from. *)
Theorem add_app_to_settings_already_present
  (settings_path : path) (app_name raw : text) (w : world) :
  fs w !! settings_path = Some (File raw) ->
  contains app_name (universal_newlines raw) = true ->
  add_app_to_settings settings_path app_name w = Ok tt w
  /\ fs (final_world (add_app_to_settings settings_path app_name w))
       !! settings_path = Some (File raw).
Proof.
  intros Hfile Hin.
  assert (Hrun : add_app_to_settings settings_path app_name w = Ok tt w).
  { unfold add_app_to_settings, mbind, M_bind, read_text.
    rewrite Hfile. unfold add_app_text. rewrite Hin. reflexivity. }
  rewrite Hrun. split; [reflexivity | exact Hfile].
Qed.

End Registrar.

Lemma add_app_to_settings_already_present_witness :
  @add_app_to_settings example_env [cp "settings.py"] (cp "blog")
    blogger_world = Ok tt blogger_world.
Proof.
  apply (@add_app_to_settings_already_present example_env
           [cp "settings.py"] (cp "blog")
           (cp "AUTHOR = 'blogger'" ++ [CR; LF]
            ++ cp "INSTALLED_APPS = [" ++ [CR; LF] ++ cp "]")
           blogger_world);
    vm_compute; reflexivity.
Defined.

(** ** Lines and line endings *)

Lemma universal_newlines_from_no_CR (s : text) :
  forall b : bool, ~ In CR (universal_newlines_from b s).
Proof.
  induction s as [|c r IH]; intros b Hin; [destruct Hin|].
  simpl in Hin. destruct (b && (c =? LF)).
  - exact (IH _ Hin).
  - destruct (c =? CR) eqn:Hc.
    + destruct Hin as [Hin|Hin]; [discriminate | exact (IH _ Hin)].
    + destruct Hin as [Hin|Hin]; [|exact (IH _ Hin)].
      subst c. discriminate.
Qed.

Lemma universal_newlines_no_CR_id (s : text) :
  ~ In CR s -> universal_newlines s = s.
Proof.
  unfold universal_newlines. induction s as [|c r IH]; intros Hs;
    [reflexivity|].
  simpl. destruct (c =? CR) eqn:Hc.
  - apply N.eqb_eq in Hc. subst c. exfalso. apply Hs. left. reflexivity.
  - f_equal. apply IH. intros Hin. apply Hs. right. exact Hin.
Qed.

(** What is written and read back: the text itself, when it has no CR. *)
Lemma read_back (sep s : text) :
  valid_linesep sep -> ~ In CR s ->
  universal_newlines (write_newlines sep s) = s.
Proof.
  intros Hsep. unfold universal_newlines.
  induction s as [|c r IH]; intros Hs; [reflexivity|].
  assert (Hr : ~ In CR r) by (intros Hin; apply Hs; right; exact Hin).
  assert (Hc : (c =? CR) = false).
  { apply N.eqb_neq. intros ->. apply Hs. left. reflexivity. }
  simpl. destruct (c =? LF) eqn:Hlf.
  - apply N.eqb_eq in Hlf. subst c.
    destruct Hsep as [-> | ->]; simpl; rewrite (IH Hr); reflexivity.
  - simpl. rewrite Hc, (IH Hr). reflexivity.
Qed.

Lemma splitlines_from_chars (s : text) :
  forall (b : bool) (l : text) (c : N),
    In l (splitlines_from b s) -> In c l ->
    is_linebreak c = false /\ In c s.
Proof.
  induction s as [|c0 r IH]; intros b l c Hl Hc; [destruct Hl|].
  simpl in Hl. destruct (b && (c0 =? LF)).
  - destruct (IH _ _ _ Hl Hc) as [? ?]. split; [assumption | right; assumption].
  - destruct (is_linebreak c0) eqn:Hbr.
    + destruct Hl as [<- | Hl]; [destruct Hc|].
      destruct (IH _ _ _ Hl Hc) as [? ?].
      split; [assumption | right; assumption].
    + destruct (splitlines_from false r) as [|l' ls] eqn:Hsp.
      * destruct Hl as [<- | []]. destruct Hc as [<- | []].
        split; [exact Hbr | left; reflexivity].
      * destruct Hl as [<- | Hl].
        -- destruct Hc as [<- | Hc]; [split; [exact Hbr | left; reflexivity]|].
           destruct (IH false l' c) as [? ?];
             [rewrite Hsp; left; reflexivity | exact Hc |].
           split; [assumption | right; assumption].
        -- destruct (IH false l c) as [? ?];
             [rewrite Hsp; right; exact Hl | exact Hc |].
           split; [assumption | right; assumption].
Qed.

Lemma splitlines_line (l rest : text) :
  (forall c, In c l -> is_linebreak c = false) ->
  splitlines (l ++ LF :: rest) = l :: splitlines rest.
Proof.
  unfold splitlines. induction l as [|c l IH]; intros Hl; [reflexivity|].
  simpl. rewrite (Hl c) by (left; reflexivity).
  rewrite IH by (intros x Hx; apply Hl; right; exact Hx). reflexivity.
Qed.

(** Lines without line boundaries survive rendering and splitting. *)
Lemma splitlines_render (lines : list text) :
  (forall l c, In l lines -> In c l -> is_linebreak c = false) ->
  splitlines (render lines) = lines.
Proof.
  induction lines as [|l ls IH]; intros Hls; [reflexivity|].
  rewrite render_cons, splitlines_line.
  - f_equal. apply IH. intros l' c Hl'. apply Hls. right. exact Hl'.
  - intros c. apply Hls. left. reflexivity.
Qed.

Lemma render_chars (lines : list text) (c : N) :
  In c (render lines) -> c = LF \/ exists l, In l lines /\ In c l.
Proof.
  induction lines as [|l ls IH]; intros Hin; [destruct Hin|].
  rewrite render_cons in Hin. apply in_app_or in Hin.
  destruct Hin as [Hin | [Hin | Hin]].
  - right. exists l. split; [left; reflexivity | exact Hin].
  - left. symmetry. exact Hin.
  - destruct (IH Hin) as [? | [l' [? ?]]]; [left; assumption|].
    right. exists l'. split; [right; assumption | assumption].
Qed.

Lemma write_newlines_posix (s : text) : write_newlines [LF] s = s.
Proof.
  induction s as [|c r IH]; [reflexivity|].
  simpl. rewrite IH. destruct (c =? LF) eqn:Hc; [|reflexivity].
  apply N.eqb_eq in Hc. subst c. reflexivity.
Qed.

Lemma write_newlines_app (sep x y : text) :
  write_newlines sep (x ++ y) = write_newlines sep x ++ write_newlines sep y.
Proof.
  induction x as [|c r IH]; [reflexivity|].
  simpl. rewrite IH. destruct (c =? LF); [|reflexivity].
  rewrite app_assoc. reflexivity.
Qed.

Lemma render_snoc (ls : list text) (l : text) :
  render (ls ++ [l]) = (render ls ++ l) ++ [LF].
Proof.
  rewrite render_app, render_cons. unfold render at 3. simpl.
  rewrite app_assoc. reflexivity.
Qed.

(** What is written for a non-empty list of lines ends with LF. *)
Lemma written_lines_end (sep : text) (lines : list text) :
  valid_linesep sep -> lines <> [] ->
  last (write_newlines sep (render lines)) = Some LF.
Proof.
  intros Hsep Hne.
  destruct (exists_last Hne) as [ls [l ->]].
  rewrite render_snoc, write_newlines_app. simpl.
  destruct Hsep as [-> | ->]; simpl.
  - apply last_snoc.
  - change [CR; LF] with ([CR] ++ [LF]). rewrite app_assoc. apply last_snoc.
Qed.

Lemma splitlines_nonempty (s : text) : s <> [] -> splitlines s <> [].
Proof.
  destruct s as [|c r]; [congruence|]. intros _. unfold splitlines. simpl.
  destruct (is_linebreak c); [discriminate|].
  destruct (splitlines_from false r); discriminate.
Qed.

Lemma universal_newlines_nonempty (s : text) :
  s <> [] -> universal_newlines s <> [].
Proof.
  destruct s as [|c r]; [congruence|]. intros _. unfold universal_newlines.
  simpl. destruct (c =? CR); discriminate.
Qed.

(** Rendered lines of a text that was read hold no CR. *)
Lemma render_read_no_CR (raw : text) :
  ~ In CR (render (splitlines (universal_newlines raw))).
Proof.
  intros Hin. apply render_chars in Hin.
  destruct Hin as [Hin | [l [Hl Hc]]]; [discriminate|].
  destruct (splitlines_from_chars _ _ _ _ Hl Hc) as [_ Hc'].
  exact (universal_newlines_from_no_CR _ _ Hc').
Qed.

Lemma contains_app_entry (app_name x y : text) :
  contains app_name (x ++ app_entry app_name ++ y) = true.
Proof.
  unfold app_entry. rewrite <- !app_assoc, (app_assoc x).
  apply contains_middle.
Qed.

(** Either the loop copies the lines, or what it produces contains the
    app name. *)
Lemma add_app_loop_copies_or_inserts (app_name : text) (lines : list text) :
  forall b : bool,
    fst (add_app_loop app_name lines ([], b)) = render lines
    \/ contains app_name (fst (add_app_loop app_name lines ([], b))) = true.
Proof.
  induction lines as [|l ls IH]; intros b; [left; reflexivity|].
  rewrite add_app_loop_cons. cbn [fst].
  destruct ((is_marker l || b) && is_closer l).
  - right. apply (contains_app_entry app_name []).
  - destruct (IH ((is_marker l || b) && negb (is_closer l))) as [-> | Hc].
    + left. rewrite render_cons. reflexivity.
    + right. cbn [app negb].
      change (l ++ LF :: ?t) with (l ++ [LF] ++ t).
      rewrite app_assoc. apply contains_app_r. exact Hc.
Qed.

Lemma app_entry_no_CR (app_name : text) :
  ~ In CR app_name -> ~ In CR (app_entry app_name).
Proof.
  intros Happ Hin. unfold app_entry in Hin.
  repeat (apply in_app_or in Hin; destruct Hin as [Hin | Hin]);
    try (apply Happ; exact Hin);
    vm_compute in Hin; intuition discriminate.
Qed.

Lemma add_app_loop_no_CR (app_name : text) (lines : list text) :
  ~ In CR app_name ->
  (forall l, In l lines -> ~ In CR l) ->
  forall b : bool, ~ In CR (fst (add_app_loop app_name lines ([], b))).
Proof.
  intros Happ. induction lines as [|l ls IH]; intros Hls b Hin;
    [destruct Hin|].
  rewrite add_app_loop_cons in Hin. cbn [fst] in Hin.
  apply in_app_or in Hin. destruct Hin as [Hin | Hin].
  - destruct ((is_marker l || b) && is_closer l); [|destruct Hin].
    exact (app_entry_no_CR _ Happ Hin).
  - apply in_app_or in Hin. destruct Hin as [Hin | [Hin | Hin]].
    + exact (Hls l (or_introl eq_refl) Hin).
    + discriminate.
    + apply (IH (fun l' Hl' => Hls l' (or_intror Hl')) _ Hin).
Qed.

(** On the text: what one application produces, a second application
    leaves alone (it returns early) or produces again. *)
Lemma add_app_text_twice (content app_name new : text) :
  add_app_text content app_name = Some new ->
  add_app_text new app_name = None \/ add_app_text new app_name = Some new.
Proof.
  unfold add_app_text. destruct (contains app_name content); [discriminate|].
  intros Hnew. injection Hnew as <-.
  set (lines := splitlines content).
  destruct (contains app_name (fst (add_app_loop app_name lines ([], false))))
    eqn:Hc; [left; reflexivity | right].
  destruct (add_app_loop_copies_or_inserts app_name lines false)
    as [Hcopy | Hins]; [|congruence].
  rewrite Hcopy at 1. rewrite splitlines_render; [reflexivity|].
  intros l c Hl Hin.
  destruct (splitlines_from_chars _ _ _ _ Hl Hin) as [Hb _]. exact Hb.
Qed.

Lemma parent_neq (p : path) (m : gmap path node) (c : text) :
  m !! p = Some (File c) -> m !! parent p = Some Dir -> parent p <> p.
Proof. intros Hp Hd Heq. rewrite Heq, Hp in Hd. discriminate. Qed.

Section RegistrarFiles.
Context `{Environment}.

Lemma add_app_to_settings_run
  (settings_path : path) (app_name raw : text) (w : world) :
  fs w !! settings_path = Some (File raw) ->
  add_app_to_settings settings_path app_name w
  = match add_app_text (universal_newlines raw) app_name with
    | None => Ok tt w
    | Some new_content =>
        store_file settings_path
          (write_newlines os_linesep new_content) w
    end.
Proof.
  intros Hfile. unfold add_app_to_settings, mbind, M_bind, read_text.
  rewrite Hfile.
  destruct (add_app_text (universal_newlines raw) app_name); reflexivity.
Qed.

(** C10, as stated, fails.  What is read has its line endings turned
    into LF and what is written has every LF turned into the line
    separator of the platform: where that is CR LF, a file with CR LF
    line endings comes out as it was.  And an empty file, which has no
    final newline, has no lines and is written back empty. *)
Lemma add_app_to_settings_no_marker_identical :
  In CR crlf_raw
  /\ contains (cp "blog") (universal_newlines crlf_raw) = false
  /\ existsb is_marker (splitlines (universal_newlines crlf_raw)) = false
  /\ @add_app_to_settings crlf_env [cp "settings.py"] (cp "blog") crlf_world
     = Ok tt (World (<[ [cp "settings.py"] := File crlf_raw ]>
                       (fs crlf_world)) [])
  /\ fs empty_file_world !! [cp "settings.py"] = Some (File [])
  /\ last ([] : text) <> Some LF
  /\ @add_app_to_settings example_env [cp "settings.py"] (cp "blog")
       empty_file_world
     = Ok tt (World (<[ [cp "settings.py"] := File [] ]>
                       (fs empty_file_world)) []).
Proof.
  split; [vm_compute; tauto|].
  repeat split; try (vm_compute; reflexivity). discriminate.
Qed.

(** C10, amended.  When the app name does not occur in the text and no
    line contains the marker, nothing is inserted, and the file is
    still rewritten: as the lines of the text, each followed by one
    line separator.  A non-empty file that does not end with LF is
    therefore changed, and so is, where the separator is LF, a file
    that holds a CR. *)
Theorem add_app_to_settings_no_marker_rewrites
  (settings_path : path) (app_name raw : text) (w : world) :
  fs w !! settings_path = Some (File raw) ->
  fs w !! parent settings_path = Some Dir ->
  contains app_name (universal_newlines raw) = false ->
  existsb is_marker (splitlines (universal_newlines raw)) = false ->
  let new_file :=
    write_newlines os_linesep
      (render (splitlines (universal_newlines raw))) in
  add_app_to_settings settings_path app_name w
  = Ok tt (World (<[settings_path := File new_file]> (fs w)) (stdout w))
  /\ (valid_linesep os_linesep -> raw <> [] -> last raw <> Some LF ->
      new_file <> raw)
  /\ (os_linesep = [LF] -> In CR raw -> new_file <> raw).
Proof.
  intros Hfile Hdir Happ Hmark new_file. subst new_file.
  split; [|split].
  - rewrite (add_app_to_settings_run _ _ _ _ Hfile).
    unfold add_app_text. rewrite Happ.
    rewrite add_app_loop_no_marker by exact Hmark.
    unfold store_file. rewrite Hfile, Hdir. reflexivity.
  - intros Hsep Hne Hlast Heq.
    apply Hlast. rewrite <- Heq at 1.
    apply written_lines_end; [exact Hsep|].
    apply splitlines_nonempty, universal_newlines_nonempty, Hne.
  - intros Hsep Hcr Heq. rewrite Hsep, write_newlines_posix in Heq.
    rewrite <- Heq in Hcr. exact (render_read_no_CR _ Hcr).
Qed.

(** C4.  Registration is idempotent: after one run on a settings text
    that does not contain the app name, a second run leaves the file
    system, and so the settings file, as the first run left it.  On
    the text itself this holds for every app name: the second
    application returns early or produces the same text.  On the file
    the app name is taken without CR (a CR written is read back as LF)
    and the line separator to be LF or CR LF. *)
Theorem add_app_to_settings_idempotent
  (settings_path : path) (app_name raw : text) (w : world) :
  valid_linesep os_linesep ->
  ~ In CR app_name ->
  fs w !! settings_path = Some (File raw) ->
  contains app_name (universal_newlines raw) = false ->
  let w1 := final_world (add_app_to_settings settings_path app_name w) in
  let w2 := final_world (add_app_to_settings settings_path app_name w1) in
  fs w2 = fs w1 /\ fs w2 !! settings_path = fs w1 !! settings_path
  /\ (forall new,
         add_app_text (universal_newlines raw) app_name = Some new ->
         add_app_text new app_name = None
         \/ add_app_text new app_name = Some new).
Proof.
  intros Hsep Hcr Hfile Happ w1 w2.
  assert (Hfs : fs w2 = fs w1);
    [|rewrite Hfs; split; [reflexivity | split; [reflexivity|]];
      intros new; apply add_app_text_twice].
  subst w2 w1.
  set (lines := splitlines (universal_newlines raw)).
  set (new := fst (add_app_loop app_name lines ([], false))).
  assert (Hrun1 : add_app_to_settings settings_path app_name w
                  = store_file settings_path
                      (write_newlines os_linesep new) w).
  { rewrite (add_app_to_settings_run _ _ _ _ Hfile).
    unfold add_app_text. rewrite Happ. reflexivity. }
  assert (Hlines : forall l, In l lines -> ~ In CR l).
  { intros l Hl Hin.
    destruct (splitlines_from_chars _ _ _ _ Hl Hin) as [_ Hc].
    exact (universal_newlines_from_no_CR _ _ Hc). }
  assert (Hnew : ~ In CR new)
    by (apply add_app_loop_no_CR; assumption).
  rewrite Hrun1. unfold store_file. rewrite Hfile.
  destruct (fs w !! parent settings_path) as [[c|]|] eqn:Hpar;
    cbn [final_world]; try (rewrite Hrun1; unfold store_file;
                            rewrite Hfile, Hpar; reflexivity).
  set (w1 := World _ _).
  assert (Hfile1 : fs w1 !! settings_path
                   = Some (File (write_newlines os_linesep new)))
    by (apply lookup_insert_eq).
  rewrite (add_app_to_settings_run _ _ _ _ Hfile1).
  rewrite (read_back _ _ Hsep Hnew).
  unfold add_app_text.
  destruct (contains app_name new) eqn:Hc; [reflexivity|].
  destruct (add_app_loop_copies_or_inserts app_name lines false)
    as [Hcopy | Hins]; [|fold new in Hins; congruence].
  fold new in Hcopy. rewrite Hcopy at 1.
  rewrite splitlines_render.
  2:{ intros l c Hl Hin.
      destruct (splitlines_from_chars _ _ _ _ Hl Hin) as [Hb _].
      exact Hb. }
  fold new. unfold store_file. rewrite Hfile1.
  assert (Hpar1 : fs w1 !! parent settings_path = Some Dir).
  { subst w1. cbn [fs]. rewrite lookup_insert_ne; [exact Hpar|].
    intros Heq. exact (parent_neq _ _ _ Hfile Hpar (eq_sym Heq)). }
  rewrite Hpar1. cbn [final_world fs]. subst w1. cbn [fs].
  apply insert_insert_eq.
Qed.

End RegistrarFiles.

(** A file with CR LF line endings, a form feed inside a line and a
    final line ending, on a platform whose separator is LF: the lines
    are those of [splitlines], which also ends a line at the form
    feed and gives no empty last line.  And a file without a final
    line ending. *)
Lemma add_app_to_settings_no_marker_rewrites_witness :
  @add_app_to_settings example_env [cp "settings.py"] (cp "blog") paged_world
  = Ok tt (World (<[ [cp "settings.py"] :=
                       File (cp "DEBUG = True" ++ [LF]
                             ++ cp "# next" ++ [LF] ++ cp "page" ++ [LF]
                             ++ cp "USE_TZ = True" ++ [LF]) ]>
                  (fs paged_world)) [])
  /\ cp "DEBUG = True" ++ [LF] ++ cp "# next" ++ [LF] ++ cp "page" ++ [LF]
     ++ cp "USE_TZ = True" ++ [LF] <> paged_raw
  /\ @add_app_to_settings example_env [cp "settings.py"] (cp "blog")
       plain_world
     = Ok tt (World (<[ [cp "settings.py"] :=
                          File (cp "DEBUG = True" ++ [LF]
                                ++ cp "USE_TZ = True" ++ [LF]) ]>
                     (fs plain_world)) [])
  /\ cp "DEBUG = True" ++ [LF] ++ cp "USE_TZ = True" ++ [LF] <> plain_raw.
Proof.
  pose proof (@add_app_to_settings_no_marker_rewrites example_env
                [cp "settings.py"] (cp "blog") paged_raw paged_world) as P.
  cbv zeta in P.
  destruct P as [Hrun [_ Hcr]]; try (vm_compute; reflexivity).
  pose proof (@add_app_to_settings_no_marker_rewrites example_env
                [cp "settings.py"] (cp "blog") plain_raw plain_world) as Q.
  cbv zeta in Q.
  destruct Q as [Hrun' [Hlast _]]; try (vm_compute; reflexivity).
  split; [exact Hrun|]. split; [|split; [exact Hrun'|]].
  - apply Hcr; [reflexivity|]. vm_compute. tauto.
  - apply Hlast.
    + left. reflexivity.
    + discriminate.
    + vm_compute. discriminate.
Defined.

Lemma add_app_to_settings_idempotent_witness :
  let w1 := final_world (@add_app_to_settings example_env
                           [cp "settings.py"] (cp "blog") settings_world) in
  let w2 := final_world (@add_app_to_settings example_env
                           [cp "settings.py"] (cp "blog") w1) in
  fs w2 = fs w1.
Proof.
  apply (@add_app_to_settings_idempotent example_env
           [cp "settings.py"] (cp "blog") sample_settings settings_world).
  - left. reflexivity.
  - vm_compute. intuition discriminate.
  - vm_compute. reflexivity.
  - vm_compute. reflexivity.
Defined.

(** ** The reference fixer: what the assignment pattern matches *)

Lemma star_greedy_space (p : list item) (s : text) :
  (forall x r, is_space x = true -> match_here p (x :: r) = None) ->
  match_here (StarGreedy is_space :: p) s = match_here p (lstrip s).
Proof.
  intros Hp. cbn [match_here].
  induction s as [|x r IH]; [reflexivity|].
  cbn [lstrip]. destruct (is_space x) eqn:Hx; [|reflexivity].
  rewrite IH. destruct (match_here p (lstrip r)) eqn:Hm; [reflexivity|].
  apply Hp. exact Hx.
Qed.

Lemma star_lazy_body (s : text) :
  match_here [StarLazy dot; OneOf is_quote] s = lazy_body s.
Proof.
  cbn [match_here]. induction s as [|c r IH]; [reflexivity|].
  cbn [lazy_body]. destruct (is_quote c); [reflexivity|].
  destruct (dot c); [exact IH | reflexivity].
Qed.

Lemma space_not_quote (x : N) : is_space x = true -> is_quote x = false.
Proof.
  unfold is_space, is_quote. intros Hx.
  destruct (x =? 34) eqn:H1; [apply N.eqb_eq in H1; subst; discriminate|].
  destruct (x =? 39) eqn:H2; [apply N.eqb_eq in H2; subst; discriminate|].
  reflexivity.
Qed.

Lemma space_not_equals (x : N) : is_space x = true -> (x =? EQUALS) = false.
Proof.
  intros Hx. destruct (x =? EQUALS) eqn:H1; [|reflexivity].
  apply N.eqb_eq in H1. subst. discriminate.
Qed.

Lemma match_here_after_equals (s : text) :
  match_here [StarGreedy is_space; OneOf is_quote; StarLazy dot;
              OneOf is_quote] s = after_equals s.
Proof.
  rewrite star_greedy_space.
  - unfold after_equals. destruct (lstrip s) as [|c r]; [reflexivity|].
    change (match_here (OneOf is_quote :: ?p) (c :: r))
      with (if is_quote c then match_here p r else None).
    rewrite star_lazy_body. reflexivity.
  - intros x r Hx. cbn [match_here]. rewrite (space_not_quote x Hx).
    reflexivity.
Qed.

Lemma match_here_after_name (s : text) :
  match_here [StarGreedy is_space; Lit (cp "="); StarGreedy is_space;
              OneOf is_quote; StarLazy dot; OneOf is_quote] s
  = after_name s.
Proof.
  change (cp "=") with [EQUALS].
  rewrite star_greedy_space.
  - unfold after_name. destruct (lstrip s) as [|c r]; [reflexivity|].
    change (match_here (Lit [EQUALS] :: ?p) (c :: r))
      with (if (EQUALS =? c) && true then match_here p r else None).
    rewrite andb_true_r, N.eqb_sym, match_here_after_equals. reflexivity.
  - intros x r Hx.
    change (match_here (Lit [EQUALS] :: ?p) (x :: r))
      with (if (EQUALS =? x) && true then match_here p r else None).
    rewrite andb_true_r, N.eqb_sym, (space_not_equals x Hx). reflexivity.
Qed.

(** The backtracking matcher on an assignment pattern does what the
    left-to-right reading does. *)
Lemma match_here_assignment (name s : text) :
  match_here (assignment_pattern name) s = parse_assignment name s.
Proof.
  unfold assignment_pattern, parse_assignment.
  change (match_here (Lit name :: ?p) s)
    with (if startswith name s then match_here p (drop (length name) s)
          else None).
  rewrite match_here_after_name. reflexivity.
Qed.

Lemma lstrip_length (s : text) : (length (lstrip s) <= length s)%nat.
Proof.
  induction s as [|c r IH]; simpl; [lia|].
  destruct (is_space c); simpl; lia.
Qed.

Lemma lazy_body_length (s rest : text) :
  lazy_body s = Some rest -> (length rest < length s)%nat.
Proof.
  revert rest. induction s as [|c r IH]; intros rest Hs; [discriminate|].
  simpl in Hs. destruct (is_quote c).
  - injection Hs as <-. simpl. lia.
  - destruct (dot c); [|discriminate]. specialize (IH _ Hs). simpl. lia.
Qed.

Lemma after_equals_length (s rest : text) :
  after_equals s = Some rest -> (length rest < length s)%nat.
Proof.
  unfold after_equals. intros Hs. pose proof (lstrip_length s) as Hl.
  destruct (lstrip s) as [|c r]; [discriminate|].
  destruct (is_quote c); [|discriminate].
  apply lazy_body_length in Hs. simpl in Hl. lia.
Qed.

Lemma after_name_length (s rest : text) :
  after_name s = Some rest -> (length rest < length s)%nat.
Proof.
  unfold after_name. intros Hs. pose proof (lstrip_length s) as Hl.
  destruct (lstrip s) as [|c r]; [discriminate|].
  destruct (c =? EQUALS); [|discriminate].
  apply after_equals_length in Hs. simpl in Hl. lia.
Qed.

(** A match of an assignment is never empty. *)
Lemma parse_assignment_length (name s rest : text) :
  parse_assignment name s = Some rest -> (length rest < length s)%nat.
Proof.
  unfold parse_assignment. intros Hs.
  destruct (startswith name s); [|discriminate].
  apply after_name_length in Hs. rewrite length_drop in Hs. lia.
Qed.

(** Enough fuel is enough. *)
Lemma sub_from_fuel (p : list item) (repl : text) (f1 : nat) :
  forall (f2 : nat) (s : text),
    (length s < f1)%nat -> (length s < f2)%nat ->
    sub_from f1 p repl s = sub_from f2 p repl s.
Proof.
  induction f1 as [|f1 IH]; intros f2 s H1 H2; [lia|].
  destruct f2 as [|f2]; [lia|]. cbn [sub_from].
  assert (Hcopy : match s with
                  | [] => []
                  | c :: s' => c :: sub_from f1 p repl s'
                  end
                  = match s with
                    | [] => []
                    | c :: s' => c :: sub_from f2 p repl s'
                    end).
  { destruct s as [|c s']; [reflexivity|]. simpl in H1, H2.
    f_equal. apply IH; lia. }
  destruct (match_here p s) as [rest|]; [|exact Hcopy].
  destruct (length rest <? length s)%nat eqn:Hlt.
  - apply Nat.ltb_lt in Hlt. f_equal. apply IH; lia.
  - f_equal. exact Hcopy.
Qed.

(** The scan of [re.sub] for an assignment pattern, one position at a
    time. *)
Lemma sub_all_assignment (name repl s : text) :
  sub_all (assignment_pattern name) repl s
  = match parse_assignment name s with
    | Some rest => repl ++ sub_all (assignment_pattern name) repl rest
    | None =>
        match s with
        | [] => []
        | c :: s' => c :: sub_all (assignment_pattern name) repl s'
        end
    end.
Proof.
  unfold sub_all at 1. cbn [sub_from]. rewrite match_here_assignment.
  destruct (parse_assignment name s) as [rest|] eqn:Hp.
  - pose proof (parse_assignment_length _ _ _ Hp) as Hlt.
    rewrite (proj2 (Nat.ltb_lt _ _) Hlt). f_equal.
    apply sub_from_fuel; lia.
  - destruct s as [|c s']; [reflexivity|].
    f_equal; apply sub_from_fuel; simpl; lia.
Qed.

(** *** Texts that match *)

Lemma lstrip_app_inert (g z : text) (c : N) :
  is_space c = false -> lstrip (g ++ c :: z) = lstrip g ++ c :: z.
Proof.
  intros Hc. induction g as [|x g IH]; simpl.
  - rewrite Hc. reflexivity.
  - destruct (is_space x); [exact IH | reflexivity].
Qed.

Lemma lstrip_spaces (ws r : text) (c : N) :
  forallb is_space ws = true -> is_space c = false ->
  lstrip (ws ++ c :: r) = c :: r.
Proof.
  intros Hws Hc. induction ws as [|x ws IH]; simpl.
  - rewrite Hc. reflexivity.
  - simpl in Hws. apply andb_true_iff in Hws. destruct Hws as [Hx Hws].
    rewrite Hx. exact (IH Hws).
Qed.

Lemma quote_not_space (q : N) : is_quote q = true -> is_space q = false.
Proof.
  intros Hq. destruct (is_space q) eqn:Hs; [|reflexivity].
  rewrite (space_not_quote q Hs) in Hq. discriminate.
Qed.

Lemma lazy_body_clean (v rest : text) (q : N) :
  clean v = true -> is_quote q = true ->
  lazy_body (v ++ q :: rest) = Some rest.
Proof.
  intros Hv Hq. induction v as [|c v IH]; simpl.
  - rewrite Hq. reflexivity.
  - simpl in Hv. apply andb_true_iff in Hv. destruct Hv as [Hc Hv].
    apply andb_true_iff in Hc. destruct Hc as [Hc1 Hc2].
    apply negb_true_iff in Hc1. rewrite Hc1, Hc2. exact (IH Hv).
Qed.

Lemma startswith_drop (name s : text) :
  startswith name (name ++ s) = true
  /\ drop (length name) (name ++ s) = s.
Proof. split; [apply startswith_app | apply drop_app_length]. Qed.

(** An assignment, however spaced and quoted, is matched up to its
    closing quote. *)
Lemma parse_assignment_matches
  (name ws1 ws2 v rest : text) (q1 q2 : N) :
  forallb is_space ws1 = true -> forallb is_space ws2 = true ->
  is_quote q1 = true -> is_quote q2 = true -> clean v = true ->
  parse_assignment name
    (name ++ ws1 ++ EQUALS :: ws2 ++ q1 :: v ++ q2 :: rest) = Some rest.
Proof.
  intros H1 H2 Hq1 Hq2 Hv. unfold parse_assignment.
  destruct (startswith_drop name
              (ws1 ++ EQUALS :: ws2 ++ q1 :: v ++ q2 :: rest)) as [-> ->].
  unfold after_name. rewrite lstrip_spaces by (assumption || reflexivity).
  rewrite N.eqb_refl. unfold after_equals.
  rewrite lstrip_spaces by (try assumption; apply quote_not_space, Hq1).
  rewrite Hq1. apply lazy_body_clean; assumption.
Qed.

Lemma name_ok_clean (name : text) : name_ok name = true -> clean name = true.
Proof.
  unfold name_ok, clean. intros Hn. apply forallb_forall.
  intros c Hc. rewrite forallb_forall in Hn. specialize (Hn c Hc).
  apply andb_true_iff in Hn. tauto.
Qed.

Lemma clean_app (a b : text) :
  clean a = true -> clean b = true -> clean (a ++ b) = true.
Proof.
  unfold clean. intros Ha Hb. rewrite forallb_app, Ha, Hb. reflexivity.
Qed.

Lemma parse_urlconf_repl (name rest : text) :
  name_ok name = true ->
  parse_assignment ROOT_URLCONF (urlconf_repl name ++ rest) = Some rest.
Proof.
  intros Hn. unfold urlconf_repl. rewrite <- !app_assoc.
  change (cp " = " ++ ?t) with ([32] ++ EQUALS :: [32] ++ t).
  rewrite (app_assoc name).
  apply (parse_assignment_matches ROOT_URLCONF [32] [32]
           (name ++ cp ".urls") rest 34 34); try reflexivity.
  apply clean_app; [apply name_ok_clean, Hn | reflexivity].
Qed.

Lemma parse_wsgi_repl (name rest : text) :
  name_ok name = true ->
  parse_assignment WSGI_APPLICATION (wsgi_repl name ++ rest) = Some rest.
Proof.
  intros Hn. unfold wsgi_repl. rewrite <- !app_assoc.
  change (cp " = " ++ ?t) with ([32] ++ EQUALS :: [32] ++ t).
  rewrite (app_assoc name).
  apply (parse_assignment_matches WSGI_APPLICATION [32] [32]
           (name ++ cp ".wsgi.application") rest 34 34); try reflexivity.
  apply clean_app; [apply name_ok_clean, Hn | reflexivity].
Qed.

(** *** What a match looks like *)

Lemma lstrip_split (s : text) :
  exists ws, s = ws ++ lstrip s /\ forallb is_space ws = true.
Proof.
  induction s as [|c r [ws [Hr Hws]]]; [exists []; split; reflexivity|].
  simpl. destruct (is_space c) eqn:Hc.
  - exists (c :: ws). simpl. rewrite Hc, Hws. split; [|reflexivity].
    f_equal. exact Hr.
  - exists []. split; reflexivity.
Qed.

Lemma lazy_body_split (s rest : text) :
  lazy_body s = Some rest ->
  exists v q, s = v ++ q :: rest /\ clean v = true /\ is_quote q = true.
Proof.
  revert rest. induction s as [|c r IH]; intros rest Hs; [discriminate|].
  simpl in Hs. destruct (is_quote c) eqn:Hq.
  - injection Hs as <-. exists [], c. repeat split. exact Hq.
  - destruct (dot c) eqn:Hd; [|discriminate].
    destruct (IH _ Hs) as [v [q [-> [Hv Hq']]]].
    exists (c :: v), q. repeat split; [|exact Hq'].
    simpl. rewrite Hq, Hd, Hv. reflexivity.
Qed.

Lemma startswith_split (name s : text) :
  startswith name s = true -> s = name ++ drop (length name) s.
Proof.
  revert s. induction name as [|a name IH]; intros s Hs; [reflexivity|].
  destruct s as [|b s]; [discriminate|]. simpl in Hs.
  apply andb_true_iff in Hs. destruct Hs as [Hab Hs].
  apply N.eqb_eq in Hab. subst b. simpl. f_equal. exact (IH _ Hs).
Qed.

(** The converse of [parse_assignment_matches]. *)
Lemma parse_assignment_split (name s rest : text) :
  parse_assignment name s = Some rest ->
  exists ws1 ws2 q1 v q2,
    s = name ++ ws1 ++ EQUALS :: ws2 ++ q1 :: v ++ q2 :: rest
    /\ forallb is_space ws1 = true /\ forallb is_space ws2 = true
    /\ is_quote q1 = true /\ clean v = true /\ is_quote q2 = true.
Proof.
  unfold parse_assignment. intros Hs.
  destruct (startswith name s) eqn:Hn; [|discriminate].
  apply startswith_split in Hn. revert Hs Hn.
  generalize (drop (length name) s). intros s1 Hs ->.
  unfold after_name in Hs.
  destruct (lstrip_split s1) as [ws1 [E1 H1]].
  destruct (lstrip s1) as [|c s2]; [discriminate|].
  destruct (c =? EQUALS) eqn:Hc; [|discriminate].
  apply N.eqb_eq in Hc. subst c. unfold after_equals in Hs.
  destruct (lstrip_split s2) as [ws2 [E2 H2]].
  destruct (lstrip s2) as [|q1 s3]; [discriminate|].
  destruct (is_quote q1) eqn:Hq1; [|discriminate].
  destruct (lazy_body_split _ _ Hs) as [v [q2 [E3 [Hv Hq2]]]].
  exists ws1, ws2, q1, v, q2. rewrite E1, E2, E3.
  repeat split; assumption.
Qed.

Lemma matched_app (a rest : text) : matched (a ++ rest) rest = a.
Proof.
  unfold matched. rewrite length_app.
  replace (length a + length rest - length rest)%nat with (length a) by lia.
  apply take_app_length.
Qed.

Lemma for_all_tails_app (f : text -> bool) (a b : text) :
  for_all_tails f (a ++ b) = true -> for_all_tails f b = true.
Proof.
  induction a as [|c a IH]; [trivial|].
  simpl. intros Hab. apply andb_true_iff in Hab. apply IH, Hab.
Qed.

Lemma for_all_tails_head (f : text -> bool) (s : text) :
  for_all_tails f s = true -> f s = true.
Proof. destruct s; simpl; intros Hs; apply andb_true_iff in Hs; tauto. Qed.

Lemma single_line_matches_spec (name t : text) :
  single_line_matches name t = true <-> matches_on_one_line name t.
Proof.
  unfold single_line_matches, matches_on_one_line. split.
  - intros Ht pre s rest -> Hm. rewrite match_here_assignment in Hm.
    apply for_all_tails_app, for_all_tails_head in Ht.
    unfold single_line in Ht. rewrite Hm in Ht. exact Ht.
  - intros Ht. induction t as [|c t IH].
    + simpl. rewrite andb_true_r. unfold single_line.
      destruct (parse_assignment name []) as [rest|] eqn:Hp; [|reflexivity].
      apply (Ht [] [] rest eq_refl). rewrite match_here_assignment.
      exact Hp.
    + cbn [for_all_tails]. apply andb_true_iff. split.
      * unfold single_line.
        destruct (parse_assignment name (c :: t)) as [rest|] eqn:Hp;
          [|reflexivity].
        apply (Ht [] (c :: t) rest eq_refl).
        rewrite match_here_assignment. exact Hp.
      * apply IH. intros pre s rest -> Hm.
        apply (Ht (c :: pre) s rest eq_refl Hm).
Qed.

(** *** A match attempt that runs into what follows

    [g] is followed by a text [z] whose first character is a letter.
    An attempt that starts in [g] is decided inside [g], unless [g]
    ends inside the quoted value: then it is decided by [z]. *)

Lemma lazy_body_app (r z : text) :
  lazy_body (r ++ z) = continue_with z (lazy_body r) (clean r).
Proof.
  induction r as [|c r IH]; [reflexivity|].
  simpl. destruct (is_quote c); [reflexivity|].
  destruct (dot c); [exact IH | reflexivity].
Qed.

Lemma after_equals_app (g z : text) (c0 : N) :
  inert c0 = true ->
  after_equals (g ++ c0 :: z)
  = continue_with (c0 :: z) (after_equals g) (open_after_equals g).
Proof.
  intros Hc. unfold inert in Hc.
  apply andb_true_iff in Hc. destruct Hc as [Hc He].
  apply andb_true_iff in Hc. destruct Hc as [Hs Hq].
  apply negb_true_iff in Hs, Hq.
  unfold after_equals, open_after_equals.
  rewrite lstrip_app_inert by exact Hs.
  destruct (lstrip g) as [|c r]; simpl.
  - rewrite Hq. reflexivity.
  - destruct (is_quote c); [apply lazy_body_app | reflexivity].
Qed.

Lemma after_name_app (g z : text) (c0 : N) :
  inert c0 = true ->
  after_name (g ++ c0 :: z)
  = continue_with (c0 :: z) (after_name g) (open_after_name g).
Proof.
  intros Hc. pose proof Hc as Hc'. unfold inert in Hc.
  apply andb_true_iff in Hc. destruct Hc as [Hc He].
  apply andb_true_iff in Hc. destruct Hc as [Hs Hq].
  apply negb_true_iff in Hs, He.
  unfold after_name, open_after_name.
  rewrite lstrip_app_inert by exact Hs.
  destruct (lstrip g) as [|c r]; simpl.
  - rewrite He. reflexivity.
  - destruct (c =? EQUALS); [apply after_equals_app, Hc' | reflexivity].
Qed.

Lemma startswith_length (name g : text) :
  startswith name g = true -> (length name <= length g)%nat.
Proof.
  revert g. induction name as [|a name IH]; intros g Hg; simpl; [lia|].
  destruct g as [|b g]; [discriminate|]. simpl in Hg.
  apply andb_true_iff in Hg. destruct Hg as [_ Hg].
  specialize (IH _ Hg). simpl. lia.
Qed.

Lemma startswith_app_long (name g z : text) :
  (length name <= length g)%nat ->
  startswith name (g ++ z) = startswith name g.
Proof.
  revert g. induction name as [|a name IH]; intros g Hg; [reflexivity|].
  destruct g as [|b g]; simpl in Hg; [lia|].
  simpl. rewrite IH by lia. reflexivity.
Qed.

Lemma startswith_app_short (name g z : text) :
  (length g < length name)%nat ->
  startswith name (g ++ z) = true ->
  startswith (drop (length g) name) z = true.
Proof.
  revert g. induction name as [|a name IH]; intros g Hg Hs;
    [simpl in Hg; lia|].
  destruct g as [|b g]; [exact Hs|].
  simpl in Hs, Hg. apply andb_true_iff in Hs. destruct Hs as [_ Hs].
  simpl. apply IH; [lia | exact Hs].
Qed.

(** The attempt at the head of [g ++ z]. *)
Lemma parse_assignment_app (name g z : text) (c0 : N) :
  g <> [] -> inert c0 = true ->
  (forall n, (0 < n < length name)%nat ->
             startswith (drop n name) (c0 :: z) = false) ->
  parse_assignment name (g ++ c0 :: z)
  = continue_with (c0 :: z) (parse_assignment name g) (parse_open name g).
Proof.
  intros Hg Hc Hstr. unfold parse_assignment, parse_open.
  destruct (le_lt_dec (length name) (length g)) as [Hlen | Hlen].
  - rewrite startswith_app_long by exact Hlen.
    destruct (startswith name g); [|reflexivity].
    rewrite drop_app_le by exact Hlen. simpl.
    apply after_name_app, Hc.
  - assert (Hng : startswith name g = false).
    { destruct (startswith name g) eqn:E; [|reflexivity].
      apply startswith_length in E. lia. }
    rewrite Hng. simpl.
    destruct (startswith name (g ++ c0 :: z)) eqn:E; [|reflexivity].
    apply startswith_app_short in E; [|exact Hlen].
    rewrite Hstr in E; [discriminate|].
    destruct g; [congruence | simpl in *; lia].
Qed.

(** *** The two names *)

(** No end of one name is the beginning of a name. *)
Lemma keyword_no_straddle (kw kw' y : text) (n : nat) :
  keyword kw -> keyword kw' -> (0 < n < length kw)%nat ->
  startswith (drop n kw) (kw' ++ y) = false.
Proof.
  intros [-> | ->] [-> | ->] Hn;
    [ change (length ROOT_URLCONF) with 12%nat in Hn
    | change (length ROOT_URLCONF) with 12%nat in Hn
    | change (length WSGI_APPLICATION) with 16%nat in Hn
    | change (length WSGI_APPLICATION) with 16%nat in Hn ];
    do 16 (destruct n as [|n]; [first [exfalso; lia | reflexivity]|]);
    exfalso; lia.
Qed.

Lemma keyword_head (kw : text) :
  keyword kw -> exists c k, kw = c :: k /\ inert c = true.
Proof.
  intros [-> | ->]; [exists 82, (cp "OOT_URLCONF")
                    | exists 87, (cp "SGI_APPLICATION")];
    split; reflexivity.
Qed.

(** The attempt at the head of [g ++ kw' ++ y]. *)
Lemma parse_assignment_keyword (kw kw' g y : text) :
  keyword kw -> keyword kw' -> g <> [] ->
  parse_assignment kw (g ++ kw' ++ y)
  = continue_with (kw' ++ y) (parse_assignment kw g) (parse_open kw g).
Proof.
  intros Hkw Hkw' Hg.
  destruct (keyword_head kw' Hkw') as [c [k [E Hc]]].
  assert (Hstr : forall n, (0 < n < length kw)%nat ->
                           startswith (drop n kw) (c :: k ++ y) = false).
  { intros n Hn. change (c :: k ++ y) with ((c :: k) ++ y). rewrite <- E.
    apply keyword_no_straddle; assumption. }
  rewrite E. apply (parse_assignment_app kw g (k ++ y) c Hg Hc Hstr).
Qed.

(** *** No match starts inside a replacement *)

Lemma no_match_inside_app (kw h1 h2 x : text) :
  no_match_inside kw h1 (h2 ++ x) -> no_match_inside kw h2 x ->
  no_match_inside kw (h1 ++ h2) x.
Proof.
  intros H1 H2. induction h1 as [|c h1 IH]; [exact H2|].
  destruct H1 as [Hp H1]. split.
  - change (parse_assignment kw (c :: (h1 ++ h2) ++ x) = None).
    rewrite <- app_assoc. exact Hp.
  - exact (IH H1).
Qed.

Lemma mismatch_startswith (name s x : text) :
  mismatch name s = true -> startswith name (s ++ x) = false.
Proof.
  revert s. induction name as [|a name IH]; intros s Hm; [discriminate|].
  destruct s as [|b s]; [discriminate|]. simpl in *.
  destruct (a =? b); [|reflexivity]. simpl in *. exact (IH _ Hm).
Qed.

Lemma all_tails_mismatch_inside (kw h x : text) :
  all_tails_mismatch kw h = true -> no_match_inside kw h x.
Proof.
  induction h as [|c h IH]; intros Hm; [exact I|].
  cbn [all_tails_mismatch] in Hm. apply andb_true_iff in Hm.
  destruct Hm as [Hc Hm]. split; [|exact (IH Hm)].
  unfold parse_assignment. rewrite (mismatch_startswith _ _ x Hc).
  reflexivity.
Qed.

Lemma lstrip_quote_free (s : text) :
  quote_free s = true -> quote_free (lstrip s) = true.
Proof.
  induction s as [|c s IH]; [trivial|]. intros Hs. simpl.
  destruct (is_space c); [|exact Hs].
  simpl in Hs. apply andb_true_iff in Hs. apply IH, Hs.
Qed.

Lemma drop_quote_free (n : nat) (s : text) :
  quote_free s = true -> quote_free (drop n s) = true.
Proof.
  revert n. induction s as [|c s IH]; intros [|n] Hs; try exact Hs.
  simpl in Hs. apply andb_true_iff in Hs. simpl. apply IH, Hs.
Qed.

Lemma parse_quote_free (kw s : text) :
  quote_free s = true -> parse_assignment kw s = None.
Proof.
  intros Hs. destruct (parse_assignment kw s) as [rest|] eqn:Hp;
    [|reflexivity].
  destruct (parse_assignment_split _ _ _ Hp)
    as [ws1 [ws2 [q1 [v [q2 [E [_ [_ [Hq _]]]]]]]]].
  rewrite E in Hs. unfold quote_free in Hs.
  rewrite !forallb_app in Hs. simpl in Hs. rewrite !forallb_app in Hs.
  simpl in Hs. rewrite Hq in Hs.
  repeat (apply andb_true_iff in Hs; destruct Hs as [? Hs]);
    simpl in *; discriminate.
Qed.

Lemma parse_open_quote_free (kw s : text) :
  quote_free s = true -> parse_open kw s = false.
Proof.
  intros Hs. unfold parse_open.
  destruct (startswith kw s); [|reflexivity]. simpl.
  pose proof (lstrip_quote_free _ (drop_quote_free (length kw) _ Hs)) as H1.
  unfold open_after_name.
  destruct (lstrip (drop (length kw) s)) as [|c r]; [reflexivity|].
  simpl in H1. apply andb_true_iff in H1. destruct H1 as [_ H1].
  apply lstrip_quote_free in H1. unfold open_after_equals.
  destruct (lstrip r) as [|c' r']; [apply andb_false_r|].
  simpl in H1. apply andb_true_iff in H1. destruct H1 as [H1 _].
  apply negb_true_iff in H1. rewrite H1. apply andb_false_r.
Qed.

Lemma keyword_no_dot (kw x : text) (n : nat) :
  keyword kw -> (0 < n < length kw)%nat ->
  startswith (drop n kw) (DOT :: x) = false.
Proof.
  intros [-> | ->] Hn;
    [ change (length ROOT_URLCONF) with 12%nat in Hn
    | change (length WSGI_APPLICATION) with 16%nat in Hn ];
    do 16 (destruct n as [|n]; [first [exfalso; lia | reflexivity]|]);
    exfalso; lia.
Qed.

Lemma no_match_inside_name (kw n x : text) :
  keyword kw -> quote_free n = true -> no_match_inside kw n (DOT :: x).
Proof.
  intros Hkw. induction n as [|c n IH]; intros Hn; [exact I|].
  split.
  - rewrite (parse_assignment_app kw (c :: n) x DOT);
      [| discriminate | reflexivity
       | intros k Hk; apply keyword_no_dot; assumption ].
    rewrite (parse_quote_free _ _ Hn), (parse_open_quote_free _ _ Hn).
    reflexivity.
  - apply IH. simpl in Hn. apply andb_true_iff in Hn. apply Hn.
Qed.

Lemma no_match_inside_parts (kw h n t x : text) :
  keyword kw -> all_tails_mismatch kw h = true ->
  quote_free n = true -> all_tails_mismatch kw (DOT :: t) = true ->
  no_match_inside kw (h ++ n ++ DOT :: t) x.
Proof.
  intros Hkw Hh Hn Ht.
  apply no_match_inside_app; [apply all_tails_mismatch_inside, Hh|].
  apply no_match_inside_app; [apply no_match_inside_name; assumption|].
  apply all_tails_mismatch_inside, Ht.
Qed.

Lemma name_ok_quote_free (name : text) :
  name_ok name = true -> quote_free name = true.
Proof.
  unfold name_ok, quote_free. intros Hn. apply forallb_forall.
  intros c Hc. rewrite forallb_forall in Hn. specialize (Hn c Hc).
  apply andb_true_iff in Hn. destruct Hn as [Hn _].
  apply andb_true_iff in Hn. tauto.
Qed.

Lemma urlconf_repl_parts (name : text) :
  urlconf_repl name
  = 82 :: (cp "OOT_URLCONF = " ++ [34]) ++ name ++ DOT :: cp "urls" ++ [34].
Proof. unfold urlconf_repl. rewrite <- !app_assoc. reflexivity. Qed.

Lemma wsgi_repl_parts (name : text) :
  wsgi_repl name
  = 87 :: (cp "SGI_APPLICATION = " ++ [34]) ++ name
    ++ DOT :: cp "wsgi.application" ++ [34].
Proof. unfold wsgi_repl. rewrite <- !app_assoc. reflexivity. Qed.

(** No attempt for either name succeeds inside a replacement, except
    the one at its first character for its own name. *)
Lemma no_match_inside_urlconf_repl (kw name x : text) :
  keyword kw -> name_ok name = true ->
  no_match_inside kw (tl (urlconf_repl name)) x
  /\ (kw = WSGI_APPLICATION -> no_match_inside kw (urlconf_repl name) x).
Proof.
  intros Hkw Hn. apply name_ok_quote_free in Hn.
  rewrite urlconf_repl_parts. split.
  - cbn [tl]. destruct Hkw as [-> | ->];
      apply no_match_inside_parts; auto;
      try solve [left; reflexivity | right; reflexivity].
  - intros ->.
    change (82 :: ?h ++ ?r) with ((82 :: h) ++ r).
    apply no_match_inside_parts; auto; right; reflexivity.
Qed.

Lemma no_match_inside_wsgi_repl (kw name x : text) :
  keyword kw -> name_ok name = true ->
  no_match_inside kw (tl (wsgi_repl name)) x
  /\ (kw = ROOT_URLCONF -> no_match_inside kw (wsgi_repl name) x).
Proof.
  intros Hkw Hn. apply name_ok_quote_free in Hn.
  rewrite wsgi_repl_parts. split.
  - cbn [tl]. destruct Hkw as [-> | ->];
      apply no_match_inside_parts; auto;
      try solve [left; reflexivity | right; reflexivity].
  - intros ->.
    change (87 :: ?h ++ ?r) with ((87 :: h) ++ r).
    apply no_match_inside_parts; auto; left; reflexivity.
Qed.

Lemma inside_urlconf_own (name x : text) :
  name_ok name = true ->
  no_match_inside ROOT_URLCONF (tl (urlconf_repl name)) x.
Proof.
  intros Hn.
  exact (proj1 (no_match_inside_urlconf_repl ROOT_URLCONF name x
                  (or_introl eq_refl) Hn)).
Qed.

Lemma inside_urlconf_other (name x : text) :
  name_ok name = true ->
  no_match_inside WSGI_APPLICATION (urlconf_repl name) x.
Proof.
  intros Hn.
  apply (proj2 (no_match_inside_urlconf_repl WSGI_APPLICATION name x
                  (or_intror eq_refl) Hn) eq_refl).
Qed.

Lemma inside_wsgi_own (name x : text) :
  name_ok name = true ->
  no_match_inside WSGI_APPLICATION (tl (wsgi_repl name)) x.
Proof.
  intros Hn.
  exact (proj1 (no_match_inside_wsgi_repl WSGI_APPLICATION name x
                  (or_intror eq_refl) Hn)).
Qed.

Lemma inside_wsgi_other (name x : text) :
  name_ok name = true ->
  no_match_inside ROOT_URLCONF (wsgi_repl name) x.
Proof.
  intros Hn.
  apply (proj2 (no_match_inside_wsgi_repl ROOT_URLCONF name x
                  (or_introl eq_refl) Hn) eq_refl).
Qed.

(** *** The first quote of a match *)

Lemma keyword_clean_dot (kw : text) :
  keyword kw -> quote_free kw = true /\ forallb dot kw = true /\ kw <> [].
Proof. intros [-> | ->]; repeat split; discriminate. Qed.

Lemma spaces_quote_free (ws : text) :
  forallb is_space ws = true -> quote_free ws = true.
Proof.
  intros Hws. apply forallb_forall. intros c Hc.
  rewrite forallb_forall in Hws.
  rewrite (space_not_quote c (Hws c Hc)). reflexivity.
Qed.

Lemma clean_of (s : text) :
  quote_free s = true -> forallb dot s = true -> clean s = true.
Proof.
  unfold quote_free, clean. intros Hq Hd. apply forallb_forall.
  intros c Hc. rewrite forallb_forall in Hq, Hd.
  rewrite (Hq c Hc), (Hd c Hc). reflexivity.
Qed.

(** A match that holds no LF: the lazy scan from its first character
    stops at its opening quote. *)
Lemma single_line_lazy_body (kw s rest : text) :
  keyword kw -> parse_assignment kw s = Some rest ->
  single_line kw s = true ->
  exists b r, s = b ++ r /\ b <> [] /\ lazy_body s = Some r
              /\ forallb dot b = true
              /\ (length rest <= length r)%nat.
Proof.
  intros Hkw Hp Hs. unfold single_line in Hs. rewrite Hp in Hs.
  destruct (parse_assignment_split _ _ _ Hp)
    as [ws1 [ws2 [q1 [v [q2 [E [H1 [H2 [Hq1 [Hv Hq2]]]]]]]]]].
  destruct (keyword_clean_dot kw Hkw) as [Hkq [Hkd Hkn]].
  assert (Em : matched s rest
               = (kw ++ ws1 ++ EQUALS :: ws2) ++ q1 :: v ++ [q2]).
  { rewrite E.
    replace (kw ++ ws1 ++ EQUALS :: ws2 ++ q1 :: v ++ q2 :: rest)
      with (((kw ++ ws1 ++ EQUALS :: ws2) ++ q1 :: v ++ [q2]) ++ rest).
    - apply matched_app.
    - rewrite <- !app_assoc. simpl. rewrite <- !app_assoc. reflexivity. }
  rewrite Em, forallb_app in Hs. apply andb_true_iff in Hs.
  destruct Hs as [Hd Hd2]. simpl in Hd2.
  apply andb_true_iff in Hd2. destruct Hd2 as [Hdq1 _].
  exists ((kw ++ ws1 ++ EQUALS :: ws2) ++ [q1]), (v ++ q2 :: rest).
  assert (Es : s = (kw ++ ws1 ++ EQUALS :: ws2) ++ q1 :: v ++ q2 :: rest).
  { rewrite E at 1. rewrite <- ?app_assoc. simpl.
    rewrite <- ?app_assoc. reflexivity. }
  repeat split.
  - rewrite Es at 1. rewrite <- !app_assoc. reflexivity.
  - destruct kw; [congruence | discriminate].
  - rewrite Es. apply lazy_body_clean; [|exact Hq1].
    apply clean_of; [|exact Hd].
    unfold quote_free. rewrite !forallb_app.
    change (forallb ?f (EQUALS :: ws2)) with (forallb f ws2).
    fold (quote_free kw) (quote_free ws1) (quote_free ws2).
    rewrite Hkq, (spaces_quote_free _ H1), (spaces_quote_free _ H2).
    reflexivity.
  - rewrite forallb_app, Hd. simpl. rewrite Hdq1. reflexivity.
  - rewrite length_app. simpl. lia.
Qed.

(** *** One pass of [re.sub] *)

Lemma all_canonical_head (kw repl u : text) :
  all_canonical kw repl u -> canonical kw repl u.
Proof. destruct u; intros [Hc _]; exact Hc. Qed.

Lemma all_canonical_tail (kw repl a b : text) :
  all_canonical kw repl (a ++ b) -> all_canonical kw repl b.
Proof.
  induction a as [|c a IH]; [trivial|]. intros [_ Hab]. exact (IH Hab).
Qed.

Lemma all_canonical_skip (kw repl a y : text) :
  no_match_inside kw a y -> all_canonical kw repl y ->
  all_canonical kw repl (a ++ y).
Proof.
  intros Ha Hy. induction a as [|c a IH]; [exact Hy|].
  destruct Ha as [Hp Ha]. split; [|exact (IH Ha)].
  intros rest Hr. change (parse_assignment kw ((c :: a) ++ y) = Some rest) in Hr.
  rewrite Hp in Hr. discriminate.
Qed.

Lemma no_match_inside_tail (kw a b x : text) :
  no_match_inside kw (a ++ b) x -> b <> [] ->
  parse_assignment kw (b ++ x) = None.
Proof.
  induction a as [|c a IH]; intros Hab Hb.
  - destruct b; [congruence|]. apply Hab.
  - apply IH; [apply Hab | exact Hb].
Qed.

Lemma parse_assignment_suffix (kw s rest : text) :
  parse_assignment kw s = Some rest -> exists m, s = m ++ rest /\ m <> [].
Proof.
  intros Hp.
  destruct (parse_assignment_split _ _ _ Hp)
    as [ws1 [ws2 [q1 [v [q2 [E _]]]]]].
  exists (kw ++ ws1 ++ EQUALS :: ws2 ++ q1 :: v ++ [q2]). split.
  - rewrite E, <- !app_assoc. simpl. rewrite <- !app_assoc. simpl.
    rewrite <- !app_assoc. reflexivity.
  - intros Hnil. apply (f_equal (@length N)) in Hnil.
    rewrite !length_app in Hnil. simpl in Hnil.
    rewrite !length_app in Hnil. simpl in Hnil.
    rewrite !length_app in Hnil. simpl in Hnil. lia.
Qed.

Section Pass.
Variables kw repl : text.
Hypothesis Hkw : keyword kw.
Hypothesis Hparse : forall x, parse_assignment kw (repl ++ x) = Some x.
Hypothesis Hinside : forall x, no_match_inside kw (tl repl) x.
Hypothesis Hstart : exists y, repl = kw ++ y.

Local Abbreviation sub := (sub_all (assignment_pattern kw) repl).

Lemma sub_match (s rest : text) :
  parse_assignment kw s = Some rest -> sub s = repl ++ sub rest.
Proof. intros Hp. rewrite sub_all_assignment, Hp. reflexivity. Qed.

Lemma sub_copy (c : N) (s : text) :
  parse_assignment kw (c :: s) = None -> sub (c :: s) = c :: sub s.
Proof. intros Hp. rewrite sub_all_assignment, Hp. reflexivity. Qed.

Lemma sub_nil : sub [] = [].
Proof.
  rewrite sub_all_assignment.
  destruct (parse_assignment kw []) as [rest|] eqn:Hp; [|reflexivity].
  apply parse_assignment_length in Hp. simpl in Hp. lia.
Qed.

Lemma sub_skip (a y : text) :
  no_match_inside kw a y -> sub (a ++ y) = a ++ sub y.
Proof.
  induction a as [|c a IH]; intros Ha; [reflexivity|].
  destruct Ha as [Hp Ha]. simpl. rewrite sub_copy by exact Hp.
  rewrite (IH Ha). reflexivity.
Qed.

Lemma sub_repl (y : text) : sub (repl ++ y) = repl ++ sub y.
Proof. apply sub_match, Hparse. Qed.

Lemma repl_cons : exists c r, repl = c :: r.
Proof.
  destruct (decide (repl = [])) as [E | E].
  - pose proof (Hparse []) as Hp. rewrite E in Hp.
    apply parse_assignment_length in Hp. simpl in Hp. lia.
  - destruct repl as [|c r]; [congruence|]. exists c, r. reflexivity.
Qed.

Lemma all_canonical_repl (y : text) :
  all_canonical kw repl y -> all_canonical kw repl (repl ++ y).
Proof.
  intros Hy. destruct repl_cons as [c [r E]].
  assert (Eu : repl ++ y = c :: (r ++ y)) by (rewrite E; reflexivity).
  rewrite Eu. split.
  - intros rest Hr. rewrite <- Eu in *. rewrite Hparse in Hr.
    injection Hr as <-. reflexivity.
  - apply all_canonical_skip; [|exact Hy].
    pose proof (Hinside y) as Hi. rewrite E in Hi. exact Hi.
Qed.

(** A text all of whose matches are the replacement is left as it is. *)
Lemma all_canonical_fixed (u : text) :
  all_canonical kw repl u -> sub u = u.
Proof.
  remember (length u) as n eqn:Hn. revert u Hn.
  induction n as [n IH] using lt_wf_ind. intros u Hn Hu.
  destruct (parse_assignment kw u) as [rest|] eqn:Hp.
  - pose proof (parse_assignment_length _ _ _ Hp) as Hlen.
    pose proof (all_canonical_head _ _ _ Hu _ Hp) as E.
    rewrite (sub_match _ _ Hp).
    rewrite (IH (length rest)); [symmetry; exact E | lia | reflexivity |].
    apply (all_canonical_tail kw repl repl). rewrite <- E. exact Hu.
  - destruct u as [|c u]; [apply sub_nil|].
    rewrite sub_copy by exact Hp. f_equal.
    apply (IH (length u)); [subst n; simpl; lia | reflexivity | apply Hu].
Qed.

Lemma starts_with_keyword (s rest : text) :
  parse_assignment kw s = Some rest -> exists z, s = kw ++ z.
Proof.
  unfold parse_assignment. destruct (startswith kw s) eqn:E; [|discriminate].
  intros _. eexists. apply startswith_split, E.
Qed.

(** An attempt that fails in front of [s] still fails after the pass
    over [s], when the matches in [s] keep to one line. *)
Lemma attempt_after_sub (s : text) :
  forall g, g <> [] ->
    parse_assignment kw (g ++ s) = None ->
    single_line_matches kw s = true ->
    parse_assignment kw (g ++ sub s) = None.
Proof.
  induction s as [|c s IH]; intros g Hg Hp Hs.
  - rewrite sub_nil. exact Hp.
  - destruct (parse_assignment kw (c :: s)) as [rest|] eqn:Hm.
    + rewrite (sub_match _ _ Hm).
      destruct (starts_with_keyword _ _ Hm) as [z Ez].
      destruct Hstart as [y Ey].
      destruct (single_line_lazy_body kw _ _ Hkw Hm
                  (for_all_tails_head _ _ Hs)) as [b [r [_ [_ [Hl _]]]]].
      rewrite Ez in Hp, Hl.
      rewrite parse_assignment_keyword in Hp by assumption.
      rewrite Ey, <- app_assoc.
      rewrite parse_assignment_keyword by assumption.
      destruct (parse_assignment kw g); [discriminate|].
      destruct (parse_open kw g); [|reflexivity].
      simpl in Hp. congruence.
    + rewrite (sub_copy _ _ Hm).
      change (g ++ c :: sub s) with (g ++ [c] ++ sub s).
      rewrite app_assoc. apply IH.
      * destruct g; discriminate.
      * rewrite <- app_assoc. exact Hp.
      * simpl in Hs. apply andb_true_iff in Hs. apply Hs.
Qed.

(** After the pass, every match in the text is the replacement. *)
Lemma sub_all_canonical (t : text) :
  single_line_matches kw t = true -> all_canonical kw repl (sub t).
Proof.
  remember (length t) as n eqn:Hn. revert t Hn.
  induction n as [n IH] using lt_wf_ind. intros t Hn Hs.
  destruct (parse_assignment kw t) as [rest|] eqn:Hp.
  - pose proof (parse_assignment_length _ _ _ Hp) as Hlen.
    rewrite (sub_match _ _ Hp). apply all_canonical_repl.
    apply (IH (length rest)); [lia | reflexivity |].
    destruct (parse_assignment_suffix _ _ _ Hp) as [m [E _]].
    rewrite E in Hs. exact (for_all_tails_app _ _ _ Hs).
  - destruct t as [|c t].
    + rewrite sub_nil. split; [|exact I]. intros rest Hr. congruence.
    + rewrite (sub_copy _ _ Hp).
      assert (Hs' : single_line_matches kw t = true).
      { simpl in Hs. apply andb_true_iff in Hs. apply Hs. }
      split.
      * intros rest Hr.
        change (parse_assignment kw ([c] ++ sub t) = Some rest) in Hr.
        rewrite (attempt_after_sub t [c]) in Hr;
          [discriminate | discriminate | exact Hp | exact Hs'].
      * apply (IH (length t)); [subst n; simpl; lia | reflexivity | exact Hs'].
Qed.

(** The pass is idempotent on such a text. *)
Lemma sub_all_idempotent (t : text) :
  single_line_matches kw t = true -> sub (sub t) = sub t.
Proof. intros Hs. apply all_canonical_fixed, sub_all_canonical, Hs. Qed.

End Pass.

(** *** A pass for one name and the matches of the other *)

Lemma matched_app_both (g r z : text) :
  (length r <= length g)%nat -> matched (g ++ z) (r ++ z) = matched g r.
Proof.
  intros Hlen. unfold matched. rewrite !length_app.
  replace (length g + length z - (length r + length z))%nat
    with (length g - length r)%nat by lia.
  apply take_app_le. lia.
Qed.

Lemma single_line_skip (kw a y : text) :
  no_match_inside kw a y -> single_line_matches kw y = true ->
  single_line_matches kw (a ++ y) = true.
Proof.
  intros Ha Hy. induction a as [|c a IH]; [exact Hy|].
  destruct Ha as [Hp Ha]. simpl. apply andb_true_iff. split.
  - unfold single_line.
    change (c :: a ++ y) with ((c :: a) ++ y). rewrite Hp. reflexivity.
  - exact (IH Ha).
Qed.

Section TwoPasses.
Variables kw1 repl1 kw2 repl2 : text.
Hypothesis Hkw1 : keyword kw1.
Hypothesis Hparse1 : forall x, parse_assignment kw1 (repl1 ++ x) = Some x.
Hypothesis Hinside1 : forall x, no_match_inside kw1 (tl repl1) x.
Hypothesis Hstart1 : exists y, repl1 = kw1 ++ y.
Hypothesis Hbody1 : forall x, exists b r,
  repl1 = b ++ r /\ lazy_body (repl1 ++ x) = Some (r ++ x)
  /\ forallb dot b = true.
Hypothesis Hkw2 : keyword kw2.
Hypothesis Hforeign12 : forall x, no_match_inside kw2 repl1 x.
Hypothesis Hforeign21 : forall x, no_match_inside kw1 repl2 x.

Local Abbreviation sub1 := (sub_all (assignment_pattern kw1) repl1).

Lemma attempt_before_keyword (kw s rest g k : text) :
  keyword kw -> g <> [] -> parse_assignment kw1 s = Some rest ->
  parse_assignment kw (g ++ s)
  = continue_with s (parse_assignment kw g) (parse_open kw g)
  /\ parse_assignment kw (g ++ repl1 ++ k)
     = continue_with (repl1 ++ k) (parse_assignment kw g) (parse_open kw g).
Proof.
  intros Hkw Hg Hm.
  destruct (starts_with_keyword kw1 _ _ Hm) as [z Ez].
  destruct Hstart1 as [y Ey]. split.
  - rewrite Ez. apply parse_assignment_keyword; assumption.
  - rewrite Ey, <- app_assoc. apply parse_assignment_keyword; assumption.
Qed.

(** Replacing the match of [kw1] at the head of [s] does not stretch
    a match of [kw2] that starts before it over a line break. *)
Lemma single_line_swap (s rest g k : text) :
  g <> [] -> parse_assignment kw1 s = Some rest ->
  single_line kw1 s = true ->
  single_line kw2 (g ++ s) = true ->
  single_line kw2 (g ++ repl1 ++ k) = true.
Proof.
  intros Hg Hm Hs Hl.
  destruct (attempt_before_keyword kw2 s rest g k Hkw2 Hg Hm) as [E1 E2].
  destruct (single_line_lazy_body kw1 _ _ Hkw1 Hm Hs)
    as [b [r [Eb [_ [Hlz [Hdb _]]]]]].
  destruct (Hbody1 k) as [b' [r' [Eb' [Hlz' Hdb']]]].
  unfold single_line in *. rewrite E1 in Hl. rewrite E2.
  destruct (parse_assignment kw2 g) as [r2|] eqn:Hg2.
  - pose proof (parse_assignment_length _ _ _ Hg2) as Hlen.
    simpl in *. rewrite matched_app_both in * by lia. exact Hl.
  - destruct (parse_open kw2 g); [|reflexivity].
    simpl in *. rewrite Hlz in Hl. rewrite Hlz'.
    assert (Hdg : forallb dot g = true).
    { rewrite Eb, app_assoc, matched_app, forallb_app in Hl.
      apply andb_true_iff in Hl. apply Hl. }
    replace (g ++ repl1 ++ k) with ((g ++ b') ++ r' ++ k)
      by (rewrite Eb', <- !app_assoc; reflexivity).
    rewrite matched_app, forallb_app, Hdg, Hdb'. reflexivity.
Qed.

(** The pass for [kw1] does not stretch a match of [kw2] over a line
    break. *)
Lemma single_line_after_sub (s : text) :
  forall g, g <> [] ->
    single_line kw2 (g ++ s) = true ->
    single_line_matches kw1 s = true ->
    single_line kw2 (g ++ sub1 s) = true.
Proof.
  induction s as [|c s IH]; intros g Hg Hl Hs.
  - rewrite (sub_nil kw1 repl1). exact Hl.
  - destruct (parse_assignment kw1 (c :: s)) as [rest|] eqn:Hm.
    + rewrite (sub_match kw1 repl1 _ _ Hm).
      apply (single_line_swap (c :: s) rest); try assumption.
      exact (for_all_tails_head _ _ Hs).
    + rewrite (sub_copy kw1 repl1 _ _ Hm).
      change (g ++ c :: sub1 s) with (g ++ [c] ++ sub1 s).
      rewrite app_assoc. apply IH.
      * destruct g; discriminate.
      * rewrite <- app_assoc. exact Hl.
      * simpl in Hs. apply andb_true_iff in Hs. apply Hs.
Qed.

Lemma single_line_matches_after_sub (t : text) :
  single_line_matches kw2 t = true ->
  single_line_matches kw1 t = true ->
  single_line_matches kw2 (sub1 t) = true.
Proof.
  remember (length t) as n eqn:Hn. revert t Hn.
  induction n as [n IH] using lt_wf_ind. intros t Hn H2 H1.
  destruct (parse_assignment kw1 t) as [rest|] eqn:Hp.
  - pose proof (parse_assignment_length _ _ _ Hp) as Hlen.
    rewrite (sub_match kw1 repl1 _ _ Hp).
    apply single_line_skip; [apply Hforeign12|].
    destruct (parse_assignment_suffix _ _ _ Hp) as [m [E _]].
    rewrite E in H1, H2.
    apply (IH (length rest)); [lia | reflexivity | |].
    + exact (for_all_tails_app _ _ _ H2).
    + exact (for_all_tails_app _ _ _ H1).
  - destruct t as [|c t].
    + rewrite (sub_nil kw1 repl1). exact H2.
    + rewrite (sub_copy kw1 repl1 _ _ Hp).
      simpl in H1, H2. apply andb_true_iff in H1, H2.
      destruct H1 as [_ H1]. destruct H2 as [H2h H2].
      simpl. apply andb_true_iff. split.
      * apply (single_line_after_sub t [c]);
          [discriminate | exact H2h | exact H1].
      * apply (IH (length t)); [subst n; simpl; lia | reflexivity | | ];
          assumption.
Qed.

(** Replacing the match of [kw1] at the head of [s] does not turn an
    attempt for [kw2] that starts before it into a new match. *)
Lemma canonical_swap (s rest g k : text) :
  g <> [] -> parse_assignment kw1 s = Some rest ->
  single_line kw1 s = true ->
  canonical kw2 repl2 (g ++ s) ->
  canonical kw2 repl2 (g ++ repl1 ++ k).
Proof.
  intros Hg Hm Hs Hc r0 Hr.
  destruct (attempt_before_keyword kw2 s rest g k Hkw2 Hg Hm) as [E1 E2].
  destruct (single_line_lazy_body kw1 _ _ Hkw1 Hm Hs)
    as [b [r [Eb [Hb [Hlz _]]]]].
  rewrite E2 in Hr. unfold canonical in Hc. rewrite E1 in Hc.
  destruct (parse_assignment kw2 g) as [r2|] eqn:Hg2.
  - simpl in *. injection Hr as <-.
    specialize (Hc _ eq_refl). rewrite app_assoc in Hc.
    apply app_inv_tail in Hc. rewrite Hc, <- app_assoc. reflexivity.
  - destruct (parse_open kw2 g); [|discriminate].
    simpl in Hc. specialize (Hc _ Hlz).
    rewrite Eb, app_assoc in Hc. apply app_inv_tail in Hc.
    pose proof (Hforeign21 r) as Hin. rewrite <- Hc in Hin.
    rewrite Eb in Hm.
    rewrite (no_match_inside_tail _ _ _ _ Hin Hb) in Hm. discriminate.
Qed.

Lemma canonical_after_sub (s : text) :
  forall g, g <> [] ->
    canonical kw2 repl2 (g ++ s) ->
    single_line_matches kw1 s = true ->
    canonical kw2 repl2 (g ++ sub1 s).
Proof.
  induction s as [|c s IH]; intros g Hg Hc Hs.
  - rewrite (sub_nil kw1 repl1). exact Hc.
  - destruct (parse_assignment kw1 (c :: s)) as [rest|] eqn:Hm.
    + rewrite (sub_match kw1 repl1 _ _ Hm).
      apply (canonical_swap (c :: s) rest); try assumption.
      exact (for_all_tails_head _ _ Hs).
    + rewrite (sub_copy kw1 repl1 _ _ Hm).
      change (g ++ c :: sub1 s) with (g ++ [c] ++ sub1 s).
      rewrite app_assoc. apply IH.
      * destruct g; discriminate.
      * rewrite <- app_assoc. exact Hc.
      * simpl in Hs. apply andb_true_iff in Hs. apply Hs.
Qed.

(** The pass for [kw1] leaves a text all of whose [kw2] matches are the
    replacement such a text. *)
Lemma all_canonical_after_sub (t : text) :
  all_canonical kw2 repl2 t ->
  single_line_matches kw1 t = true ->
  all_canonical kw2 repl2 (sub1 t).
Proof.
  remember (length t) as n eqn:Hn. revert t Hn.
  induction n as [n IH] using lt_wf_ind. intros t Hn H2 H1.
  destruct (parse_assignment kw1 t) as [rest|] eqn:Hp.
  - pose proof (parse_assignment_length _ _ _ Hp) as Hlen.
    rewrite (sub_match kw1 repl1 _ _ Hp).
    apply all_canonical_skip; [apply Hforeign12|].
    destruct (parse_assignment_suffix _ _ _ Hp) as [m [E _]].
    rewrite E in H1, H2.
    apply (IH (length rest)); [lia | reflexivity | |].
    + exact (all_canonical_tail _ _ _ _ H2).
    + exact (for_all_tails_app _ _ _ H1).
  - destruct t as [|c t].
    + rewrite (sub_nil kw1 repl1). exact H2.
    + rewrite (sub_copy kw1 repl1 _ _ Hp).
      simpl in H1. apply andb_true_iff in H1.
      destruct H1 as [_ H1]. destruct H2 as [H2h H2].
      split.
      * apply (canonical_after_sub t [c]);
          [discriminate | exact H2h | exact H1].
      * apply (IH (length t)); [subst n; simpl; lia | reflexivity | | ];
          assumption.
Qed.

End TwoPasses.

(** *** The two passes of the reference fixer *)

Lemma urlconf_repl_body (name x : text) :
  exists b r,
    urlconf_repl name = b ++ r
    /\ lazy_body (urlconf_repl name ++ x) = Some (r ++ x)
    /\ forallb dot b = true.
Proof.
  exists (ROOT_URLCONF ++ cp " = " ++ [34]), (name ++ cp ".urls" ++ [34]).
  split; [|split; [|reflexivity]].
  - unfold urlconf_repl. rewrite <- !app_assoc. reflexivity.
  - unfold urlconf_repl. rewrite <- !app_assoc.
    rewrite (app_assoc ROOT_URLCONF).
    apply (lazy_body_clean (ROOT_URLCONF ++ cp " = ")); reflexivity.
Qed.

Lemma wsgi_repl_body (name x : text) :
  exists b r,
    wsgi_repl name = b ++ r
    /\ lazy_body (wsgi_repl name ++ x) = Some (r ++ x)
    /\ forallb dot b = true.
Proof.
  exists (WSGI_APPLICATION ++ cp " = " ++ [34]),
    (name ++ cp ".wsgi.application" ++ [34]).
  split; [|split; [|reflexivity]].
  - unfold wsgi_repl. rewrite <- !app_assoc. reflexivity.
  - unfold wsgi_repl. rewrite <- !app_assoc.
    rewrite (app_assoc WSGI_APPLICATION).
    apply (lazy_body_clean (WSGI_APPLICATION ++ cp " = ")); reflexivity.
Qed.

Lemma keyword_urlconf : keyword ROOT_URLCONF.
Proof. left. reflexivity. Qed.

Lemma keyword_wsgi : keyword WSGI_APPLICATION.
Proof. right. reflexivity. Qed.

Lemma name_ok_no_backslash (name : text) :
  name_ok name = true ->
  existsb (N.eqb BACKSLASH) (urlconf_repl name) = false
  /\ existsb (N.eqb BACKSLASH) (wsgi_repl name) = false.
Proof.
  intros Hn.
  assert (Hb : existsb (N.eqb BACKSLASH) name = false).
  { induction name as [|c name IH]; [reflexivity|].
    unfold name_ok in Hn. cbn [forallb existsb] in *.
    apply andb_true_iff in Hn. destruct Hn as [Hc Hn].
    apply andb_true_iff in Hc. destruct Hc as [_ Hc].
    apply negb_true_iff in Hc. rewrite N.eqb_sym, Hc. exact (IH Hn). }
  unfold urlconf_repl, wsgi_repl. rewrite !existsb_app, Hb.
  split; reflexivity.
Qed.

(** With a name without quotes, LF and backslash, both substitutions
    are carried out. *)
Lemma fix_references_text_runs (name t : text) :
  name_ok name = true ->
  fix_references_text name t
  = Some (sub_all (assignment_pattern WSGI_APPLICATION) (wsgi_repl name)
            (sub_all (assignment_pattern ROOT_URLCONF) (urlconf_repl name)
               t)).
Proof.
  intros Hn. destruct (name_ok_no_backslash name Hn) as [H1 H2].
  unfold fix_references_text, re_sub. rewrite H1, H2. reflexivity.
Qed.

(** C5, as stated, fails: the first pass replaces the match that runs
    over the line break, and the second pass then finds a match that
    starts on the first line. *)
Lemma fix_references_not_idempotent :
  exists t1 t2 : text,
    fix_references_text (cp "site") broken_assignment = Some t1
    /\ fix_references_text (cp "site") t1 = Some t2
    /\ t1 = cp "ROOT_URLCONF = " ++ [34] ++ cp "abc"
            ++ urlconf_repl (cp "site")
    /\ t2 = urlconf_repl (cp "site") ++ cp "site.urls" ++ [34]
    /\ t1 <> t2.
Proof.
  eexists. eexists.
  split; [vm_compute; reflexivity|].
  split; [vm_compute; reflexivity|].
  split; [vm_compute; reflexivity|].
  split; [vm_compute; reflexivity|].
  vm_compute. discriminate.
Qed.

(** C5, amended.  For a project name without quotes, LF and backslash,
    and a settings text in which no match of either pattern, wherever
    it starts, runs over a line break, the fixer produces a text that a
    second application leaves as it is. *)
Theorem fix_references_idempotent (name t : text) :
  name_ok name = true ->
  matches_on_one_line ROOT_URLCONF t ->
  matches_on_one_line WSGI_APPLICATION t ->
  exists t1 : text,
    fix_references_text name t = Some t1
    /\ fix_references_text name t1 = Some t1.
Proof.
  intros Hn HR HW. apply single_line_matches_spec in HR, HW.
  rewrite (fix_references_text_runs name t Hn).
  set (v := sub_all (assignment_pattern ROOT_URLCONF) (urlconf_repl name) t).
  set (u := sub_all (assignment_pattern WSGI_APPLICATION) (wsgi_repl name) v).
  exists u. split; [reflexivity|].
  rewrite (fix_references_text_runs name u Hn).
  assert (Hs1 : exists y, urlconf_repl name = ROOT_URLCONF ++ y)
    by (eexists; reflexivity).
  assert (Hs2 : exists y, wsgi_repl name = WSGI_APPLICATION ++ y)
    by (eexists; reflexivity).
  assert (Hv : all_canonical ROOT_URLCONF (urlconf_repl name) v).
  { apply sub_all_canonical; auto using keyword_urlconf.
    - intros x. apply parse_urlconf_repl, Hn.
    - intros x. apply inside_urlconf_own, Hn. }
  assert (HvW : single_line_matches WSGI_APPLICATION v = true).
  { apply single_line_matches_after_sub;
      auto using keyword_urlconf, keyword_wsgi.
    - intros x. apply urlconf_repl_body.
    - intros x. apply inside_urlconf_other, Hn. }
  assert (Hu : all_canonical WSGI_APPLICATION (wsgi_repl name) u).
  { apply sub_all_canonical; auto using keyword_wsgi.
    - intros x. apply parse_wsgi_repl, Hn.
    - intros x. apply inside_wsgi_own, Hn. }
  assert (HuR : all_canonical ROOT_URLCONF (urlconf_repl name) u).
  { apply all_canonical_after_sub;
      auto using keyword_urlconf, keyword_wsgi.
    - intros x. apply inside_wsgi_other, Hn.
    - intros x. apply inside_urlconf_other, Hn. }
  rewrite (all_canonical_fixed _ _ _ HuR), (all_canonical_fixed _ _ _ Hu).
  reflexivity.
Qed.

Lemma fix_references_idempotent_witness :
  exists t1 : text,
    fix_references_text (cp "My_Blog") old_settings = Some t1
    /\ fix_references_text (cp "My_Blog") t1 = Some t1.
Proof.
  apply (fix_references_idempotent (cp "My_Blog") old_settings).
  - reflexivity.
  - apply single_line_matches_spec. vm_compute. reflexivity.
  - apply single_line_matches_spec. vm_compute. reflexivity.
Defined.

(** *** An assignment at the start of a line *)

Lemma last_cons_not_None (c : N) (r : text) : last (c :: r) <> None.
Proof.
  revert c. induction r as [|d r IH]; intros c; [discriminate|].
  exact (IH d).
Qed.

Lemma ends_line_suffix (m r : text) : ends_line (m ++ r) -> ends_line r.
Proof.
  intros [E | E].
  - left. destruct m; [exact E | discriminate].
  - destruct r as [|c r]; [left; reflexivity|]. right.
    rewrite last_app in E. destruct (last (c :: r)) eqn:El; [exact E|].
    destruct (last_cons_not_None _ _ El).
Qed.

Lemma last_In (l : text) (x : N) : last l = Some x -> In x l.
Proof.
  induction l as [|c l IH]; [discriminate|]. intros Hl.
  destruct l as [|d l]; [injection Hl as <-; left; reflexivity|].
  right. apply IH. exact Hl.
Qed.

Lemma parse_open_split (kw g : text) :
  parse_open kw g = true ->
  exists ws1 ws2 q r,
    g = kw ++ ws1 ++ EQUALS :: ws2 ++ q :: r
    /\ is_quote q = true /\ clean r = true.
Proof.
  unfold parse_open. intros Hg. apply andb_true_iff in Hg.
  destruct Hg as [Hn Hg]. apply startswith_split in Hn.
  revert Hg Hn. generalize (drop (length kw) g). intros s1 Hg ->.
  unfold open_after_name in Hg.
  destruct (lstrip_split s1) as [ws1 [E1 _]].
  destruct (lstrip s1) as [|c s2]; [discriminate|].
  apply andb_true_iff in Hg. destruct Hg as [Hc Hg].
  apply N.eqb_eq in Hc. subst c. unfold open_after_equals in Hg.
  destruct (lstrip_split s2) as [ws2 [E2 _]].
  destruct (lstrip s2) as [|q r]; [discriminate|].
  apply andb_true_iff in Hg. destruct Hg as [Hq Hr].
  exists ws1, ws2, q, r. rewrite E1, E2. repeat split; assumption.
Qed.

(** A text that ends with LF is not cut inside a quoted value. *)
Lemma parse_open_ends_line (kw g : text) :
  ends_line g -> parse_open kw g = false.
Proof.
  intros Hg. destruct (parse_open kw g) eqn:Ho; [|reflexivity].
  destruct (parse_open_split _ _ Ho) as [ws1 [ws2 [q [r [E [Hq Hr]]]]]].
  destruct Hg as [Hg | Hg].
  - rewrite Hg in E. apply (f_equal (@length N)) in E.
    rewrite !length_app in E. simpl in E. rewrite !length_app in E.
    simpl in E. lia.
  - assert (Hl : last g = last (q :: r)).
    { rewrite E, !last_app.
      change (EQUALS :: ws2 ++ q :: r) with ((EQUALS :: ws2) ++ q :: r).
      rewrite last_app.
      destruct (last (q :: r)) eqn:El; [reflexivity|].
      destruct (last_cons_not_None _ _ El). }
    rewrite Hg in Hl. symmetry in Hl. apply last_In in Hl.
    destruct Hl as [Hl | Hl].
    + subst q. discriminate.
    + unfold clean in Hr. rewrite forallb_forall in Hr.
      specialize (Hr _ Hl). discriminate.
Qed.

Section LineStart.
Variables kw repl : text.
Hypothesis Hkw : keyword kw.
Hypothesis Hparse : forall x, parse_assignment kw (repl ++ x) = Some x.

Local Abbreviation sub := (sub_all (assignment_pattern kw) repl).

(** The pass over complete lines followed by a name is the pass over
    the lines followed by the pass over the rest. *)
Lemma sub_line_start (kw' y pre : text) :
  keyword kw' -> ends_line pre ->
  sub (pre ++ kw' ++ y) = sub pre ++ sub (kw' ++ y).
Proof.
  intros Hkw'. remember (length pre) as n eqn:Hn. revert pre Hn.
  induction n as [n IH] using lt_wf_ind. intros pre Hn Hpre.
  destruct pre as [|c pre']; [rewrite (sub_nil kw repl); reflexivity|].
  assert (Ep : parse_assignment kw ((c :: pre') ++ kw' ++ y)
               = continue_with (kw' ++ y)
                   (parse_assignment kw (c :: pre')) false).
  { rewrite parse_assignment_keyword by (assumption || discriminate).
    rewrite (parse_open_ends_line kw _ Hpre). reflexivity. }
  destruct (parse_assignment kw (c :: pre')) as [r|] eqn:Hp;
    cbn [continue_with] in Ep.
  - pose proof (parse_assignment_length _ _ _ Hp) as Hlen.
    destruct (parse_assignment_suffix _ _ _ Hp) as [m [E _]].
    rewrite (sub_match kw repl _ _ Ep), (sub_match kw repl _ _ Hp).
    rewrite (IH (length r)); [rewrite app_assoc; reflexivity | lia
                             | reflexivity |].
    rewrite E in Hpre. exact (ends_line_suffix _ _ Hpre).
  - cbn [app] in *.
    rewrite (sub_copy kw repl _ _ Ep), (sub_copy kw repl _ _ Hp).
    rewrite (IH (length pre')); [reflexivity | subst n; simpl; lia
                                | reflexivity |].
    exact (ends_line_suffix [c] pre' Hpre).
Qed.

(** The pass keeps the LF at the end of the text. *)
Lemma sub_ends_line (pre : text) : ends_line pre -> ends_line (sub pre).
Proof.
  remember (length pre) as n eqn:Hn. revert pre Hn.
  induction n as [n IH] using lt_wf_ind. intros pre Hn Hpre.
  destruct pre as [|c pre']; [left; apply (sub_nil kw repl)|].
  destruct Hpre as [Hpre | Hpre]; [discriminate|]. right.
  destruct (parse_assignment kw (c :: pre')) as [r|] eqn:Hp.
  - pose proof (parse_assignment_length _ _ _ Hp) as Hlen.
    rewrite (sub_match kw repl _ _ Hp).
    destruct (parse_assignment_split _ _ _ Hp)
      as [ws1 [ws2 [q1 [v [q2 [E [_ [_ [_ [_ Hq2]]]]]]]]]].
    assert (E' : c :: pre'
                 = (kw ++ ws1 ++ EQUALS :: ws2 ++ q1 :: v ++ [q2]) ++ r).
    { rewrite E, <- !app_assoc. simpl. rewrite <- !app_assoc. simpl.
      rewrite <- !app_assoc. reflexivity. }
    destruct r as [|d r].
    + rewrite E', app_nil_r in Hpre.
      change (EQUALS :: ws2 ++ q1 :: v ++ [q2])
        with ([EQUALS] ++ ws2 ++ [q1] ++ v ++ [q2]) in Hpre.
      rewrite !last_app in Hpre. simpl in Hpre.
      injection Hpre as ->. discriminate.
    + assert (Hr : ends_line (d :: r)).
      { apply (ends_line_suffix
                 (kw ++ ws1 ++ EQUALS :: ws2 ++ q1 :: v ++ [q2])).
        rewrite <- E'. right. exact Hpre. }
      destruct (IH (length (d :: r)) ltac:(lia) (d :: r) eq_refl Hr)
        as [Hs | Hs].
      * rewrite sub_all_assignment in Hs.
        destruct (parse_assignment kw (d :: r)) eqn:Hd.
        -- apply (f_equal (@length N)) in Hs.
           rewrite length_app in Hs.
           pose proof (Hparse []) as Hnil.
           apply parse_assignment_length in Hnil.
           rewrite app_nil_r in Hnil. simpl in *. lia.
        -- discriminate.
      * rewrite last_app, Hs. reflexivity.
  - rewrite (sub_copy kw repl _ _ Hp).
    destruct pre' as [|d pre''].
    + rewrite (sub_nil kw repl). exact Hpre.
    + assert (Hr : ends_line (d :: pre'')) by (right; exact Hpre).
      destruct (IH (length (d :: pre'')) ltac:(subst n; simpl; lia)
                  (d :: pre'') eq_refl Hr) as [Hs | Hs].
      * rewrite sub_all_assignment in Hs.
        destruct (parse_assignment kw (d :: pre'')) eqn:Hd.
        -- apply (f_equal (@length N)) in Hs.
           rewrite length_app in Hs.
           pose proof (Hparse []) as Hnil.
           apply parse_assignment_length in Hnil.
           rewrite app_nil_r in Hnil. simpl in *. lia.
        -- discriminate.
      * change (last (c :: sub (d :: pre'')) = Some LF).
        destruct (sub (d :: pre'')) as [|e l] eqn:Esub; [discriminate|].
        exact Hs.
Qed.

End LineStart.

(** C3, as stated, fails: the second substitution matches from the
    other name up to the opening quote of the assignment just
    rewritten, and replaces it. *)
Lemma fix_references_swallows_urlconf :
  contains (urlconf_assignment (cp "old.urls")) swallowed_assignment = true
  /\ exists out : text,
       fix_references_text (cp "My_Blog") swallowed_assignment = Some out
       /\ out = cp "X = [" ++ [34] ++ wsgi_repl (cp "My_Blog")
                ++ cp "My_Blog.urls" ++ [34]
       /\ contains (urlconf_assignment (cp "My_Blog.urls")) out = false
       /\ contains ROOT_URLCONF out = false.
Proof.
  split; [vm_compute; reflexivity|].
  eexists. split; [vm_compute; reflexivity|].
  repeat split; vm_compute; reflexivity.
Qed.

(** C3, amended.  For a project name without quotes, LF and backslash:
    when the assignment [ROOT_URLCONF = "<value>"], with any value
    without quote and LF, stands at the start of a line, the fixer
    turns it into the assignment of the name followed by [.urls],
    between what it makes of the text before and of the text after. *)
Theorem fix_references_sets_urlconf (name pre value post : text) :
  name_ok name = true -> ends_line pre -> clean value = true ->
  exists pre' post' : text,
    fix_references_text name pre = Some pre'
    /\ fix_references_text name post = Some post'
    /\ fix_references_text name (pre ++ urlconf_assignment value ++ post)
       = Some (pre' ++ urlconf_assignment (name ++ cp ".urls") ++ post').
Proof.
  intros Hn Hpre Hv.
  rewrite !(fix_references_text_runs name _ Hn).
  eexists. eexists. split; [reflexivity|]. split; [reflexivity|]. f_equal.
  assert (ER : urlconf_assignment (name ++ cp ".urls") = urlconf_repl name).
  { unfold urlconf_assignment, urlconf_repl. rewrite <- !app_assoc.
    reflexivity. }
  rewrite ER.
  assert (Hm : parse_assignment ROOT_URLCONF (urlconf_assignment value ++ post)
               = Some post).
  { unfold urlconf_assignment. rewrite <- !app_assoc.
    apply (parse_assignment_matches ROOT_URLCONF [32] [32] value post 34 34);
      try reflexivity. exact Hv. }
  assert (E1 : sub_all (assignment_pattern ROOT_URLCONF) (urlconf_repl name)
                 (pre ++ urlconf_assignment value ++ post)
               = sub_all (assignment_pattern ROOT_URLCONF)
                   (urlconf_repl name) pre
                 ++ urlconf_repl name
                 ++ sub_all (assignment_pattern ROOT_URLCONF)
                      (urlconf_repl name) post).
  { rewrite <- (sub_match _ (urlconf_repl name) _ _ Hm).
    unfold urlconf_assignment. rewrite <- !app_assoc.
    apply sub_line_start; auto using keyword_urlconf. }
  rewrite E1.
  set (p1 := sub_all (assignment_pattern ROOT_URLCONF) (urlconf_repl name)
               pre).
  set (q1 := sub_all (assignment_pattern ROOT_URLCONF) (urlconf_repl name)
               post).
  assert (Hp1 : ends_line p1).
  { apply sub_ends_line; auto using keyword_urlconf.
    intros x. apply parse_urlconf_repl, Hn. }
  rewrite <- (sub_skip WSGI_APPLICATION (wsgi_repl name)
                (urlconf_repl name) q1 (inside_urlconf_other name q1 Hn)).
  unfold urlconf_repl. rewrite <- !app_assoc.
  apply sub_line_start; auto using keyword_urlconf, keyword_wsgi.
Qed.

(** The scenario of the specification: project name [My-Blog], prior
    value [old.urls]. *)
Lemma fix_references_sets_urlconf_witness :
  safe_name (cp "My-Blog") = cp "My_Blog"
  /\ fix_references_text (safe_name (cp "My-Blog"))
       (urlconf_assignment (cp "old.urls") ++ [LF])
     = Some (urlconf_assignment (cp "My_Blog.urls") ++ [LF]).
Proof.
  split; [reflexivity|].
  destruct (fix_references_sets_urlconf (safe_name (cp "My-Blog")) []
              (cp "old.urls") [LF]) as [pre' [post' [H1 [H2 H3]]]].
  - reflexivity.
  - left. reflexivity.
  - reflexivity.
  - vm_compute in H1. injection H1 as <-.
    vm_compute in H2. injection H2 as <-.
    exact H3.
Defined.

(** ** Every match is replaced *)

Lemma parse_assignment_LF (kw s : text) :
  keyword kw -> parse_assignment kw (LF :: s) = None.
Proof. intros [-> | ->]; reflexivity. Qed.

Lemma sub_urlconf_lines (name : text) (values : list text) :
  Forall (fun v => clean v = true) values ->
  sub_all (assignment_pattern ROOT_URLCONF) (urlconf_repl name)
    (urlconf_lines values)
  = urlconf_lines (List.map (fun _ => name ++ cp ".urls") values).
Proof.
  induction 1 as [|v values Hv _ IH]; [reflexivity|].
  unfold urlconf_lines in *. cbn [List.map concat].
  rewrite <- !app_assoc.
  rewrite (sub_match ROOT_URLCONF (urlconf_repl name) _
             ([LF] ++ concat
                (List.map (fun v0 => urlconf_assignment v0 ++ [LF]) values))).
  - cbn [app].
    rewrite (sub_copy ROOT_URLCONF (urlconf_repl name))
      by (apply parse_assignment_LF, keyword_urlconf).
    rewrite IH. unfold urlconf_assignment, urlconf_repl.
    rewrite <- !app_assoc. reflexivity.
  - unfold urlconf_assignment. rewrite <- !app_assoc.
    apply (parse_assignment_matches ROOT_URLCONF [32] [32] v _ 34 34);
      try reflexivity. exact Hv.
Qed.

Lemma sub_wsgi_urlconf_lines (name : text) (n : list text) :
  name_ok name = true ->
  sub_all (assignment_pattern WSGI_APPLICATION) (wsgi_repl name)
    (urlconf_lines (List.map (fun _ => name ++ cp ".urls") n))
  = urlconf_lines (List.map (fun _ => name ++ cp ".urls") n).
Proof.
  intros Hn. induction n as [|v n IH]; [reflexivity|].
  unfold urlconf_lines in *. cbn [List.map concat].
  assert (ER : urlconf_assignment (name ++ cp ".urls") = urlconf_repl name).
  { unfold urlconf_assignment, urlconf_repl. rewrite <- !app_assoc.
    reflexivity. }
  rewrite ER, <- !app_assoc.
  rewrite (sub_skip WSGI_APPLICATION (wsgi_repl name) (urlconf_repl name))
    by (apply inside_urlconf_other, Hn).
  cbn [app].
  rewrite (sub_copy WSGI_APPLICATION (wsgi_repl name))
    by (apply parse_assignment_LF, keyword_wsgi).
  rewrite <- ER, IH. reflexivity.
Qed.

(** C2, as stated, fails: the second occurrence is replaced as well. *)
Lemma fix_references_replaces_second :
  fix_references_text (cp "site") two_urlconfs
  = Some (urlconf_assignment (cp "site.urls") ++ [LF]
          ++ urlconf_assignment (cp "site.urls") ++ [LF])
  /\ fix_references_text (cp "site") two_urlconfs
     <> Some (urlconf_assignment (cp "site.urls") ++ [LF]
              ++ urlconf_assignment (cp "b.urls") ++ [LF]).
Proof.
  split; [vm_compute; reflexivity|].
  vm_compute. discriminate.
Qed.

(** C2, amended.  For a project name without quotes, LF and backslash,
    the fixer runs both substitutions, and each of them replaces every
    match of its pattern found from left to right: a match at the
    current position is replaced and the scan goes on after it; where
    there is none, one character is copied.  So in a text of
    [ROOT_URLCONF] assignments, one per line, every one is replaced. *)
Theorem fix_references_replaces_every_match (name : text) :
  name_ok name = true ->
  (forall t,
      fix_references_text name t
      = Some (sub_all (assignment_pattern WSGI_APPLICATION) (wsgi_repl name)
                (sub_all (assignment_pattern ROOT_URLCONF)
                   (urlconf_repl name) t)))
  /\ (forall kw repl s rest,
         match_here (assignment_pattern kw) s = Some rest ->
         sub_all (assignment_pattern kw) repl s
         = repl ++ sub_all (assignment_pattern kw) repl rest)
  /\ (forall kw repl c s,
         match_here (assignment_pattern kw) (c :: s) = None ->
         sub_all (assignment_pattern kw) repl (c :: s)
         = c :: sub_all (assignment_pattern kw) repl s)
  /\ (forall values,
         Forall (fun v => clean v = true) values ->
         fix_references_text name (urlconf_lines values)
         = Some (urlconf_lines
                   (List.map (fun _ => name ++ cp ".urls") values))).
Proof.
  intros Hn. split; [|split; [|split]].
  - intros t. apply fix_references_text_runs, Hn.
  - intros kw repl s rest Hm. rewrite match_here_assignment in Hm.
    apply sub_match, Hm.
  - intros kw repl c s Hm. rewrite match_here_assignment in Hm.
    apply sub_copy, Hm.
  - intros values Hv. rewrite (fix_references_text_runs name _ Hn).
    rewrite (sub_urlconf_lines name values Hv).
    rewrite (sub_wsgi_urlconf_lines name values Hn). reflexivity.
Qed.

Lemma fix_references_replaces_every_match_witness :
  fix_references_text (cp "site") (urlconf_lines [cp "a.urls"; cp "b.urls"])
  = Some (urlconf_lines [cp "site.urls"; cp "site.urls"]).
Proof.
  apply (fix_references_replaces_every_match (cp "site")).
  - reflexivity.
  - repeat constructor.
Defined.

(** ** The environment file *)


Lemma replace_from_fuel (old new : text) (f1 : nat) :
  old <> [] ->
  forall (f2 : nat) (s : text),
    (length s <= f1)%nat -> (length s <= f2)%nat ->
    replace_from f1 old new s = replace_from f2 old new s.
Proof.
  intros Hold. induction f1 as [|f1 IH]; intros f2 s H1 H2.
  - destruct s; [|simpl in H1; lia]. destruct f2; [reflexivity|].
    simpl. destruct old; [congruence | reflexivity].
  - destruct f2 as [|f2].
    + destruct s; [|simpl in H2; lia].
      simpl. destruct old; [congruence | reflexivity].
    + cbn [replace_from]. destruct (startswith old s) eqn:Hs.
      * f_equal. pose proof (startswith_length _ _ Hs) as Hl.
        assert (length old <> 0)%nat
          by (destruct old; [congruence | discriminate]).
        apply IH; rewrite length_drop; lia.
      * destruct s as [|c s']; [reflexivity|]. f_equal.
        simpl in H1, H2. apply IH; lia.
Qed.

(** The scan of [str.replace], one position at a time. *)
Lemma str_replace_unfold (old new s : text) :
  old <> [] ->
  str_replace old new s
  = if startswith old s
    then new ++ str_replace old new (drop (length old) s)
    else match s with
         | [] => []
         | c :: s' => c :: str_replace old new s'
         end.
Proof.
  intros Hold. unfold str_replace.
  destruct old as [|a old']; [congruence|].
  set (old := a :: old') in *.
  destruct s as [|c s']; [reflexivity|].
  cbn [length replace_from].
  destruct (startswith old (c :: s')) eqn:Hs.
  - f_equal. apply replace_from_fuel; [exact Hold | | lia].
    rewrite length_drop. simpl. lia.
  - reflexivity.
Qed.




Lemma placeholder_nonempty : PLACEHOLDER <> [].
Proof. discriminate. Qed.








Section EnvironmentFile.
Context `{Environment}.


End EnvironmentFile.


(** * Further properties of the code *)

(** ** Safe names *)

Lemma safe_name_length (name : text) : length (safe_name name) = length name.
Proof. apply length_map. Qed.

Lemma safe_name_no_hyphen (name : text) : ~ In HYPHEN (safe_name name).
Proof.
  unfold safe_name. intros Hin. apply in_map_iff in Hin.
  destruct Hin as [c [Hc _]]. destruct (c =? 45) eqn:E.
  - discriminate.
  - apply N.eqb_neq in E. subst c. apply E. reflexivity.
Qed.

Lemma safe_name_fixed (name : text) :
  ~ In HYPHEN name -> safe_name name = name.
Proof.
  unfold safe_name. induction name as [|c name IH]; intros Hn; [reflexivity|].
  simpl. rewrite IH by (intros Hin; apply Hn; right; exact Hin).
  destruct (c =? 45) eqn:E; [|reflexivity].
  apply N.eqb_eq in E. exfalso. apply Hn. left. exact E.
Qed.

(** X1.  [name.replace("-", "_")]: the safe name has the length of the
    name, holds no hyphen, differs from the name only where the name
    has a hyphen (there it has an underscore), and making a safe name
    safe again changes nothing. *)
Theorem safe_name_spec (name : text) :
  length (safe_name name) = length name
  /\ ~ In HYPHEN (safe_name name)
  /\ (forall i c, name !! i = Some c ->
        safe_name name !! i = Some (if c =? HYPHEN then 95 else c))
  /\ safe_name (safe_name name) = safe_name name.
Proof.
  split; [apply safe_name_length|].
  split; [apply safe_name_no_hyphen|].
  split.
  - unfold safe_name. induction name as [|d name IH]; intros i c Hi;
      [discriminate|].
    destruct i as [|i]; [injection Hi as ->; reflexivity|].
    exact (IH i c Hi).
  - apply safe_name_fixed, safe_name_no_hyphen.
Qed.

(** ** The reference fixer on a text without the names *)

Lemma contains_false_inv (p : text) (c : N) (s : text) :
  contains p (c :: s) = false ->
  startswith p (c :: s) = false /\ contains p s = false.
Proof. simpl. intros Hc. apply orb_false_iff in Hc. exact Hc. Qed.

Lemma sub_all_absent (kw repl t : text) :
  contains kw t = false -> sub_all (assignment_pattern kw) repl t = t.
Proof.
  induction t as [|c t IH]; intros Hc.
  - rewrite sub_all_assignment. unfold parse_assignment.
    simpl in Hc. rewrite orb_false_r in Hc. rewrite Hc. reflexivity.
  - destruct (contains_false_inv _ _ _ Hc) as [Hs Ht].
    rewrite sub_all_assignment. unfold parse_assignment. rewrite Hs.
    rewrite (IH Ht). reflexivity.
Qed.

Lemma repl_no_backslash (name : text) :
  existsb (N.eqb BACKSLASH) name = false ->
  existsb (N.eqb BACKSLASH) (urlconf_repl name) = false
  /\ existsb (N.eqb BACKSLASH) (wsgi_repl name) = false.
Proof.
  intros Hb. unfold urlconf_repl, wsgi_repl. rewrite !existsb_app, Hb.
  split; reflexivity.
Qed.

(** X2.  Where neither name occurs in the settings text, the fixer
    hands the text it has read to [write_text] unchanged (the project
    name being without backslash). *)
Theorem fix_references_absent (name t : text) :
  existsb (N.eqb BACKSLASH) name = false ->
  contains ROOT_URLCONF t = false ->
  contains WSGI_APPLICATION t = false ->
  fix_references_text name t = Some t.
Proof.
  intros Hb HR HW. destruct (repl_no_backslash name Hb) as [H1 H2].
  unfold fix_references_text, re_sub. rewrite H1, H2.
  transitivity
    (Some (sub_all (assignment_pattern WSGI_APPLICATION) (wsgi_repl name)
             (sub_all (assignment_pattern ROOT_URLCONF) (urlconf_repl name)
                t))); [reflexivity|].
  rewrite (sub_all_absent _ _ _ HR), (sub_all_absent _ _ _ HW).
  reflexivity.
Qed.

Lemma fix_references_absent_witness :
  fix_references_text (cp "My_Blog") sample_settings = Some sample_settings.
Proof.
  apply fix_references_absent; vm_compute; reflexivity.
Defined.

(** ** The app registrar: when nothing is inserted, what is kept *)

Lemma add_app_loop_no_marker_state (app_name : text) (lines : list text) :
  existsb is_marker lines = false ->
  snd (add_app_loop app_name lines ([], false)) = false.
Proof.
  induction lines as [|l ls IH]; intros Hm; [reflexivity|].
  simpl in Hm. apply orb_false_iff in Hm. destruct Hm as [Hl Hls].
  rewrite add_app_loop_cons. cbn [snd]. rewrite Hl. simpl.
  exact (IH Hls).
Qed.

(** X3.  When the app name does not occur in the text and no line at
    or after the first marker line starts (stripped) with the closer,
    nothing is inserted: the text handed to [write_text] is the lines,
    each followed by LF.  [a]: the lines before the first marker line;
    [b]: the other lines.  This is what happens to a list that is
    closed on the line that opens it. *)
Theorem add_app_no_closer_no_insertion
  (content app_name : text) (a b : list text) :
  contains app_name content = false ->
  splitlines content = a ++ b ->
  existsb is_marker a = false ->
  existsb is_closer b = false ->
  add_app_text content app_name = Some (render (a ++ b))
  /\ (contains app_name (render (a ++ b)) = false ->
      add_app_text (render (a ++ b)) app_name = Some (render (a ++ b))).
Proof.
  intros Happ Hlines Ha Hb.
  assert (Hloop : forall ls, ls = a ++ b ->
            fst (add_app_loop app_name ls ([], false)) = render ls).
  { intros ls ->. rewrite add_app_loop_app. cbn [fst].
    rewrite (add_app_loop_no_marker _ _ Ha).
    rewrite (add_app_loop_no_marker_state _ _ Ha).
    rewrite (add_app_loop_no_closer _ _ false Hb). cbn [fst].
    rewrite render_app. reflexivity. }
  split.
  - unfold add_app_text. rewrite Happ, Hlines, (Hloop _ eq_refl).
    reflexivity.
  - intros Hr. unfold add_app_text. rewrite Hr.
    rewrite splitlines_render, (Hloop _ eq_refl); [reflexivity|].
    intros l c Hl Hc. rewrite <- Hlines in Hl.
    destruct (splitlines_from_chars _ _ _ _ Hl Hc) as [Hbr _]. exact Hbr.
Qed.

Lemma add_app_no_closer_no_insertion_witness :
  add_app_text one_line_list (cp "blog") = Some one_line_list.
Proof.
  apply (add_app_no_closer_no_insertion one_line_list (cp "blog")
           [cp "DEBUG = True"]
           [cp "INSTALLED_APPS = ['django.contrib.admin']"]);
    vm_compute; reflexivity.
Defined.

(** What the loop writes, from either state: the lines with the entry
    in front of some closer lines, at most one for each marker line
    (and one more when the loop starts inside the block). *)
Lemma add_app_loop_keeps (app_name : text) (lines : list text) :
  forall b : bool,
    exists flags : list bool,
      length flags = length lines
      /\ fst (add_app_loop app_name lines ([], b))
         = with_entries (app_entry app_name) flags lines
      /\ (forall i l, flags !! i = Some true -> lines !! i = Some l ->
          is_closer l = true)
      /\ (length (List.filter id flags)
          <= (if b then 1 else 0) + length (List.filter is_marker lines))%nat.
Proof.
  induction lines as [|l ls IH]; intros b.
  - exists []. repeat split; [intros i l Hi; discriminate Hi | simpl; lia].
  - destruct (IH ((is_marker l || b) && negb (is_closer l)))
      as (flags & Hlen & Hout & Hclose & Hcount).
    exists (((is_marker l || b) && is_closer l) :: flags).
    split; [simpl; rewrite Hlen; reflexivity|].
    split; [|split].
    + rewrite add_app_loop_cons. cbn [fst]. rewrite Hout.
      unfold with_entries. cbn [zip_with concat].
      rewrite <- !app_assoc. reflexivity.
    + intros [|i] x Hi Hx.
      * simpl in Hi, Hx. injection Hi as Hi. injection Hx as <-.
        apply andb_true_iff in Hi. apply Hi.
      * exact (Hclose i x Hi Hx).
    + cbn [List.filter length] in *.
      destruct (is_marker l), b, (is_closer l);
        cbn [orb andb negb id List.filter length] in *; lia.
Qed.

(** X4.  The registrar loses nothing and inserts at most once per
    marker line: what is handed to [write_text] is the lines of the
    text, each followed by LF, with the entry put in front of some of
    them; a line that gets the entry is a closer line, and the number
    of entries is at most the number of lines that contain the
    marker. *)
Theorem add_app_keeps_text (content app_name new_content : text) :
  add_app_text content app_name = Some new_content ->
  exists flags : list bool,
    length flags = length (splitlines content)
    /\ new_content
       = with_entries (app_entry app_name) flags (splitlines content)
    /\ (forall i l,
           flags !! i = Some true -> splitlines content !! i = Some l ->
           is_closer l = true)
    /\ (length (List.filter id flags)
        <= length (List.filter is_marker (splitlines content)))%nat.
Proof.
  unfold add_app_text. destruct (contains app_name content); [discriminate|].
  intros Hnew. injection Hnew as <-.
  exact (add_app_loop_keeps app_name (splitlines content) false).
Qed.

(** Two blocks: the entry goes in front of the second and the fourth
    line, the two closer lines. *)
Lemma add_app_keeps_text_witness :
  add_app_text two_blocks (cp "blog")
  = Some (with_entries (app_entry (cp "blog")) [false; true; false; true]
            (splitlines two_blocks))
  /\ exists flags : list bool,
       length flags = length (splitlines two_blocks)
       /\ with_entries (app_entry (cp "blog")) [false; true; false; true]
            (splitlines two_blocks)
          = with_entries (app_entry (cp "blog")) flags (splitlines two_blocks)
       /\ (forall i l,
              flags !! i = Some true ->
              splitlines two_blocks !! i = Some l -> is_closer l = true)
       /\ (length (List.filter id flags)
           <= length (List.filter is_marker (splitlines two_blocks)))%nat.
Proof.
  assert (Hrun : add_app_text two_blocks (cp "blog")
                 = Some (with_entries (app_entry (cp "blog"))
                           [false; true; false; true]
                           (splitlines two_blocks)))
    by (vm_compute; reflexivity).
  split; [exact Hrun|].
  exact (add_app_keeps_text two_blocks (cp "blog") _ Hrun).
Defined.

(** ** The environment file: what the replacement keeps and puts in *)

Lemma str_replace_absent (old new s : text) :
  old <> [] -> contains old s = false -> str_replace old new s = s.
Proof.
  intros Hold. induction s as [|c s IH]; intros Hc.
  - rewrite str_replace_unfold by exact Hold.
    simpl in Hc. rewrite orb_false_r in Hc. rewrite Hc. reflexivity.
  - destruct (contains_false_inv _ _ _ Hc) as [Hs Ht].
    rewrite str_replace_unfold by exact Hold. rewrite Hs, (IH Ht).
    reflexivity.
Qed.

Lemma str_replace_present (old new s : text) :
  old <> [] -> contains old s = true ->
  contains new (str_replace old new s) = true.
Proof.
  intros Hold. induction s as [|c s IH]; intros Hc;
    rewrite str_replace_unfold by exact Hold.
  - simpl in Hc. rewrite orb_false_r in Hc. rewrite Hc.
    apply (contains_middle new []).
  - destruct (startswith old (c :: s)) eqn:Hs.
    + apply (contains_middle new []).
    + simpl in Hc. rewrite Hs in Hc. simpl in Hc.
      apply (contains_app_r new [c]). exact (IH Hc).
Qed.

(** X5.  The text of the environment file, [template.replace(...)]: a
    template without the placeholder is taken as it is; a template
    with the placeholder gives a text in which the key occurs. *)
Theorem env_text_spec (key template : text) :
  (contains PLACEHOLDER template = false ->
   str_replace PLACEHOLDER key template = template)
  /\ (contains PLACEHOLDER template = true ->
      contains key (str_replace PLACEHOLDER key template) = true).
Proof.
  split.
  - apply str_replace_absent, placeholder_nonempty.
  - apply str_replace_present, placeholder_nonempty.
Qed.

Lemma env_text_spec_witness :
  str_replace PLACEHOLDER (cp "s3cr3t") (cp "DEBUG=1") = cp "DEBUG=1"
  /\ contains (cp "s3cr3t")
       (str_replace PLACEHOLDER (cp "s3cr3t") (cp "KEY={{SECRET_KEY}}"))
     = true.
Proof.
  split.
  - apply (proj1 (env_text_spec (cp "s3cr3t") (cp "DEBUG=1"))).
    reflexivity.
  - apply (proj2 (env_text_spec (cp "s3cr3t") (cp "KEY={{SECRET_KEY}}"))).
    reflexivity.
Defined.

(** ** What the two patchers leave alone *)

Lemma store_file_frame (p q : path) (c : text) (w : world) :
  q <> p ->
  fs (final_world (store_file p c w)) !! q = fs w !! q
  /\ stdout (final_world (store_file p c w)) = stdout w.
Proof.
  intros Hq. unfold store_file.
  destruct (fs w !! p) as [[x|]|];
    destruct (fs w !! parent p) as [[y|]|]; cbn;
    try (split; reflexivity);
    (split; [apply lookup_insert_ne; congruence | reflexivity]).
Qed.

Section Frame.
Context `{Environment}.

(** X6.  [add_app_to_settings] and [fix_project_references] touch the
    settings file only: whatever the outcome, every other path of the
    file system is as before, and nothing is printed. *)
Theorem patchers_frame (settings_path q : path) (name : text) (w : world) :
  q <> settings_path ->
  (fs (final_world (add_app_to_settings settings_path name w)) !! q
   = fs w !! q
   /\ stdout (final_world (add_app_to_settings settings_path name w))
      = stdout w)
  /\ (fs (final_world (fix_project_references settings_path name w)) !! q
      = fs w !! q
      /\ stdout (final_world (fix_project_references settings_path name w))
         = stdout w).
Proof.
  intros Hq. split.
  - unfold add_app_to_settings, mbind, M_bind, read_text.
    destruct (fs w !! settings_path) as [[raw|]|]; try (split; reflexivity).
    destruct (add_app_text (universal_newlines raw) name);
      [|split; reflexivity].
    apply store_file_frame, Hq.
  - unfold fix_project_references, mbind, M_bind, read_text.
    destruct (fs w !! settings_path) as [[raw|]|]; try (split; reflexivity).
    destruct (fix_references_text name (universal_newlines raw));
      [|split; reflexivity].
    apply store_file_frame, Hq.
Qed.

End Frame.

Lemma patchers_frame_witness :
  fs (final_world (@add_app_to_settings example_env [cp "settings.py"]
                     (cp "blog") settings_world)) !! []
  = fs settings_world !! [].
Proof.
  destruct (@patchers_frame example_env [cp "settings.py"] [] (cp "blog")
              settings_world) as [[P _] _].
  - discriminate.
  - exact P.
Defined.

(** ** Copying the preset files *)





(** ** The project command: where it can exit *)

Lemma bind_run {A B : Type} (m : M A) (k : A -> M B) (w : world) :
  (m ≫= k) w
  = match m w with
    | Ok a w' => k a w'
    | SystemExit c w' => SystemExit c w'
    | Raised e w' => Raised e w'
    end.
Proof. reflexivity. Qed.

Lemma bind_Ok_inv {A B : Type} (m : M A) (k : A -> M B) (w : world)
  (b : B) (w' : world) :
  (m ≫= k) w = Ok b w' -> exists a w0, m w = Ok a w0 /\ k a w0 = Ok b w'.
Proof.
  rewrite bind_run. destruct (m w) as [a w0| |]; [eauto | discriminate..].
Qed.

Lemma bind_exit_inv {A B : Type} (m : M A) (k : A -> M B) (w : world)
  (c : Z) (w' : world) :
  (m ≫= k) w = SystemExit c w' ->
  m w = SystemExit c w'
  \/ exists a w0, m w = Ok a w0 /\ k a w0 = SystemExit c w'.
Proof.
  rewrite bind_run. destruct (m w) as [a w0| |]; [eauto | | discriminate].
  intros Hx. injection Hx as <- <-. left. reflexivity.
Qed.

Lemma bind_Ok {A B : Type} (m : M A) (k : A -> M B) (w : world)
  (a : A) (w0 : world) :
  m w = Ok a w0 -> (m ≫= k) w = k a w0.
Proof. intros E. rewrite bind_run, E. reflexivity. Qed.

Lemma echo_Ok (msg : text) (w : world) (a : unit) (w' : world) :
  echo msg w = Ok a w' -> fs w' = fs w /\ stdout w' = stdout w ++ [msg].
Proof. intros E. injection E as _ <-. split; reflexivity. Qed.

Lemma exists_path_Ok (p : path) (w : world) (b : bool) (w' : world) :
  exists_path p w = Ok b w' ->
  w' = w /\ b = bool_decide (is_Some (lookup_path (fs w) p)).
Proof. intros E. injection E as <- <-. split; reflexivity. Qed.

Lemma iterdir_Ok (p : path) (w : world) (l : list path) (w' : world) :
  iterdir p w = Ok l w' ->
  w' = w /\ fs w !! p = Some Dir /\ l = children p (fs w).
Proof.
  unfold iterdir. destruct (fs w !! p) as [[x|]|]; try discriminate.
  intros E. injection E as <- <-. repeat split.
Qed.

Lemma on_path_Ok {A : Type} (p : path) (op : path -> M A) (w : world)
  (a : A) (w' : world) :
  on_path p op w = Ok a w' ->
  exists q, resolve (fs w) p = Found q /\ op q w = Ok a w'.
Proof.
  unfold on_path. destruct (resolve (fs w) p) as [q| |]; try discriminate.
  eauto.
Qed.

(** The directory check: what it answers, and that it leaves the world
    alone. *)
Lemma occupied_Ok (root : path) (w : world) (occupied : bool) (w' : world) :
  (if bool_decide (is_Some (lookup_path (fs w) root))
   then entries ← on_path root iterdir;
        mret (negb (bool_decide (entries = [])))
   else mret false) w = Ok occupied w' ->
  w' = w
  /\ (occupied = false ->
      lookup_path (fs w) root = None
      \/ exists q, resolve (fs w) root = Found q
                   /\ fs w !! q = Some Dir /\ children q (fs w) = []).
Proof.
  destruct (bool_decide (is_Some (lookup_path (fs w) root))) eqn:Hthere.
  - intros Hrun. apply bind_Ok_inv in Hrun as (entries & wc & E1 & E2).
    apply on_path_Ok in E1 as (q & Hq & E1).
    apply iterdir_Ok in E1 as (-> & Hdir & ->).
    injection E2 as <- <-. split; [reflexivity|].
    intros Hocc. right. exists q. repeat split; [exact Hq | exact Hdir|].
    apply negb_false_iff, bool_decide_eq_true_1 in Hocc. exact Hocc.
  - intros Hrun. injection Hrun as <- <-. split; [reflexivity|].
    intros _. left. apply bool_decide_eq_false_1 in Hthere.
    destruct (lookup_path (fs w) root) eqn:E; [|reflexivity].
    exfalso. apply Hthere. eauto.
Qed.

Lemma never_exits_bind {A B : Type} (m : M A) (k : A -> M B) :
  never_exits m -> (forall a, never_exits (k a)) -> never_exits (m ≫= k).
Proof.
  intros Hm Hk w c w' Hrun. rewrite bind_run in Hrun.
  destruct (m w) as [a w1 | c1 w1 | e w1] eqn:E.
  - exact (Hk a _ _ _ Hrun).
  - exact (Hm _ _ _ E).
  - discriminate.
Qed.

Lemma never_exits_ret {A : Type} (a : A) : never_exits (mret a).
Proof. intros w c w'. discriminate. Qed.

Lemma never_exits_if {A : Type} (b : bool) (m1 m2 : M A) :
  never_exits m1 -> never_exits m2 -> never_exits (if b then m1 else m2).
Proof. destruct b; trivial. Qed.

Lemma never_exits_echo (msg : text) : never_exits (echo msg).
Proof. intros w c w'. discriminate. Qed.

Lemma never_exits_path_exists (p : path) : never_exits (path_exists p).
Proof. intros w c w'. discriminate. Qed.

Lemma never_exits_exists_path (p : path) : never_exits (exists_path p).
Proof. intros w c w'. discriminate. Qed.

Lemma never_exits_on_path {A : Type} (p : path) (op : path -> M A) :
  (forall q, never_exits (op q)) -> never_exits (on_path p op).
Proof.
  intros Hop w c w'. unfold on_path.
  destruct (resolve (fs w) p) as [q| |]; [apply Hop | discriminate..].
Qed.

Lemma never_exits_iterdir (p : path) : never_exits (iterdir p).
Proof.
  intros w c w'. unfold iterdir. destruct (fs w !! p) as [[x|]|]; discriminate.
Qed.

Lemma never_exits_mkdir (p : path) : never_exits (mkdir_exist_ok p).
Proof.
  intros w c w'. unfold mkdir_exist_ok.
  destruct (fs w !! p) as [[x|]|]; try discriminate.
  destruct (fs w !! parent p) as [[y|]|]; discriminate.
Qed.

Lemma never_exits_store_file (p : path) (s : text) :
  never_exits (store_file p s).
Proof.
  intros w c w'. unfold store_file.
  destruct (fs w !! p) as [[x|]|];
    destruct (fs w !! parent p) as [[y|]|]; discriminate.
Qed.

Lemma never_exits_read_text (p : path) : never_exits (read_text p).
Proof.
  intros w c w'. unfold read_text.
  destruct (fs w !! p) as [[x|]|]; discriminate.
Qed.

Lemma never_exits_shutil_copy (src dst : path) :
  never_exits (shutil_copy src dst).
Proof.
  intros w c w'. unfold shutil_copy.
  destruct (fs w !! src) as [[x|]|]; try discriminate.
  apply never_exits_store_file.
Qed.

Lemma never_exits_copy_to (src dst : path) : never_exits (copy_to src dst).
Proof.
  intros w c w'. unfold copy_to.
  destruct (fs w !! src) as [[x|]|]; [|discriminate..].
  destruct (resolve (fs w) dst) as [d| |]; [|discriminate..].
  apply never_exits_shutil_copy.
Qed.

Lemma never_exits_for_each {A : Type} (body : A -> M unit) (l : list A) :
  (forall x, never_exits (body x)) -> never_exits (for_each body l).
Proof.
  intros Hb. induction l as [|x l IH]; [apply never_exits_ret|].
  cbn [for_each]. apply never_exits_bind; [apply Hb | intros _; exact IH].
Qed.

Section Exits.
Context `{Environment}.

Lemma never_exits_subprocess_run (argv : list text) (check : bool)
  (dir : path) : never_exits (subprocess_run argv check dir).
Proof.
  intros w c w'. unfold subprocess_run.
  destruct (run_process argv dir (fs w)) as [[rc m]|]; [|discriminate].
  destruct (check && negb (rc =? 0)%Z); discriminate.
Qed.

Lemma never_exits_add_app (p : path) (app_name : text) :
  never_exits (add_app_to_settings p app_name).
Proof.
  unfold add_app_to_settings.
  apply never_exits_bind; [apply never_exits_read_text|]. intros content.
  destruct (add_app_text content app_name);
    [apply never_exits_store_file | apply never_exits_ret].
Qed.

Lemma never_exits_fix (p : path) (name : text) :
  never_exits (fix_project_references p name).
Proof.
  unfold fix_project_references.
  apply never_exits_bind; [apply never_exits_read_text|]. intros content.
  destruct (fix_references_text name content);
    [apply never_exits_store_file | intros w c w'; discriminate].
Qed.

Lemma never_exits_env (preset_path project_root : path) :
  never_exits (env_step preset_path project_root).
Proof.
  unfold env_step.
  apply never_exits_bind; [apply never_exits_exists_path|]. intros b.
  apply never_exits_if; [|apply never_exits_ret].
  apply never_exits_bind;
    [apply never_exits_on_path; intros q; apply never_exits_read_text|].
  intros t. apply never_exits_on_path. intros q.
  apply never_exits_store_file.
Qed.

Lemma never_exits_copy (project_root file : path) :
  never_exits (copy_preset_path project_root file).
Proof.
  unfold copy_preset_path.
  apply never_exits_if; [apply never_exits_copy_to | apply never_exits_ret].
Qed.

End Exits.

Section ProjectExits.
Context `{Environment}.

(** X8.  Whatever the arguments and the world, when the command ends in
    [SystemExit] the status is 1 and the file system is the one it
    started from: after the two checks no step exits, every later
    failure is an exception. *)
Theorem project_exits_early
  (project_name app_name preset : text) (install : bool)
  (w w' : world) (code : Z) :
  project project_name app_name preset install w = SystemExit code w' ->
  code = 1%Z /\ fs w' = fs w.
Proof.
  unfold project. intros Hrun.
  apply bind_exit_inv in Hrun as [Hx | (u & w0 & E0 & Hrun)];
    [destruct (never_exits_echo _ _ _ _ Hx)|].
  apply echo_Ok in E0 as [Hfs0 _].
  apply bind_exit_inv in Hrun as [Hx | (found & w1 & E1 & Hrun)];
    [destruct (never_exits_exists_path _ _ _ _ Hx)|].
  apply exists_path_Ok in E1 as [-> _].
  destruct found; cbn [negb] in Hrun.
  2:{ rewrite bind_run in Hrun. cbn [echo sys_exit] in Hrun.
      injection Hrun as <- <-. split; [reflexivity | exact Hfs0]. }
  apply bind_exit_inv in Hrun as [Hx | (there & w1 & E1 & Hrun)];
    [destruct (never_exits_exists_path _ _ _ _ Hx)|].
  apply exists_path_Ok in E1 as [-> _].
  apply bind_exit_inv in Hrun as [Hx | (occ & w1 & E1 & Hrun)].
  { exfalso. revert Hx.
    apply never_exits_if; [|apply never_exits_ret].
    apply never_exits_bind; [|intros ?; apply never_exits_ret].
    apply never_exits_on_path. intros q. apply never_exits_iterdir. }
  assert (Hw1 : w1 = w0).
  { destruct there.
    - apply bind_Ok_inv in E1 as (entries & wc & E1 & E2).
      apply on_path_Ok in E1 as (q & _ & E1).
      apply iterdir_Ok in E1 as (-> & _). injection E2 as _ <-. reflexivity.
    - injection E1 as _ <-. reflexivity. }
  subst w1. destruct occ.
  - rewrite bind_run in Hrun. cbn [echo sys_exit] in Hrun.
    injection Hrun as <- <-. split; [reflexivity | exact Hfs0].
  - exfalso. revert Hrun.
    repeat first
      [ apply never_exits_fix
      | apply never_exits_add_app
      | apply never_exits_env
      | apply never_exits_copy
      | apply never_exits_copy_to
      | apply never_exits_for_each; intros ?
      | apply never_exits_mkdir
      | apply never_exits_subprocess_run
      | apply never_exits_exists_path
      | apply never_exits_iterdir
      | apply never_exits_echo
      | apply never_exits_ret
      | apply never_exits_if
      | apply never_exits_on_path; intros ?
      | apply never_exits_bind; [|intros ?] ].
Qed.

End ProjectExits.

Lemma project_exits_early_witness :
  @project example_env (cp "blog") (cp "app") (cp "base") false occupied_world
  = SystemExit 1
      (World (fs occupied_world)
         [cp "Starting Django project 'blog' with preset 'base'";
          cp "Preset 'base' not found."])
  /\ fs (World (fs occupied_world)
            [cp "Starting Django project 'blog' with preset 'base'";
             cp "Preset 'base' not found."]) = fs occupied_world.
Proof.
  split; [vm_compute; reflexivity|].
  apply (@project_exits_early example_env (cp "blog") (cp "app") (cp "base")
           false occupied_world
           (World (fs occupied_world)
              [cp "Starting Django project 'blog' with preset 'base'";
               cp "Preset 'base' not found."]) 1%Z).
  vm_compute. reflexivity.
Defined.

Section ProjectGenerator.
Context `{Environment}.

(** X9.  No rollback: with the preset present and nothing yet at the
    place [root] that the path of the target directory leads to, in a
    directory, when [django-admin startproject] (run in the new
    directory with the safe project name and [.]) returns a non-zero
    code, the command ends with [CalledProcessError]; the directory
    has been created before the generator ran, no later step runs, and
    the file system is the one the generator left. *)
Theorem project_generator_fails
  (project_name app_name preset : text) (install : bool) (w : world)
  (root : path) (rc : Z) (m : gmap path node) :
  is_Some (lookup_path (fs w) (joinpath PRESETS_DIR preset)) ->
  resolve (fs w) (joinpath cwd project_name) = Found root ->
  fs w !! root = None ->
  fs w !! parent root = Some Dir ->
  run_process [cp "django-admin"; cp "startproject";
               safe_name project_name; cp "."]
    root (<[root := Dir]> (fs w))
  = Some (rc, m) ->
  rc <> 0%Z ->
  let o := project project_name app_name preset install w in
  o = Raised CalledProcessError
        (World m (stdout w ++ [cp "Starting Django project '" ++ project_name
                               ++ cp "' with preset '" ++ preset ++ cp "'"]))
  /\ exit_status o = 1%Z.
Proof.
  intros Hpreset Hroot Hnone Hparent Hrun Hrc o. subst o.
  assert (Ho : project project_name app_name preset install w
    = Raised CalledProcessError
        (World m (stdout w ++ [cp "Starting Django project '" ++ project_name
                               ++ cp "' with preset '" ++ preset ++ cp "'"])));
    [|rewrite Ho; split; reflexivity].
  unfold project. rewrite bind_run. cbn [echo].
  rewrite bind_run. cbn [exists_path fs].
  rewrite (bool_decide_eq_true_2 _ Hpreset). cbn [negb].
  rewrite bind_run. cbn [exists_path fs].
  assert (Habsent : lookup_path (fs w) (joinpath cwd project_name) = None)
    by (unfold lookup_path; rewrite Hroot; exact Hnone).
  rewrite Habsent.
  rewrite bool_decide_eq_false_2 by (intros [x Hx]; discriminate).
  rewrite bind_run. cbn [mret M_ret].
  rewrite bind_run. unfold on_path at 1, mkdir_exist_ok. cbn [fs stdout].
  rewrite Hroot, Hnone, Hparent.
  rewrite bind_run. unfold on_path at 1, subprocess_run. cbn [fs stdout].
  assert (Hnodir : fs w !! root <> Some Dir)
    by (rewrite Hnone; discriminate).
  unfold resolve. rewrite (resolve_from_insert _ root Dir _ _ _ Hnodir Hroot).
  rewrite Hrun. cbn [andb].
  destruct (rc =? 0)%Z eqn:E; [apply Z.eqb_eq in E; congruence|].
  reflexivity.
Qed.

End ProjectGenerator.

Lemma project_generator_fails_witness :
  @project failing_env (cp "My-Blog") (cp "blog") (cp "base") false
    fresh_world
  = Raised CalledProcessError
      (World (<[ [cp "home"; cp "My-Blog"] := Dir ]> (fs fresh_world))
         [cp "Starting Django project 'My-Blog' with preset 'base'"]).
Proof.
  apply (@project_generator_fails failing_env (cp "My-Blog") (cp "blog")
           (cp "base") false fresh_world [cp "home"; cp "My-Blog"] 2%Z
           (<[ [cp "home"; cp "My-Blog"] := Dir ]> (fs fresh_world))).
  - exists Dir. vm_compute. reflexivity.
  - vm_compute. reflexivity.
  - vm_compute. reflexivity.
  - vm_compute. reflexivity.
  - reflexivity.
  - discriminate.
Defined.

(** ** The project command: the installer *)

(** Two runs that start with the same step: when the first returns,
    both have gone through that step alike. *)
Lemma bind_both {A B : Type} (m : M A) (k1 k2 : A -> M B) (w : world)
  (b : B) (w' : world) (o : outcome B) :
  (forall a w0, m w = Ok a w0 -> k1 a w0 = Ok b w' -> k2 a w0 = o) ->
  (m ≫= k1) w = Ok b w' -> (m ≫= k2) w = o.
Proof.
  intros Hk Hrun. apply bind_Ok_inv in Hrun as (a & w0 & E & Hrun).
  rewrite (bind_Ok _ _ _ _ _ E). exact (Hk a w0 E Hrun).
Qed.

Section ProjectInstall.
Context `{Environment}.

(** X10.  The return code of the installer is ignored, its absence is
    not.  When the run without [--install] returns, leaving [w1], the
    run with [--install] from the same world does the same up to the
    installer, which is started in the project directory on the file
    system of [w1]: whatever code [pip] returns, the command returns
    too, having echoed the same, with the file system as [pip] left it;
    when [pip] cannot be started, or the project directory can no
    longer be reached, the command ends with an exception before the
    closing message. *)
Theorem project_install_outcome
  (project_name app_name preset : text) (w w1 : world) :
  project project_name app_name preset false w = Ok tt w1 ->
  project project_name app_name preset true w
  = match resolve (fs w1) (joinpath cwd project_name) with
    | Found root =>
        match run_process [cp "pip"; cp "install"; cp "-r";
                           cp "requirements.txt"] root (fs w1) with
        | Some (rc, m) => Ok tt (World m (stdout w1))
        | None => Raised FileNotFoundError
                    (World (fs w1) (removelast (stdout w1)))
        end
    | Missing => Raised FileNotFoundError
                   (World (fs w1) (removelast (stdout w1)))
    | Blocked => Raised NotADirectoryError
                   (World (fs w1) (removelast (stdout w1)))
    end.
Proof.
  unfold project.
  apply bind_both. intros _ w0 _.
  apply bind_both. intros found w2 _.
  destruct found; cbn [negb].
  2:{ intros Hrun. apply bind_Ok_inv in Hrun as (? & ? & _ & Hx).
      discriminate Hx. }
  apply bind_both. intros there w3 _.
  apply bind_both. intros occupied w4 _.
  destruct occupied.
  { intros Hrun. apply bind_Ok_inv in Hrun as (? & ? & _ & Hx).
    discriminate Hx. }
  do 9 (apply bind_both; intros ? ? _).
  rewrite !bind_run. cbn [mret M_ret echo]. intros Hrun.
  injection Hrun as <-. cbn [fs stdout].
  rewrite removelast_last.
  unfold on_path, subprocess_run.
  destruct (resolve _ _) as [root| |]; cbn [andb echo fs stdout].
  - destruct (run_process _ _ _) as [[rc m]|]; cbn [andb echo fs stdout].
    + reflexivity.
    + match goal with |- Raised _ ?x = _ => destruct x end. reflexivity.
  - match goal with |- Raised _ ?x = _ => destruct x end. reflexivity.
  - match goal with |- Raised _ ?x = _ => destruct x end. reflexivity.
Qed.

End ProjectInstall.

Lemma project_install_outcome_witness :
  @project generator_env (cp "My-Blog") (cp "blog") (cp "base") false
    fresh_world
  = Ok tt (final_world (@project generator_env (cp "My-Blog") (cp "blog")
                          (cp "base") false fresh_world))
  /\ exit_status (@project generator_env (cp "My-Blog") (cp "blog")
                    (cp "base") true fresh_world) = 0%Z.
Proof.
  pose proof (@eq_refl _ (@project generator_env (cp "My-Blog") (cp "blog")
                            (cp "base") false fresh_world)
    <: @project generator_env (cp "My-Blog") (cp "blog") (cp "base") false
         fresh_world
       = Ok tt (final_world (@project generator_env (cp "My-Blog")
                               (cp "blog") (cp "base") false fresh_world)))
    as Hrun.
  split; [exact Hrun|].
  rewrite (@project_install_outcome generator_env _ _ _ _ _ Hrun).
  vm_compute. reflexivity.
Defined.

(** ** The fixer before the registrar *)

Lemma contains_split (p s : text) :
  contains p s = true -> exists a b, s = a ++ p ++ b.
Proof.
  induction s as [|c s IH]; simpl; intros Hc.
  - rewrite orb_false_r in Hc. destruct p; [|discriminate].
    exists [], []. reflexivity.
  - apply orb_true_iff in Hc. destruct Hc as [Hs | Hc].
    + exists [], (drop (length p) (c :: s)).
      exact (startswith_split p (c :: s) Hs).
    + destruct (IH Hc) as (a & b & ->). exists (c :: a), b. reflexivity.
Qed.

Lemma contains_trans (a b c : text) :
  contains a b = true -> contains b c = true -> contains a c = true.
Proof.
  intros Hab Hbc. destruct (contains_split _ _ Hbc) as (x & y & ->).
  apply contains_app_r, contains_app_l, Hab.
Qed.

(** A pass either leaves the text as it is or puts the replacement
    into it. *)
Lemma sub_all_changes (kw repl t : text) :
  sub_all (assignment_pattern kw) repl t = t
  \/ contains repl (sub_all (assignment_pattern kw) repl t) = true.
Proof.
  induction t as [|c t IH]; rewrite sub_all_assignment.
  - destruct (parse_assignment kw []) as [rest|]; [right | left; reflexivity].
    apply (contains_middle repl []).
  - destruct (parse_assignment kw (c :: t)) as [rest|].
    + right. apply (contains_middle repl []).
    + destruct IH as [-> | IH]; [left; reflexivity | right].
      apply (contains_app_r repl [c]), IH.
Qed.

Lemma contains_name_repl (name : text) :
  contains name (urlconf_repl name) = true
  /\ contains name (wsgi_repl name) = true.
Proof.
  unfold urlconf_repl, wsgi_repl. split.
  - rewrite (app_assoc ROOT_URLCONF), (app_assoc _ [34]).
    apply contains_middle.
  - rewrite (app_assoc WSGI_APPLICATION), (app_assoc _ [34]).
    apply contains_middle.
Qed.

Lemma fix_references_changes (name t t' : text) :
  fix_references_text name t = Some t' ->
  t' = t \/ contains name t' = true.
Proof.
  unfold fix_references_text, re_sub.
  destruct (existsb (N.eqb BACKSLASH) (urlconf_repl name)); [discriminate|].
  destruct (existsb (N.eqb BACKSLASH) (wsgi_repl name)); [discriminate|].
  intros Hfix.
  assert (E : t' = sub_all (assignment_pattern WSGI_APPLICATION)
                     (wsgi_repl name)
                     (sub_all (assignment_pattern ROOT_URLCONF)
                        (urlconf_repl name) t))
    by (injection Hfix as <-; reflexivity).
  clear Hfix. subst t'.
  destruct (contains_name_repl name) as [Hu Hw].
  destruct (sub_all_changes WSGI_APPLICATION (wsgi_repl name)
              (sub_all (assignment_pattern ROOT_URLCONF)
                 (urlconf_repl name) t)) as [-> | H2].
  - destruct (sub_all_changes ROOT_URLCONF (urlconf_repl name) t)
      as [-> | H1]; [left; reflexivity | right].
    exact (contains_trans _ _ _ Hu H1).
  - right. exact (contains_trans _ _ _ Hw H2).
Qed.

(** X11.  The registrar runs on what the fixer has written.  When the
    fixer has changed the text, the safe project name occurs in it; so
    an app whose name occurs inside the safe project name (project
    [My-Blog], app [Blog]) is taken as already added, and is not
    registered. *)
Theorem fix_references_shadows_app (name app_name t t' : text) :
  contains app_name name = true ->
  fix_references_text name t = Some t' ->
  t' <> t ->
  add_app_text t' app_name = None.
Proof.
  intros Happ Hfix Hne.
  destruct (fix_references_changes _ _ _ Hfix) as [E | Hc]; [congruence|].
  unfold add_app_text. rewrite (contains_trans _ _ _ Happ Hc). reflexivity.
Qed.

Lemma fix_references_shadows_app_witness :
  add_app_text
    (cp "ROOT_URLCONF = " ++ [34] ++ cp "My_Blog.urls" ++ [34; LF]
     ++ cp "WSGI_APPLICATION = " ++ [34] ++ cp "My_Blog.wsgi.application"
     ++ [34; LF])
    (cp "Blog") = None.
Proof.
  apply (fix_references_shadows_app (cp "My_Blog") (cp "Blog") old_settings).
  - vm_compute. reflexivity.
  - vm_compute. reflexivity.
  - vm_compute. discriminate.
Defined.

(** ** The project command: what a successful run has echoed *)

Lemma echoes_last_echo (msg : text) : echoes_last msg (echo msg).
Proof. intros w a w' E. apply (echo_Ok _ _ _ _ E). Qed.

Lemma echoes_last_bind {A B : Type} (msg : text) (m : M A) (k : A -> M B) :
  quiet m -> (forall a, echoes_last msg (k a)) -> echoes_last msg (m ≫= k).
Proof.
  intros Hm Hk w b w' Hrun.
  apply bind_Ok_inv in Hrun as (a & w0 & E & Hrun).
  rewrite (Hk _ _ _ _ Hrun), (Hm _ _ _ E). reflexivity.
Qed.

Lemma quiet_bind {A B : Type} (m : M A) (k : A -> M B) :
  quiet m -> (forall a, quiet (k a)) -> quiet (m ≫= k).
Proof.
  intros Hm Hk w b w' Hrun.
  apply bind_Ok_inv in Hrun as (a & w0 & E & Hrun).
  rewrite (Hk _ _ _ _ Hrun). exact (Hm _ _ _ E).
Qed.

Lemma quiet_ret {A : Type} (a : A) : quiet (mret a).
Proof. intros w b w' Hrun. injection Hrun as _ <-. reflexivity. Qed.

Lemma quiet_if {A : Type} (b : bool) (m1 m2 : M A) :
  quiet m1 -> quiet m2 -> quiet (if b then m1 else m2).
Proof. destruct b; trivial. Qed.

Lemma quiet_path_exists (p : path) : quiet (path_exists p).
Proof. intros w b w' Hrun. injection Hrun as _ <-. reflexivity. Qed.

Lemma quiet_exists_path (p : path) : quiet (exists_path p).
Proof. intros w b w' Hrun. injection Hrun as _ <-. reflexivity. Qed.

Lemma quiet_on_path {A : Type} (p : path) (op : path -> M A) :
  (forall q, quiet (op q)) -> quiet (on_path p op).
Proof.
  intros Hop w a w' Hrun. apply on_path_Ok in Hrun as (q & _ & Hrun).
  exact (Hop q _ _ _ Hrun).
Qed.

Lemma quiet_iterdir (p : path) : quiet (iterdir p).
Proof.
  intros w b w'. unfold iterdir.
  destruct (fs w !! p) as [[x|]|]; try discriminate.
  intros Hrun. injection Hrun as _ <-. reflexivity.
Qed.

Lemma quiet_mkdir (p : path) : quiet (mkdir_exist_ok p).
Proof.
  intros w b w'. unfold mkdir_exist_ok.
  destruct (fs w !! p) as [[x|]|]; try discriminate.
  - intros Hrun. injection Hrun as _ <-. reflexivity.
  - destruct (fs w !! parent p) as [[y|]|]; try discriminate.
    intros Hrun. injection Hrun as _ <-. reflexivity.
Qed.

Lemma quiet_store_file (p : path) (s : text) : quiet (store_file p s).
Proof.
  intros w b w'. unfold store_file.
  destruct (fs w !! p) as [[x|]|];
    destruct (fs w !! parent p) as [[y|]|]; try discriminate;
    intros Hrun; injection Hrun as _ <-; reflexivity.
Qed.

Lemma quiet_read_text (p : path) : quiet (read_text p).
Proof.
  intros w b w'. unfold read_text.
  destruct (fs w !! p) as [[x|]|]; try discriminate.
  intros Hrun. injection Hrun as _ <-. reflexivity.
Qed.

Lemma quiet_shutil_copy (src dst : path) : quiet (shutil_copy src dst).
Proof.
  intros w b w'. unfold shutil_copy.
  destruct (fs w !! src) as [[x|]|]; try discriminate.
  apply quiet_store_file.
Qed.

Lemma quiet_copy_to (src dst : path) : quiet (copy_to src dst).
Proof.
  intros w b w'. unfold copy_to.
  destruct (fs w !! src) as [[x|]|]; [|discriminate..].
  destruct (resolve (fs w) dst) as [d| |]; [|discriminate..].
  apply quiet_shutil_copy.
Qed.

Lemma quiet_for_each {A : Type} (body : A -> M unit) (l : list A) :
  (forall x, quiet (body x)) -> quiet (for_each body l).
Proof.
  intros Hb. induction l as [|x l IH]; [apply quiet_ret|].
  cbn [for_each]. apply quiet_bind; [apply Hb | intros _; exact IH].
Qed.

Section Quiet.
Context `{Environment}.

Lemma quiet_subprocess_run (argv : list text) (check : bool) (dir : path) :
  quiet (subprocess_run argv check dir).
Proof.
  intros w b w'. unfold subprocess_run.
  destruct (run_process argv dir (fs w)) as [[rc m]|]; [|discriminate].
  destruct (check && negb (rc =? 0)%Z); [discriminate|].
  intros Hrun. injection Hrun as _ <-. reflexivity.
Qed.

Lemma quiet_add_app (p : path) (app_name : text) :
  quiet (add_app_to_settings p app_name).
Proof.
  unfold add_app_to_settings.
  apply quiet_bind; [apply quiet_read_text|]. intros content.
  destruct (add_app_text content app_name);
    [apply quiet_store_file | apply quiet_ret].
Qed.

Lemma quiet_fix (p : path) (name : text) :
  quiet (fix_project_references p name).
Proof.
  unfold fix_project_references.
  apply quiet_bind; [apply quiet_read_text|]. intros content.
  destruct (fix_references_text name content);
    [apply quiet_store_file | intros w b w'; discriminate].
Qed.

Lemma quiet_env (preset_path project_root : path) :
  quiet (env_step preset_path project_root).
Proof.
  unfold env_step.
  apply quiet_bind; [apply quiet_exists_path|]. intros b.
  apply quiet_if; [|apply quiet_ret].
  apply quiet_bind; [apply quiet_on_path; intros q; apply quiet_read_text|].
  intros t. apply quiet_on_path. intros q. apply quiet_store_file.
Qed.

Lemma quiet_copy (project_root file : path) :
  quiet (copy_preset_path project_root file).
Proof.
  unfold copy_preset_path.
  apply quiet_if; [apply quiet_copy_to | apply quiet_ret].
Qed.

(** X12.  What a run that returns has gone through: something was
    found at the path of the preset, the path of the target directory
    led to nothing or to an empty directory, and the command has
    echoed the opening message and the closing one, and nothing
    else. *)
Theorem project_success_output
  (project_name app_name preset : text) (install : bool) (w w1 : world) :
  project project_name app_name preset install w = Ok tt w1 ->
  is_Some (lookup_path (fs w) (joinpath PRESETS_DIR preset))
  /\ (lookup_path (fs w) (joinpath cwd project_name) = None
      \/ exists root,
           resolve (fs w) (joinpath cwd project_name) = Found root
           /\ fs w !! root = Some Dir /\ children root (fs w) = [])
  /\ stdout w1
     = stdout w
       ++ [cp "Starting Django project '" ++ project_name
           ++ cp "' with preset '" ++ preset ++ cp "'";
           cp "Project '" ++ project_name ++ cp "' with app '" ++ app_name
           ++ cp "' is ready."].
Proof.
  unfold project. intros Hrun.
  apply bind_Ok_inv in Hrun as (u0 & w0 & E0 & Hrun).
  apply echo_Ok in E0 as [Hfs0 Hout0].
  apply bind_Ok_inv in Hrun as (found & wa & E1 & Hrun).
  apply exists_path_Ok in E1 as [-> ->]. rewrite Hfs0 in Hrun.
  destruct (bool_decide
              (is_Some (lookup_path (fs w) (joinpath PRESETS_DIR preset))))
    eqn:Hfound; cbn [negb] in Hrun.
  2:{ apply bind_Ok_inv in Hrun as (? & ? & _ & Hx). discriminate Hx. }
  apply bool_decide_eq_true_1 in Hfound.
  split; [exact Hfound|].
  apply bind_Ok_inv in Hrun as (there & wb & E2 & Hrun).
  apply exists_path_Ok in E2 as [-> ->].
  apply bind_Ok_inv in Hrun as (occ & w2 & E3 & Hrun).
  apply occupied_Ok in E3 as [-> Hroot].
  destruct occ.
  { apply bind_Ok_inv in Hrun as (? & ? & _ & Hx). discriminate Hx. }
  specialize (Hroot eq_refl). rewrite Hfs0 in Hroot.
  split; [exact Hroot|].
  rewrite (cons_middle _ (stdout w)), app_assoc, <- Hout0.
  eapply (fun T (HT : echoes_last _ T) => HT w0 tt w1); [|exact Hrun].
  repeat first
    [ apply echoes_last_echo
    | apply quiet_fix
    | apply quiet_add_app
    | apply quiet_env
    | apply quiet_copy
    | apply quiet_copy_to
    | apply quiet_for_each; intros ?
    | apply quiet_mkdir
    | apply quiet_subprocess_run
    | apply quiet_exists_path
    | apply quiet_iterdir
    | apply quiet_ret
    | apply quiet_if
    | apply quiet_on_path; intros ?
    | apply quiet_bind; [|intros ?]
    | apply echoes_last_bind; [|intros ?] ].
Qed.

End Quiet.

Lemma project_success_output_witness :
  stdout (final_world (@project generator_env (cp "My-Blog") (cp "blog")
                         (cp "base") true fresh_world))
  = [cp "Starting Django project 'My-Blog' with preset 'base'";
     cp "Project 'My-Blog' with app 'blog' is ready."].
Proof.
  pose proof (@eq_refl _ (@project generator_env (cp "My-Blog") (cp "blog")
                            (cp "base") true fresh_world)
    <: @project generator_env (cp "My-Blog") (cp "blog") (cp "base") true
         fresh_world
       = Ok tt (final_world (@project generator_env (cp "My-Blog")
                               (cp "blog") (cp "base") true fresh_world)))
    as Hrun.
  destruct (@project_success_output generator_env _ _ _ _ _ _ Hrun)
    as (_ & _ & Hout).
  exact Hout.
Defined.

(** ** Assignments at the start of a line, however spaced and quoted *)

Lemma assignment_app (kw ws1 ws2 : text) (q1 : N) (value : text) (q2 : N)
  (x : text) :
  assignment kw ws1 ws2 q1 value q2 ++ x
  = kw ++ ws1 ++ EQUALS :: ws2 ++ q1 :: value ++ q2 :: x.
Proof.
  unfold assignment.
  repeat first [rewrite <- app_assoc | progress cbn [app]]. reflexivity.
Qed.

Lemma keyword_no_quote (kw x : text) (q : N) (n : nat) :
  keyword kw -> is_quote q = true -> (n < length kw)%nat ->
  startswith (drop n kw) (q :: x) = false.
Proof.
  intros Hkw Hq Hn. unfold is_quote in Hq. apply orb_true_iff in Hq.
  destruct Hq as [Hq | Hq]; apply N.eqb_eq in Hq; subst q;
    destruct Hkw as [-> | ->];
    [ change (length ROOT_URLCONF) with 12%nat in Hn
    | change (length WSGI_APPLICATION) with 16%nat in Hn
    | change (length ROOT_URLCONF) with 12%nat in Hn
    | change (length WSGI_APPLICATION) with 16%nat in Hn ];
    do 16 (destruct n as [|n]; [first [exfalso; lia | reflexivity]|]);
    exfalso; lia.
Qed.

(** No match of the routing-config pattern starts at a character other
    than [R]. *)
Lemma no_match_inside_other_head (h x : text) :
  forallb (fun c => negb (c =? 82)) h = true ->
  no_match_inside ROOT_URLCONF h x.
Proof.
  induction h as [|c h IH]; intros Hh; [exact I|].
  cbn [forallb] in Hh. apply andb_true_iff in Hh. destruct Hh as [Hc Hh].
  split; [|exact (IH Hh)].
  unfold parse_assignment.
  change ROOT_URLCONF with (82 :: cp "OOT_URLCONF").
  cbn [app startswith]. rewrite N.eqb_sym.
  apply negb_true_iff in Hc. rewrite Hc. reflexivity.
Qed.

Lemma spaces_not_R (ws : text) :
  forallb is_space ws = true -> forallb (fun c => negb (c =? 82)) ws = true.
Proof.
  intros Hws. apply forallb_forall. intros c Hc.
  rewrite forallb_forall in Hws. specialize (Hws c Hc).
  destruct (N.eqb_spec c 82) as [-> | _]; [discriminate | reflexivity].
Qed.

Lemma quote_not_R (q : N) : is_quote q = true -> negb (q =? 82) = true.
Proof.
  intros Hq. destruct (N.eqb_spec q 82) as [-> | _];
    [discriminate | reflexivity].
Qed.

(** No match of the routing-config pattern starts inside a quoted value
    in which its name does not occur. *)
Lemma no_match_inside_value (v x : text) (q : N) :
  contains ROOT_URLCONF v = false -> is_quote q = true ->
  no_match_inside ROOT_URLCONF v (q :: x).
Proof.
  intros Hc Hq. induction v as [|c v IH]; [exact I|].
  destruct (contains_false_inv _ _ _ Hc) as [Hs Hv].
  split; [|exact (IH Hv)].
  unfold parse_assignment.
  destruct (startswith ROOT_URLCONF ((c :: v) ++ q :: x)) eqn:E;
    [|reflexivity].
  exfalso.
  destruct (le_lt_dec (length ROOT_URLCONF) (length (c :: v))) as [Hl | Hl].
  - rewrite startswith_app_long in E by exact Hl. congruence.
  - apply startswith_app_short in E; [|exact Hl].
    rewrite keyword_no_quote in E;
      [discriminate | left; reflexivity | exact Hq | exact Hl].
Qed.

Lemma no_match_inside_wsgi_assignment
  (ws1 ws2 value post : text) (q1 q2 : N) :
  forallb is_space ws1 = true -> forallb is_space ws2 = true ->
  is_quote q1 = true -> is_quote q2 = true ->
  contains ROOT_URLCONF value = false ->
  no_match_inside ROOT_URLCONF
    (assignment WSGI_APPLICATION ws1 ws2 q1 value q2) post.
Proof.
  intros H1 H2 Hq1 Hq2 Hv. unfold assignment.
  apply no_match_inside_app; [apply all_tails_mismatch_inside; reflexivity|].
  change (ws1 ++ EQUALS :: ws2 ++ q1 :: value ++ [q2])
    with (ws1 ++ [EQUALS] ++ ws2 ++ [q1] ++ value ++ [q2]).
  rewrite !(app_assoc _ _ (value ++ [q2])).
  apply no_match_inside_app.
  - apply no_match_inside_other_head.
    rewrite !forallb_app, (spaces_not_R _ H1), (spaces_not_R _ H2).
    cbn [forallb]. rewrite (quote_not_R _ Hq1). reflexivity.
  - apply no_match_inside_app.
    + apply (no_match_inside_value value post q2 Hv Hq2).
    + apply no_match_inside_other_head. cbn [forallb].
      rewrite (quote_not_R _ Hq2). reflexivity.
Qed.

(** X14.  For a project name without quotes, LF and backslash: an
    assignment of [WSGI_APPLICATION] at the start of a line, with any
    white space around the equals sign, either quote on either side
    and a value without quote and LF in which [ROOT_URLCONF] does not
    occur, becomes [WSGI_APPLICATION = "<name>.wsgi.application"],
    between what the fixer makes of the text before and of the text
    after. *)
Theorem fix_references_normalises_wsgi
  (name pre ws1 ws2 value post : text) (q1 q2 : N) :
  name_ok name = true -> ends_line pre ->
  forallb is_space ws1 = true -> forallb is_space ws2 = true ->
  is_quote q1 = true -> is_quote q2 = true -> clean value = true ->
  contains ROOT_URLCONF value = false ->
  exists pre' post' : text,
    fix_references_text name pre = Some pre'
    /\ fix_references_text name post = Some post'
    /\ fix_references_text name
         (pre ++ assignment WSGI_APPLICATION ws1 ws2 q1 value q2 ++ post)
       = Some (pre' ++ wsgi_repl name ++ post').
Proof.
  intros Hn Hpre H1 H2 Hq1 Hq2 Hv Hc.
  rewrite !(fix_references_text_runs name _ Hn).
  eexists. eexists. split; [reflexivity|]. split; [reflexivity|]. f_equal.
  set (p1 := sub_all (assignment_pattern ROOT_URLCONF) (urlconf_repl name)
               pre).
  set (q := sub_all (assignment_pattern ROOT_URLCONF) (urlconf_repl name)
              post).
  assert (E1 : sub_all (assignment_pattern ROOT_URLCONF) (urlconf_repl name)
                 (pre ++ assignment WSGI_APPLICATION ws1 ws2 q1 value q2
                  ++ post)
               = p1 ++ assignment WSGI_APPLICATION ws1 ws2 q1 value q2 ++ q).
  { subst p1 q.
    rewrite <- (sub_skip ROOT_URLCONF (urlconf_repl name) _ post
                  (no_match_inside_wsgi_assignment ws1 ws2 value post q1 q2
                     H1 H2 Hq1 Hq2 Hc)).
    rewrite assignment_app.
    apply sub_line_start; auto using keyword_urlconf, keyword_wsgi. }
  rewrite E1.
  assert (Hp1 : ends_line p1).
  { apply sub_ends_line; [|exact Hpre].
    intros x. apply parse_urlconf_repl, Hn. }
  assert (Hm : parse_assignment WSGI_APPLICATION
                 (assignment WSGI_APPLICATION ws1 ws2 q1 value q2 ++ q)
               = Some q).
  { rewrite assignment_app. apply parse_assignment_matches; assumption. }
  rewrite <- (sub_match _ (wsgi_repl name) _ _ Hm).
  rewrite assignment_app.
  apply sub_line_start; auto using keyword_wsgi.
Qed.

Lemma fix_references_normalises_wsgi_witness :
  fix_references_text (cp "My_Blog")
    (cp "DEBUG = True" ++ [LF]
     ++ assignment WSGI_APPLICATION [] [LF; 32] 39 (cp "old.wsgi.app") 34
     ++ [LF])
  = Some (cp "DEBUG = True" ++ [LF] ++ wsgi_repl (cp "My_Blog") ++ [LF]).
Proof.
  destruct (fix_references_normalises_wsgi (cp "My_Blog")
              (cp "DEBUG = True" ++ [LF]) [] [LF; 32] (cp "old.wsgi.app")
              [LF] 39 34) as (pre' & post' & Hpre & Hpost & Hfix);
    [reflexivity | right; reflexivity | reflexivity.. |].
  vm_compute in Hpre. injection Hpre as <-.
  vm_compute in Hpost. injection Hpost as <-.
  exact Hfix.
Defined.

(** X15.  The same for [ROOT_URLCONF], with no condition on what the
    value holds besides quotes and LF: however spaced and quoted, the
    assignment at the start of a line becomes
    [ROOT_URLCONF = "<name>.urls"]. *)
Theorem fix_references_normalises_urlconf
  (name pre ws1 ws2 value post : text) (q1 q2 : N) :
  name_ok name = true -> ends_line pre ->
  forallb is_space ws1 = true -> forallb is_space ws2 = true ->
  is_quote q1 = true -> is_quote q2 = true -> clean value = true ->
  exists pre' post' : text,
    fix_references_text name pre = Some pre'
    /\ fix_references_text name post = Some post'
    /\ fix_references_text name
         (pre ++ assignment ROOT_URLCONF ws1 ws2 q1 value q2 ++ post)
       = Some (pre' ++ urlconf_repl name ++ post').
Proof.
  intros Hn Hpre H1 H2 Hq1 Hq2 Hv.
  rewrite !(fix_references_text_runs name _ Hn).
  eexists. eexists. split; [reflexivity|]. split; [reflexivity|]. f_equal.
  set (p1 := sub_all (assignment_pattern ROOT_URLCONF) (urlconf_repl name)
               pre).
  set (q := sub_all (assignment_pattern ROOT_URLCONF) (urlconf_repl name)
              post).
  assert (Hm : parse_assignment ROOT_URLCONF
                 (assignment ROOT_URLCONF ws1 ws2 q1 value q2 ++ post)
               = Some post).
  { rewrite assignment_app. apply parse_assignment_matches; assumption. }
  assert (E1 : sub_all (assignment_pattern ROOT_URLCONF) (urlconf_repl name)
                 (pre ++ assignment ROOT_URLCONF ws1 ws2 q1 value q2 ++ post)
               = p1 ++ urlconf_repl name ++ q).
  { subst p1 q. rewrite <- (sub_match _ (urlconf_repl name) _ _ Hm).
    rewrite assignment_app.
    apply sub_line_start; auto using keyword_urlconf. }
  rewrite E1.
  assert (Hp1 : ends_line p1).
  { apply sub_ends_line; [|exact Hpre].
    intros x. apply parse_urlconf_repl, Hn. }
  rewrite <- (sub_skip WSGI_APPLICATION (wsgi_repl name)
                (urlconf_repl name) q (inside_urlconf_other name q Hn)).
  unfold urlconf_repl. rewrite <- !app_assoc.
  apply sub_line_start; auto using keyword_urlconf, keyword_wsgi.
Qed.

Lemma fix_references_normalises_urlconf_witness :
  fix_references_text (cp "My_Blog")
    (assignment ROOT_URLCONF [32; 32] [] 39 (cp "old.urls") 39 ++ [LF])
  = Some (urlconf_repl (cp "My_Blog") ++ [LF]).
Proof.
  destruct (fix_references_normalises_urlconf (cp "My_Blog") [] [32; 32] []
              (cp "old.urls") [LF] 39 39)
    as (pre' & post' & Hpre & Hpost & Hfix);
    [reflexivity | left; reflexivity | reflexivity.. |].
  vm_compute in Hpre. injection Hpre as <-.
  vm_compute in Hpost. injection Hpost as <-.
  exact Hfix.
Defined.

(** The hypothesis on the value is needed: a value that ends in the
    other name and an equals sign lets the first substitution start a
    match inside it, at the closing quote. *)
Example fix_references_wsgi_value_misread :
  fix_references_text (cp "p")
    (assignment WSGI_APPLICATION [32] [32] 34 (cp "ROOT_URLCONF=") 34
     ++ cp "; X = 'y'")
  = Some (wsgi_repl (cp "p") ++ cp "p.urls" ++ [34] ++ cp "y'").
Proof. vm_compute. reflexivity. Qed.

(** ** The settings overlay *)

Section Overlay.
Context `{Environment}.

(** X13.  The overlay of step 3: with a settings file in the preset
    and another path as target, not a directory and lying in one,
    copying and then fixing leaves in the target the fixed text of the
    preset file, written with the line separator of the platform.
    Nothing of what the target held before is kept. *)
Theorem overlay_replaces_settings
  (src dst : path) (name c t' : text) (w : world) :
  fs w !! src = Some (File c) ->
  src <> dst ->
  fs w !! dst <> Some Dir ->
  fs w !! parent dst = Some Dir ->
  fix_references_text name (universal_newlines c) = Some t' ->
  (shutil_copy src dst ;; fix_project_references dst name) w
  = Ok tt (World (<[dst := File (write_newlines os_linesep t')]> (fs w))
             (stdout w)).
Proof.
  intros Hsrc _ Hdst Hparent Hfix.
  assert (Hne : parent dst <> dst).
  { intros E. rewrite E in Hparent. contradiction. }
  assert (Hcopy : shutil_copy src dst w
                  = Ok tt (World (<[dst := File c]> (fs w)) (stdout w))).
  { unfold shutil_copy. rewrite Hsrc.
    destruct (fs w !! dst) as [[x|]|] eqn:Ed; [|contradiction|];
      unfold store_file; rewrite Ed, Hparent; reflexivity. }
  rewrite (bind_run (shutil_copy src dst)), Hcopy.
  unfold fix_project_references. rewrite bind_run.
  unfold read_text at 1. cbn [fs]. rewrite lookup_insert_eq, Hfix.
  unfold write_text, store_file. cbn [fs stdout].
  rewrite lookup_insert_eq, lookup_insert_ne by (intros E; exact (Hne (eq_sym E))).
  rewrite Hparent, insert_insert_eq. reflexivity.
Qed.

End Overlay.

Lemma overlay_replaces_settings_witness :
  (shutil_copy [cp "presets"; cp "base"; cp "settings.py"]
     [cp "home"; cp "blog"; cp "blog"; cp "settings.py"] ;;
   @fix_project_references example_env
     [cp "home"; cp "blog"; cp "blog"; cp "settings.py"] (cp "blog"))
    overlay_world
  = Ok tt
      (World (<[ [cp "home"; cp "blog"; cp "blog"; cp "settings.py"]
                   := File (write_newlines (@os_linesep example_env)
                              (urlconf_repl (cp "blog") ++ [LF]
                               ++ wsgi_repl (cp "blog") ++ [LF])) ]>
                (fs overlay_world))
         (stdout overlay_world)).
Proof.
  apply (@overlay_replaces_settings example_env
           [cp "presets"; cp "base"; cp "settings.py"]
           [cp "home"; cp "blog"; cp "blog"; cp "settings.py"]
           (cp "blog") old_settings).
  - vm_compute. reflexivity.
  - discriminate.
  - vm_compute. discriminate.
  - vm_compute. reflexivity.
  - vm_compute. reflexivity.
Defined.

(** ** The paths of the command and the places they lead to

    [project] walks its paths; the statements above on copying the
    preset files, on the environment file and on the overlay are about
    the places reached.  Where the paths lead to directories, the steps
    of [project] are those operations. *)

Section Reached.
Context `{Environment}.

Lemma copy_preset_path_reached (project_root file r : path) (w : world) :
  resolve (fs w) project_root = Found r -> fs w !! r = Some Dir ->
  copy_preset_path project_root file w = copy_preset_file r file w.
Proof.
  intros Hr Hdir. unfold copy_preset_path, copy_preset_file.
  destruct (bool_decide (name_of file ∈ ALLOWED_PRESET_FILES)) eqn:Hin;
    [|reflexivity].
  apply bool_decide_eq_true_1, list_elem_of_In in Hin.
  destruct Hin as [<- | []].
  change (joinpath project_root (cp "requirements.txt"))
    with (project_root ++ [cp "requirements.txt"]).
  unfold copy_to.
  rewrite (resolve_child _ _ _ (cp "requirements.txt") Hr Hdir)
    by discriminate.
  unfold shutil_copy. destruct (fs w !! file) as [[c|]|]; reflexivity.
Qed.

Lemma env_step_reached (preset_path project_root p r : path) (w : world) :
  resolve (fs w) preset_path = Found p -> fs w !! p = Some Dir ->
  resolve (fs w) project_root = Found r -> fs w !! r = Some Dir ->
  env_step preset_path project_root w = handle_env_template p r w.
Proof.
  intros Hp Hpd Hr Hrd. unfold env_step, handle_env_template.
  change (joinpath preset_path (cp ".env.template"))
    with (preset_path ++ [cp ".env.template"]).
  change (joinpath project_root (cp ".env"))
    with (project_root ++ [cp ".env"]).
  assert (Ht : resolve (fs w) (preset_path ++ [cp ".env.template"])
               = Found (p ++ [cp ".env.template"]))
    by (apply resolve_child; [exact Hp | exact Hpd | discriminate]).
  assert (He : resolve (fs w) (project_root ++ [cp ".env"])
               = Found (r ++ [cp ".env"]))
    by (apply resolve_child; [exact Hr | exact Hrd | discriminate]).
  rewrite !bind_run. unfold exists_path, path_exists, lookup_path.
  rewrite Ht.
  destruct (bool_decide (is_Some (fs w !! (p ++ [cp ".env.template"]))));
    [|reflexivity].
  rewrite !bind_run. unfold on_path at 1. rewrite Ht.
  destruct (read_text (p ++ [cp ".env.template"]) w) as [t w'| |] eqn:E;
    [|reflexivity..].
  assert (w' = w) as ->.
  { revert E. unfold read_text.
    destruct (fs w !! (p ++ [cp ".env.template"])) as [[c|]|];
      try discriminate.
    intros E. injection E as _ <-. reflexivity. }
  unfold on_path. rewrite He. reflexivity.
Qed.

(** The overlay: copying the settings of the preset and fixing them,
    on paths. *)
Lemma overlay_reached (src_settings target_settings src dst : path)
  (name c : text) (w : world) :
  resolve (fs w) src_settings = Found src ->
  resolve (fs w) target_settings = Found dst ->
  fs w !! src = Some (File c) ->
  fs w !! dst <> Some Dir ->
  (on_path src_settings (fun s => copy_to s target_settings) ;;
   on_path target_settings (fun p => fix_project_references p name)) w
  = (shutil_copy src dst ;; fix_project_references dst name) w.
Proof.
  intros Hs Hd Hsrc Hdst. rewrite !bind_run.
  unfold on_path at 1, copy_to. rewrite Hs, Hsrc, Hd.
  destruct (shutil_copy src dst w) as [u w'| |] eqn:E; [|reflexivity..].
  unfold on_path.
  assert (Hw' : exists x, fs w' = <[dst := File x]> (fs w)).
  { revert E. unfold shutil_copy. rewrite Hsrc.
    destruct (fs w !! dst) as [[x|]|] eqn:Ed; [|contradiction|];
      unfold store_file; rewrite Ed;
      destruct (fs w !! parent dst) as [[y|]|]; try discriminate;
      intros E; injection E as _ <-; eexists; reflexivity. }
  destruct Hw' as [x ->]. unfold resolve in *.
  rewrite (resolve_from_insert _ dst (File x) _ _ _ Hdst Hd). reflexivity.
Qed.

End Reached.
